(** * PeggleRogue level generator: a shallow embedding of [src/levelGenerator.js]

    The class [LevelGenerator] is embedded function by function, keeping the
    names of the source.

    - JavaScript numbers are read as exact rationals ([Q]): rounding of
      floating-point arithmetic is not modelled.  Integers that the source
      only ever uses as integers (level numbers, colour indices, loop
      counters, counts) are [Z].
    - [Math.random()] is an oracle [rnd : nat -> Q]; the state threaded
      through the code is the number of draws made so far.  A statement
      quantified over [rnd] and over the initial counter speaks about every
      outcome of the randomness.
    - The comparison [Math.sqrt(s) < d] is modelled exactly by
      [sqrt_ltb]; where the value of a transcendental function flows into a
      result ([Math.sin], [Math.cos], [Math.atan2], [Math.sqrt],
      [Math.pow]) the function is a parameter of the development.
    - A computation that may not return (a recursion or a loop whose bound
      can be infinite, a thrown exception) takes a fuel argument and yields
      [None] when it does not return a value. *)

From Stdlib Require Import ZArith QArith Qround Qabs List Lia Lqa Bool String.
From Stdlib Require Import Reals Lra Qreals.
Import ListNotations.

Local Open Scope Z_scope.
Local Open Scope Q_scope.

(** ** Numbers *)

(** [a % b] on integers: the remainder has the sign of the dividend. *)
Definition js_rem (a b : Z) : Z := Z.rem a b.

(** [Math.trunc]: rounding toward zero. *)
Definition Qtrunc (q : Q) : Z :=
  if Qle_bool 0 q then Qfloor q else Qceiling q.

(** [a % b] on numbers: [a - b * trunc(a / b)], with the sign of [a]. *)
Definition js_fmod (a b : Q) : Q := a - b * inject_Z (Qtrunc (a / b)).

Definition Qltb (a b : Q) : bool := negb (Qle_bool b a).

Definition Qmax (a b : Q) : Q := if Qle_bool a b then b else a.
Definition Qmin (a b : Q) : Q := if Qle_bool a b then a else b.

(** [Math.sqrt(s) < d], decided on exact numbers: for [0 <= s] the square
    root of [s] is below [d] exactly when [d] is positive and [s < d * d]. *)
Definition sqrt_ltb (s d : Q) : bool := Qltb 0 d && Qltb s (d * d).

(** [Math.PI], the double nearest to pi, is itself a rational. *)
Definition Math_PI : Q := 884279719003555 # 281474976710656.

(** ** Randomness: a state monad over the number of draws *)

Definition Rand (A : Type) : Type := nat -> A * nat.

Definition ret {A} (a : A) : Rand A := fun n => (a, n).

Definition bind {A B} (m : Rand A) (k : A -> Rand B) : Rand B :=
  fun n => let (a, n') := m n in k a n'.

(** The same, for computations that may fail to return. *)
Definition bindE {A B} (m : Rand (option A)) (k : A -> Rand (option B))
  : Rand (option B) :=
  bind m (fun o => match o with Some a => k a | None => ret None end).

Declare Scope rand_scope.
Delimit Scope rand_scope with rand.
Notation "x <- m ;; k" := (bind m (fun x => k))
  (at level 61, m at next level, right associativity) : rand_scope.
Notation "' pat <- m ;; k" := (bind m (fun x => match x with pat => k end))
  (at level 61, pat pattern, m at next level, right associativity) : rand_scope.
Notation "x <-? m ;; k" := (bindE m (fun x => k))
  (at level 61, m at next level, right associativity) : rand_scope.
Local Open Scope rand_scope.

(** Left-to-right iteration with a threaded accumulator: the shape of the
    source's [for] loops over a fixed range or an array. *)
Fixpoint foldM {A S} (f : S -> A -> Rand S) (l : list A) (s : S) : Rand S :=
  match l with
  | [] => ret s
  | a :: l' => s' <- f s a ;; foldM f l' s'
  end.

(** [zrange lo n] is [lo, lo+1, ..., lo+n-1]. *)
Fixpoint zrange (lo : Z) (n : nat) : list Z :=
  match n with
  | O => []
  | S n' => lo :: zrange (lo + 1) n'
  end.

(** The values of [i] in [for (let i = lo; i < hi; i++)]. *)
Definition zupto (lo hi : Z) : list Z := zrange lo (Z.to_nat (hi - lo)).

(** ** Data model *)

(** [{ x, y, colorIndex }] *)
Record Peg : Type := mkPeg { x : Q; y : Q; colorIndex : Z }.

(** [{ ...peg, colorIndex: c }] *)
Definition withColor (p : Peg) (c : Z) : Peg := mkPeg (x p) (y p) c.

(** An array of counters indexed by colour.  The source allocates
    [Array(8).fill(0)] and only ever reads the entries of the available
    colours; a total map keeps the writes made at other indices apart. *)
Definition Counts : Type := Z -> Z.
Definition zeroCounts : Counts := fun _ => 0%Z.
Definition incr (cs : Counts) (c : Z) : Counts :=
  fun i => if (i =? c)%Z then (cs i + 1)%Z else cs i.
Definition decr (cs : Counts) (c : Z) : Counts :=
  fun i => if (i =? c)%Z then (cs i - 1)%Z else cs i.

(** ** Constructor constants *)

Definition minPegSpacing : Q := 50.
Definition maxPatterns : Z := 4.
Definition horizontalMargin : Q := 100.
Definition basePegCount : Z := 40.
Definition minPegCountPerLevel : Z := 35.
Definition pegIncreasePerLevel : Z := 5.
Definition maxPegCount : Z := 120.

(** [{ level, colors }] entries of [this.colorProgression]. *)
Definition colorProgression : list (Z * Z) :=
  [(1, 4); (3, 6); (11, 8)]%Z.

(** ** getAvailableColors *)

(** The [for ... of] loop with its [break]. *)
Fixpoint getAvailableColors_loop (levelNumber : Z) (progression : list (Z * Z))
    (availableColors : Z) : Z :=
  match progression with
  | [] => availableColors
  | (level, colors) :: rest =>
      if (levelNumber >=? level)%Z
      then getAvailableColors_loop levelNumber rest colors
      else availableColors
  end.

Definition getAvailableColors (levelNumber : Z) : Z :=
  getAvailableColors_loop levelNumber colorProgression 4%Z.

(** ** getMinimumPegCount *)

Definition getMinimumPegCount (levelNumber : Z) : Z :=
  let minCount :=
    (minPegCountPerLevel + (levelNumber - 1) * pegIncreasePerLevel)%Z in
  Z.min minCount maxPegCount.

(** ** getColorThresholds *)

(** The local [scaledThreshold]: the base threshold before the per-colour
    variation is added. *)
Definition scaledThreshold (levelNumber : Z) : Q :=
  let baseThreshold := 0.25 in
  if (levelNumber <=? 5)%Z then
    baseThreshold + ((inject_Z levelNumber - 1) / 4) * 0.15
  else if (levelNumber <=? 10)%Z then
    0.40 + ((inject_Z levelNumber - 6) / 4) * 0.15
  else if (levelNumber <=? 15)%Z then
    0.55 + ((inject_Z levelNumber - 11) / 4) * 0.15
  else
    Qmin 0.80 (0.70 + ((inject_Z levelNumber - 16) / 10) * 0.10).

(** [arr[i] = v] for an index inside the array. *)
Fixpoint setNth {A} (l : list A) (i : nat) (v : A) : list A :=
  match l, i with
  | [], _ => []
  | _ :: l', O => v :: l'
  | a :: l', S i' => a :: setNth l' i' v
  end.

(** [Math.floor(q)] of a number, and the list helpers of the source. *)
Definition len {A} (l : list A) : Z := Z.of_nat (List.length l).

(** [ToInt32], applied by the bitwise operators to their operands. *)
Definition toInt32 (z : Z) : Z := ((z + 2 ^ 31) mod 2 ^ 32 - 2 ^ 31)%Z.

(** [hashFunction(x, y, seed)]:
    [Math.abs(((x * 3733 + y * 2053) ^ seed * 4057) % 967)]. *)
Definition hashFunction (x y seed : Z) : Z :=
  Z.abs (js_rem (Z.lxor (toInt32 (x * 3733 + y * 2053)) (toInt32 (seed * 4057)))
                967).

(** ** Geometry utilities *)

(** The test [Math.sqrt(dx * dx + dy * dy) < minDistance] between two pegs. *)
Definition tooClose (minDistance : Q) (a b : Peg) : bool :=
  let dx := x a - x b in
  let dy := y a - y b in
  sqrt_ltb (dx * dx + dy * dy) minDistance.

(** The outer loop of [removePegOverlaps]; the inner loop with its [break]
    is the [existsb]. *)
Fixpoint removePegOverlaps_loop (minDistance : Q) (pegs result : list Peg)
  : list Peg :=
  match pegs with
  | [] => result
  | peg :: rest =>
      if existsb (fun existingPeg => tooClose minDistance existingPeg peg) result
      then removePegOverlaps_loop minDistance rest result
      else removePegOverlaps_loop minDistance rest (result ++ [peg])
  end.

Definition removePegOverlaps (pegs : list Peg) (minDistance : Q) : list Peg :=
  removePegOverlaps_loop minDistance pegs [].

(** The search for the colour with the lowest count:
    [for (let i = 1; i < availableColors; i++)
       if (colorCounts[i] < colorCounts[minColorIndex]) minColorIndex = i]. *)
Definition leastUsedColor (colorCounts : Counts) (availableColors : Z) : Z :=
  fold_left
    (fun minColorIndex i =>
       if (colorCounts i <? colorCounts minColorIndex)%Z then i
       else minColorIndex)
    (zupto 1 availableColors) 0%Z.

(** [for (const peg of pegs) if (peg.colorIndex < availableColors)
      colorCounts[peg.colorIndex]++]. *)
Definition countAvailable (availableColors : Z) (colorCounts : Counts)
    (pegs : list Peg) : Counts :=
  fold_left
    (fun cc peg =>
       if (colorIndex peg <? availableColors)%Z then incr cc (colorIndex peg)
       else cc)
    pegs colorCounts.

(** ** Colour balancing: minimum-per-colour enforcement *)

(** [peg.colorIndex = peg.colorIndex % availableColors] when the index is
    [>= availableColors]. *)
Definition wrapColor (availableColors : Z) (peg : Peg) : Peg :=
  if (colorIndex peg >=? availableColors)%Z
  then withColor peg (js_rem (colorIndex peg) availableColors)
  else peg.

(** [for (let i = 0; i < balancedPegs.length && converted < needed; i++)]
    converting to [color] every peg whose colour passes [donor]. *)
Fixpoint convertPegs (donor : Z -> bool) (color needed : Z)
    (converted : Z) (colorCounts : Counts) (balancedPegs : list Peg)
  : list Peg * Counts * Z :=
  match balancedPegs with
  | [] => ([], colorCounts, converted)
  | peg :: rest =>
      if (converted <? needed)%Z then
        if donor (colorIndex peg) then
          let '(rest', cc', k) :=
            convertPegs donor color needed (converted + 1)%Z
              (incr (decr colorCounts (colorIndex peg)) color) rest in
          (withColor peg color :: rest', cc', k)
        else
          let '(rest', cc', k) :=
            convertPegs donor color needed converted colorCounts rest in
          (peg :: rest', cc', k)
      else (peg :: rest, colorCounts, converted)
  end.

Definition minPerColor (levelNumber : Z) : Z :=
  Z.max 3 (Qfloor (5 - inject_Z levelNumber * 0.1)).

Definition adjustedMinimum (levelNumber color : Z) : Z :=
  let extraMinForCyan := if (levelNumber =? 3)%Z then 2%Z else 0%Z in
  if (color =? 5)%Z && (levelNumber =? 3)%Z
  then (minPerColor levelNumber + extraMinForCyan)%Z
  else minPerColor levelNumber.

(** The colours [c] pushed on [excessColors]. *)
Definition excessColors (levelNumber availableColors color : Z)
    (colorCounts : Counts) : list Z :=
  filter
    (fun c =>
       negb ((levelNumber =? 3)%Z && (c =? 5)%Z)
       && negb (c =? color)%Z
       && (colorCounts c >? minPerColor levelNumber + 2)%Z)
    (zupto 0 availableColors).

(** A peg that the "convert any pegs" loops may take: not of the colour being
    raised and, on level 3, not cyan. *)
Definition anyDonor (levelNumber color : Z) (c : Z) : bool :=
  negb (c =? color)%Z && negb ((levelNumber =? 3)%Z && (c =? 5)%Z).

(** The body of [for (const color of colorOrder)]. *)
Definition ensureColor (levelNumber availableColors : Z)
    (st : list Peg * Counts) (color : Z) : list Peg * Counts :=
  let (balancedPegs, colorCounts) := st in
  if (color >=? availableColors)%Z then st
  else if (colorCounts color <? adjustedMinimum levelNumber color)%Z then
    let needed := (adjustedMinimum levelNumber color - colorCounts color)%Z in
    let excess := excessColors levelNumber availableColors color colorCounts in
    match excess with
    | _ :: _ =>
        let '(pegs1, cc1, converted) :=
          convertPegs (fun c => existsb (Z.eqb c) excess) color needed 0%Z
            colorCounts balancedPegs in
        if (converted <? needed)%Z then
          let '(pegs2, cc2, _) :=
            convertPegs (anyDonor levelNumber color) color needed converted
              cc1 pegs1 in
          (pegs2, cc2)
        else (pegs1, cc1)
    | [] =>
        let '(pegs1, cc1, _) :=
          convertPegs (anyDonor levelNumber color) color needed 0%Z
            colorCounts balancedPegs in
        (pegs1, cc1)
    end
  else st.

Definition colorOrder (levelNumber availableColors : Z) : list Z :=
  if (levelNumber =? 3)%Z then [5; 0; 1; 2; 3; 4]%Z
  else zupto 0 availableColors.

Definition ensureMinimumColorCounts (pegs : list Peg)
    (availableColors levelNumber : Z) : list Peg :=
  let pegs := map (wrapColor availableColors) pegs in
  let colorCounts :=
    fold_left (fun cc peg => incr cc (colorIndex peg)) pegs zeroCounts in
  let '(balancedPegs, _) :=
    fold_left (ensureColor levelNumber availableColors)
      (colorOrder levelNumber availableColors) (pegs, colorCounts) in
  map (wrapColor availableColors) balancedPegs.

(** ** Colour balancing: the clamp stage of [balanceColors] *)

(** The callback of [pegs.map] with the running [colorCounts]. *)
Definition clampPeg (availableColors : Z) (st : Counts * list Peg)
    (peg : Peg) : Counts * list Peg :=
  let (colorCounts, balanced) := st in
  if (colorIndex peg >=? availableColors)%Z then
    let minColorIndex := leastUsedColor colorCounts availableColors in
    let colorCounts := incr (decr colorCounts (colorIndex peg)) minColorIndex in
    (colorCounts, balanced ++ [withColor peg minColorIndex])
  else (colorCounts, balanced ++ [peg]).

Definition clampColors (pegs : list Peg) (availableColors : Z) : list Peg :=
  let colorCounts := countAvailable availableColors zeroCounts pegs in
  snd (fold_left (clampPeg availableColors) pegs (colorCounts, [])).

Fixpoint mapM {A B} (f : A -> Rand B) (l : list A) : Rand (list B) :=
  match l with
  | [] => ret []
  | a :: l' => b <- f a ;; bs <- mapM f l' ;; ret (b :: bs)
  end.








Fixpoint filterM {A} (f : A -> Rand bool) (l : list A) : Rand (list A) :=
  match l with
  | [] => ret []
  | a :: l' =>
      keep <- f a ;;
      rest <- filterM f l' ;;
      ret (if (keep : bool) then a :: rest else rest)
  end.

(** [Math.round]: to the nearest integer, halves upward. *)
Definition Math_round (q : Q) : Z := Qfloor (q + (1 # 2)).

(** [Math.ceil(Math.sqrt(n))] for an integer [n >= 0], computed exactly. *)
Definition ceilSqrt (n : Z) : Z :=
  let r := Z.sqrt n in if (r * r =? n)%Z then r else (r + 1)%Z.

(** [{ x, y, width, height }] with the optional [rotation]. *)
Record section : Type :=
  mkSection { sx : Q; sy : Q; width : Q; height : Q; rotation : option Q }.

(** [arr.splice(index, 1, a, b)] and [arr.splice(index, 1)] for an index
    inside the array. *)
Definition splice2 {A} (arr : list A) (index : nat) (a b : A) : list A :=
  firstn index arr ++ [a; b] ++ skipn (Datatypes.S index) arr.
Definition splice1 {A} (arr : list A) (index : nat) : list A :=
  firstn index arr ++ skipn (Datatypes.S index) arr.


Section LevelGenerator.

(** The constructor arguments. *)
Variables pegRadius canvasWidth canvasHeight : Q.

(** The host's [Math] functions whose values are not rational. *)
Variables Math_sin Math_cos Math_sqrt : Q -> Q.
Variable Math_atan2 : Q -> Q -> Q.
Variable Math_pow : Q -> Q -> Q.

(** The outcome of the randomness: the successive values of
    [Math.random()]. *)
Variable rnd : nat -> Q.

Definition Math_random : Rand Q := fun n => (rnd n, S n).

(** ** getColorThresholds, continued *)

(** One iteration of the loop over the available colours. *)
Definition thresholdStep (levelNumber availableColors : Z)
    (thresholds : list Q) (i : Z) : Rand (list Q) :=
  colorVariation <-
    (if (levelNumber >? 3)%Z then
       let colorVariation :=
         if (i =? 0)%Z then 0.05
         else if (i =? availableColors - 1)%Z then - 0.03
         else 0 in
       r <- Math_random ;;
       let randomVariation := r * 0.06 - 0.03 in
       ret (colorVariation + randomVariation)
     else ret 0) ;;
  ret (setNth thresholds (Z.to_nat i)
         (Qmin 0.85 (Qmax 0.2 (scaledThreshold levelNumber + colorVariation)))).

Definition getColorThresholds (levelNumber : Z) : Rand (list Q) :=
  let availableColors := getAvailableColors levelNumber in
  let thresholds := repeat (0 : Q) 8 in
  foldM (thresholdStep levelNumber availableColors)
        (zupto 0 availableColors) thresholds.

(** ** Gradient functions *)

Definition horizontalGradient (peg : Peg) (availableColors levelNumber : Z) : Z :=
  let normalizedX :=
    (x peg - horizontalMargin) / (canvasWidth - 2 * horizontalMargin) in
  Qfloor (normalizedX * inject_Z availableColors).

Definition verticalGradient (peg : Peg) (availableColors levelNumber : Z) : Z :=
  let normalizedY := y peg / canvasHeight in
  Qfloor (normalizedY * inject_Z availableColors).

Definition radialGradient (peg : Peg) (availableColors levelNumber : Z) : Z :=
  let centerX := canvasWidth / 2 in
  let centerY := canvasHeight / 2 in
  let dx := x peg - centerX in
  let dy := y peg - centerY in
  let distance := Math_sqrt (dx * dx + dy * dy) in
  let maxDistance := Math_sqrt (centerX * centerX + centerY * centerY) in
  let normalizedDistance := distance / maxDistance in
  Qfloor (normalizedDistance * inject_Z availableColors).

Definition stripeGradient (peg : Peg) (availableColors levelNumber : Z) : Z :=
  let stripeSize := (40 + js_rem levelNumber 3 * 15)%Z in
  let stripeIndex := Qfloor (x peg / inject_Z stripeSize) in
  js_rem stripeIndex availableColors.

Definition simpleNoise (x y : Q) : Q :=
  let n := Math_sin (x * 12.9898 + y * 78.233) * 43758.5453 in
  n - inject_Z (Qfloor n).

Definition noiseGradient (peg : Peg) (availableColors levelNumber : Z) : Z :=
  let noiseScale := 0.01 + inject_Z levelNumber * 0.002 in
  let noiseValue := simpleNoise (x peg * noiseScale) (y peg * noiseScale) in
  Qfloor (noiseValue * inject_Z availableColors).

Definition spiralGradient (peg : Peg) (availableColors levelNumber : Z) : Z :=
  let centerX := canvasWidth / 2 in
  let centerY := canvasHeight / 2 in
  let dx := x peg - centerX in
  let dy := y peg - centerY in
  let angle := Math_atan2 dy dx in
  let distance := Math_sqrt (dx * dx + dy * dy) in
  let spiralValue :=
    (angle + distance * 0.01 * inject_Z levelNumber) / (Math_PI * 2) in
  Qfloor (js_fmod spiralValue 1 * inject_Z availableColors).

Definition patternGradient (peg : Peg) (availableColors levelNumber : Z) : Z :=
  let cellSize := (100 - levelNumber * 2)%Z in
  let cellX := Qfloor (x peg / inject_Z cellSize) in
  let cellY := Qfloor (y peg / inject_Z cellSize) in
  let hash := hashFunction cellX cellY levelNumber in
  js_rem hash availableColors.

Definition Gradient : Type := Peg -> Z -> Z -> Z.

Definition gradientTypes : list Gradient :=
  [ horizontalGradient; verticalGradient; radialGradient; stripeGradient;
    noiseGradient; spiralGradient; patternGradient ].

(** [gradientTypes[k]]: [None] stands for [undefined], which cannot be
    called. *)
Definition gradientAt (k : Z) : option Gradient :=
  if (k <? 0)%Z then None else nth_error gradientTypes (Z.to_nat k).

(** The callback of [pegs.map] in [blendColorGradients].  [levelNumber % 3]
    is 0, 1 or 2 for the levels above 6 that reach this function. *)
Definition blendPeg (gradientFunc1 gradientFunc2 : Gradient) (blendFactor : Q)
    (availableColors levelNumber : Z) (peg : Peg) : Rand Peg :=
  let color1 := gradientFunc1 peg availableColors levelNumber in
  let color2 := gradientFunc2 peg availableColors levelNumber in
  let blendType := js_rem levelNumber 3 in
  finalColor <-
    (if (blendType =? 0)%Z then
       ret (if (js_rem (Qfloor (x peg / 50) + Qfloor (y peg / 50)) 2 =? 0)%Z
            then color1 else color2)
     else if (blendType =? 1)%Z then
       let distanceFromCenter :=
         Math_sqrt (Math_pow (x peg - canvasWidth / 2) 2
                    + Math_pow (y peg - canvasHeight / 2) 2) in
       let normalizedDistance :=
         distanceFromCenter
         / Math_sqrt (Math_pow (canvasWidth / 2) 2
                      + Math_pow (canvasHeight / 2) 2) in
       ret (if Qltb normalizedDistance blendFactor then color1 else color2)
     else
       r <- Math_random ;;
       ret (if Qltb r blendFactor then color1 else color2)) ;;
  ret (withColor peg finalColor).

Definition blendColorGradients (pegs : list Peg)
    (gradientFunc1 gradientFunc2 : option Gradient)
    (availableColors levelNumber : Z) : Rand (option (list Peg)) :=
  r <- Math_random ;;
  let blendFactor := 0.5 + (r * 0.4 - 0.2) in
  match pegs, gradientFunc1, gradientFunc2 with
  | [], _, _ => ret (Some [])
  | _, Some f1, Some f2 =>
      out <- mapM (blendPeg f1 f2 blendFactor availableColors levelNumber) pegs ;;
      ret (Some out)
  | _, _, _ => ret None
  end.

(** [pegs.map(peg => ({ ...peg, colorIndex: gradient(peg, ...) }))]: the
    callback runs once per peg, so an [undefined] gradient only throws when
    there is a peg. *)
Definition mapGradient (gradient : option Gradient) (pegs : list Peg)
    (availableColors levelNumber : Z) : option (list Peg) :=
  match pegs, gradient with
  | [], _ => Some []
  | _, Some gradient =>
      Some (map (fun peg =>
                   withColor peg (gradient peg availableColors levelNumber))
                pegs)
  | _, None => None
  end.

Definition applyColorGradient (pegs : list Peg)
    (availableColors levelNumber : Z) : Rand (option (list Peg)) :=
  let availableTypes := Z.min (len gradientTypes) (2 + levelNumber / 2) in
  r <- Math_random ;;
  let gradientType := js_rem (levelNumber + Qfloor (r * 3)) availableTypes in
  useBlendedGradient <-
    (if (levelNumber >? 6)%Z
     then r <- Math_random ;; ret (Qltb r 0.4)
     else ret false) ;;
  if (useBlendedGradient : bool) then
    r <- Math_random ;;
    let secondType :=
      js_rem (gradientType + 1 + Qfloor (r * inject_Z (availableTypes - 1)))
             availableTypes in
    blendColorGradients pegs (gradientAt gradientType) (gradientAt secondType)
      availableColors levelNumber
  else
    ret (mapGradient (gradientAt gradientType) pegs availableColors
           levelNumber).

(** ** balanceColors *)

Definition balanceColors (pegs : list Peg) (availableColors levelNumber : Z)
  : Rand (option (list Peg)) :=
  let balanced := clampColors pegs availableColors in
  colorPatterned <-?
    (if (levelNumber >? 3)%Z
     then applyColorGradient balanced availableColors levelNumber
     else ret (Some balanced)) ;;
  ret (Some (ensureMinimumColorCounts colorPatterned availableColors levelNumber)).

(** ** Edge filtering and the minimum-peg top-up *)

Definition edgeClear (minEdgeDistance : Q) (peg : Peg) : bool :=
  Qle_bool (horizontalMargin + minEdgeDistance) (x peg)
  && Qle_bool (x peg) (canvasWidth - horizontalMargin - minEdgeDistance)
  && Qle_bool minEdgeDistance (y peg)
  && Qle_bool (y peg) (canvasHeight - minEdgeDistance).

Definition removeEdgePegs (pegs : list Peg) (minEdgeDistance : Q) : list Peg :=
  filter (edgeClear minEdgeDistance) pegs.

(** The body of the [while] loop of [createFillerPegs], after
    [attempts++]. *)
Definition fillerAttempt (minX minY maxX maxY minDistance : Q)
    (existingPegs : list Peg) (availableColors : Z) (pegs : list Peg)
  : Rand (list Peg) :=
  rx <- Math_random ;;
  let x := minX + rx * (maxX - minX) in
  ry <- Math_random ;;
  let y := minY + ry * (maxY - minY) in
  let candidate := mkPeg x y 0 in
  let tooCloseToExisting :=
    existsb (fun peg => tooClose minDistance peg candidate) existingPegs in
  let tooCloseToAdded :=
    existsb (fun peg => tooClose minDistance peg candidate) pegs in
  if tooCloseToExisting || tooCloseToAdded then ret pegs
  else
    let colorCounts :=
      countAvailable availableColors
        (countAvailable availableColors zeroCounts existingPegs) pegs in
    let minColorIndex := leastUsedColor colorCounts availableColors in
    r <- Math_random ;;
    colorIndex <-
      (if Qltb r 0.7 then ret minColorIndex
       else r' <- Math_random ;;
            ret (Qfloor (r' * inject_Z availableColors))) ;;
    ret (pegs ++ [mkPeg x y colorIndex]).

(** [while (pegs.length < count && attempts < maxAttempts)], counted by the
    attempts that remain. *)
Fixpoint createFillerPegs_loop (remaining : nat)
    (minX minY maxX maxY minDistance : Q) (count : Z)
    (existingPegs : list Peg) (availableColors : Z) (pegs : list Peg)
  : Rand (list Peg) :=
  match remaining with
  | O => ret pegs
  | S remaining' =>
      if (len pegs <? count)%Z then
        pegs' <- fillerAttempt minX minY maxX maxY minDistance existingPegs
                   availableColors pegs ;;
        createFillerPegs_loop remaining' minX minY maxX maxY minDistance count
          existingPegs availableColors pegs'
      else ret pegs
  end.

Definition createFillerPegs (minX minY maxX maxY minDistance : Q) (count : Z)
    (existingPegs : list Peg) (availableColors : Z) : Rand (list Peg) :=
  let maxAttempts := (count * 20)%Z in
  createFillerPegs_loop (Z.to_nat maxAttempts) minX minY maxX maxY minDistance
    count existingPegs availableColors [].

(** [fuel] bounds the number of nested calls; [None] is a call chain that
    has not returned within it. *)
Fixpoint ensureMinimumPegs (fuel : nat) (pegs : list Peg) (minCount : Z)
    (pegSpacing : Q) (levelNumber availableColors : Z)
  : Rand (option (list Peg)) :=
  match fuel with
  | O => ret None
  | S fuel' =>
      if (len pegs >=? minCount)%Z then ret (Some pegs)
      else
        let playAreaTop := 120 in
        let playAreaBottom := canvasHeight - 80 in
        let pegsToAdd := (minCount - len pegs)%Z in
        let result := pegs in
        additionalPegs <-
          createFillerPegs horizontalMargin playAreaTop
            (canvasWidth - horizontalMargin) playAreaBottom
            (pegSpacing * 1.2) pegsToAdd result availableColors ;;
        let result := result ++ additionalPegs in
        let filteredPegs := removePegOverlaps result (pegSpacing * 0.8) in
        let filteredPegs := removeEdgePegs filteredPegs (pegRadius * 2) in
        if (len filteredPegs <? minCount)%Z && Qltb (pegRadius * 3) pegSpacing
        then
          let reducedSpacing := pegSpacing * 0.9 in
          ensureMinimumPegs fuel' filteredPegs minCount reducedSpacing
            levelNumber availableColors
        else ret (Some filteredPegs)
  end.

(** ** Pattern catalogue *)

(** The thirteen pattern methods of the class. *)
Inductive PatternMethod : Type :=
| createGridPattern_m | createCheckerboardPattern_m | createDiamondPattern_m
| createSpiralPattern_m | createTunnelPattern_m | createWavePattern_m
| createVortexPattern_m | createConcentricPattern_m | createZigzagPattern_m
| createHourglassPattern_m | createMazePattern_m | createRandomPattern_m
| createClusteredPattern_m.

(** Function values, compared by identity with [===].  [this.createX] is the
    method itself; [this.createX.bind(this)] is a new function object, which
    is not identical to the method it wraps. *)
Inductive FuncValue : Type :=
| Method (m : PatternMethod)
| BoundMethod (m : PatternMethod).

Definition PatternMethod_eqb (a b : PatternMethod) : bool :=
  match a, b with
  | createGridPattern_m, createGridPattern_m
  | createCheckerboardPattern_m, createCheckerboardPattern_m
  | createDiamondPattern_m, createDiamondPattern_m
  | createSpiralPattern_m, createSpiralPattern_m
  | createTunnelPattern_m, createTunnelPattern_m
  | createWavePattern_m, createWavePattern_m
  | createVortexPattern_m, createVortexPattern_m
  | createConcentricPattern_m, createConcentricPattern_m
  | createZigzagPattern_m, createZigzagPattern_m
  | createHourglassPattern_m, createHourglassPattern_m
  | createMazePattern_m, createMazePattern_m
  | createRandomPattern_m, createRandomPattern_m
  | createClusteredPattern_m, createClusteredPattern_m => true
  | _, _ => false
  end.

(** [patternFunc === this.createX]; [None] is [undefined]. *)
Definition isMethod (patternFunc : option FuncValue) (m : PatternMethod) : bool :=
  match patternFunc with
  | Some (Method m') => PatternMethod_eqb m' m
  | _ => false
  end.

(** [this.patterns]: every entry is [this.createX.bind(this)].  The keys are
    in insertion order. *)
Definition patternTable : list (string * FuncValue) :=
  [ ("grid", BoundMethod createGridPattern_m);
    ("checkerboard", BoundMethod createCheckerboardPattern_m);
    ("diamond", BoundMethod createDiamondPattern_m);
    ("spiral", BoundMethod createSpiralPattern_m);
    ("tunnel", BoundMethod createTunnelPattern_m);
    ("wave", BoundMethod createWavePattern_m);
    ("vortex", BoundMethod createVortexPattern_m);
    ("concentric", BoundMethod createConcentricPattern_m);
    ("zigzag", BoundMethod createZigzagPattern_m);
    ("hourglass", BoundMethod createHourglassPattern_m);
    ("maze", BoundMethod createMazePattern_m);
    ("random", BoundMethod createRandomPattern_m);
    ("clustered", BoundMethod createClusteredPattern_m) ]%string.

Fixpoint lookup {V} (table : list (string * V)) (key : string) : option V :=
  match table with
  | [] => None
  | (k, v) :: rest => if String.eqb k key then Some v else lookup rest key
  end.

(** [this.patterns[pattern]] *)
Definition patterns (pattern : string) : option FuncValue :=
  lookup patternTable pattern.

(** [this.patternDifficulty] *)
Definition patternDifficultyTable : list (string * Z) :=
  [ ("grid", 1); ("checkerboard", 2); ("random", 3); ("diamond", 4);
    ("wave", 5); ("clustered", 6); ("tunnel", 7); ("spiral", 8);
    ("vortex", 10); ("concentric", 6); ("zigzag", 7); ("hourglass", 8);
    ("maze", 9) ]%string%Z.

(** [this.patternDifficulty[pattern] || 5] *)
Definition patternDifficulty (pattern : string) : Z :=
  match lookup patternDifficultyTable pattern with
  | Some d => if (d =? 0)%Z then 5%Z else d
  | None => 5%Z
  end.

Definition selectPatternsByDifficulty (difficultyFactor : Z) : list string :=
  filter (fun pattern => (patternDifficulty pattern <=? difficultyFactor + 2)%Z)
         (map fst patternTable).

(** ** selectRandomPatternsForLevel *)

(** The pool [weightedPatterns]: each name repeated [weight] times. *)
Definition weightedPool (availablePatterns : list string) (levelNumber : Z)
  : list string :=
  flat_map
    (fun pattern =>
       let difficulty := patternDifficulty pattern in
       let weight :=
         if (levelNumber <=? 5)%Z then (10 - difficulty)%Z else difficulty in
       repeat pattern (Z.to_nat weight))
    availablePatterns.

(** [arr[index]]; a read outside the array yields [undefined], which as a
    key or in a comparison behaves like the name ["undefined"].
    [Math.random() < 1] keeps the indices computed below inside the array. *)
Definition nthName (arr : list string) (index : Z) : string :=
  if (index <? 0)%Z then "undefined"%string
  else nth (Z.to_nat index) arr "undefined"%string.

(** The loop [for (let i = 0; i < count; i++)] of
    [selectRandomPatternsForLevel], on the iterations that remain. *)
Fixpoint selectLoop (remaining : nat) (count : Z) (weightedPatterns : list string)
    (selected : list string) {struct remaining} : Rand (list string) :=
  match remaining with
  | O => ret selected
  | S remaining' =>
      match weightedPatterns with
      | [] => ret selected
      | _ =>
          r <- Math_random ;;
          let index := Qfloor (r * inject_Z (len weightedPatterns)) in
          let pattern := nthName weightedPatterns index in
          let selected := selected ++ [pattern] in
          let weightedPatterns :=
            if (len selected <? count - 1)%Z
            then filter (fun w => negb (String.eqb w pattern)) weightedPatterns
            else weightedPatterns in
          selectLoop remaining' count weightedPatterns selected
      end
  end.

Definition selectRandomPatternsForLevel (availablePatterns : list string)
    (count levelNumber : Z) : Rand (list string) :=
  selectLoop (Z.to_nat count) count
    (weightedPool availablePatterns levelNumber) [].

(** ** Pattern routines reached by [generateLevel] *)

(** [this.getAvailableColors(this.currentLevelNumber || 1)] *)
Definition currentColors (currentLevelNumber : Z) : Z :=
  getAvailableColors
    (if (currentLevelNumber =? 0)%Z then 1%Z else currentLevelNumber).

(** [Math.floor(Math.random() * availableColors)] *)
Definition randomColor (availableColors : Z) : Rand Z :=
  r <- Math_random ;; ret (Qfloor (r * inject_Z availableColors)).

(** The body of the inner loop of [createGridPattern]. *)
Definition gridCell (availableColors : Z) (startX startY pegSpacing density : Q)
    (row : Z) (pegs : list Peg) (col : Z) : Rand (list Peg) :=
  r <- Math_random ;;
  if Qltb density r then ret pegs
  else
    let x := startX + inject_Z col * pegSpacing in
    let y := startY + inject_Z row * pegSpacing in
    colorIndex <- randomColor availableColors ;;
    ret (pegs ++ [mkPeg x y colorIndex]).

Definition createGridPattern (currentLevelNumber : Z)
    (startX startY : Q) (columns rows : Z) (pegSpacing density : Q)
  : Rand (list Peg) :=
  let availableColors := currentColors currentLevelNumber in
  foldM
    (fun pegs row =>
       foldM (gridCell availableColors startX startY pegSpacing density row)
         (zupto 0 columns) pegs)
    (zupto 0 rows) [].

(** The body of the [while] loop of [createRandomPattern]. *)
Definition randomAttempt (minX minY maxX maxY minDistance : Q)
    (availableColors : Z) (pegs : list Peg) : Rand (list Peg) :=
  rx <- Math_random ;;
  let x := minX + rx * (maxX - minX) in
  ry <- Math_random ;;
  let y := minY + ry * (maxY - minY) in
  if existsb (fun peg => tooClose minDistance peg (mkPeg x y 0)) pegs
  then ret pegs
  else
    colorIndex <- randomColor availableColors ;;
    ret (pegs ++ [mkPeg x y colorIndex]).

Fixpoint createRandomPattern_loop (remaining : nat)
    (minX minY maxX maxY minDistance : Q) (count availableColors : Z)
    (pegs : list Peg) : Rand (list Peg) :=
  match remaining with
  | O => ret pegs
  | S remaining' =>
      if (len pegs <? count)%Z then
        pegs' <- randomAttempt minX minY maxX maxY minDistance
                   availableColors pegs ;;
        createRandomPattern_loop remaining' minX minY maxX maxY minDistance
          count availableColors pegs'
      else ret pegs
  end.

Definition createRandomPattern (currentLevelNumber : Z)
    (minX minY maxX maxY minDistance : Q) (count : Z) : Rand (list Peg) :=
  let availableColors := currentColors currentLevelNumber in
  let maxAttempts := (count * 10)%Z in
  createRandomPattern_loop (Z.to_nat maxAttempts) minX minY maxX maxY
    minDistance count availableColors [].

(** ** createSpiralPattern *)





(** ** createChallengeCluster *)

Definition createChallengeCluster (levelNumber : Z) (pegSpacing : Q)
  : Rand (list Peg) :=
  let availableColors := getAvailableColors levelNumber in
  let margin := 150 in
  rx <- Math_random ;;
  let x := margin + rx * (canvasWidth - 2 * margin) in
  ry <- Math_random ;;
  let y := margin + ry * (canvasHeight - 2 * margin) in
  let challengeType := js_rem levelNumber 4 in
  if (challengeType =? 0)%Z then
    let clusterSize := (5 + levelNumber / 3)%Z in
    let radius := pegSpacing * 2 in
    foldM
      (fun pegs i =>
         let angle := (inject_Z i / inject_Z clusterSize) * Math_PI * 2 in
         r <- Math_random ;;
         let distance := radius * r in
         ret (pegs ++ [mkPeg (x + Math_cos angle * distance)
                             (y + Math_sin angle * distance)
                             (js_rem i availableColors)]))
      (zupto 0 clusterSize) []
  else if (challengeType =? 1)%Z then
    let lineLength := (5 + levelNumber / 3)%Z in
    r <- Math_random ;;
    let angle := r * Math_PI in
    ret (map
           (fun i =>
              mkPeg (x + Math_cos angle * inject_Z i * pegSpacing * 0.8)
                    (y + Math_sin angle * inject_Z i * pegSpacing * 0.8)
                    (js_rem i availableColors))
           (zupto 0 lineLength))
  else if (challengeType =? 2)%Z then
    let gridSize := (2 + levelNumber / 4)%Z in
    ret (flat_map
           (fun row =>
              map
                (fun col =>
                   mkPeg (x + (inject_Z col - inject_Z gridSize / 2)
                              * pegSpacing * 0.8)
                         (y + (inject_Z row - inject_Z gridSize / 2)
                              * pegSpacing * 0.8)
                         (js_rem (row + col) availableColors))
                (zupto 0 gridSize))
           (zupto 0 gridSize))
  else if (challengeType =? 3)%Z then
    let spiralArms := (2 + levelNumber / 5)%Z in
    let pointsPerArm := (3 + levelNumber / 4)%Z in
    ret (flat_map
           (fun arm =>
              let armOffset :=
                (inject_Z arm * Math_PI * 2) / inject_Z spiralArms in
              map
                (fun i =>
                   let distance := inject_Z i * pegSpacing * 0.7 in
                   let angle := armOffset + inject_Z i * 0.4 in
                   mkPeg (x + Math_cos angle * distance)
                         (y + Math_sin angle * distance)
                         (js_rem (arm + i) availableColors))
                (zupto 0 pointsPerArm))
           (zupto 0 spiralArms))
  else ret [].

(** ** applyProceduralNoise *)

Definition applyProceduralNoise (pegs : list Peg) (levelNumber : Z)
    (pegSpacing : Q) : Rand (list Peg) :=
  if (levelNumber <=? 2)%Z then ret pegs
  else
    let positionNoiseFactor := Qmin 0.3 (0.05 + inject_Z levelNumber * 0.02) in
    let removalProbability := Qmin 0.3 (0.05 + inject_Z levelNumber * 0.01) in
    let maxDisplacement := pegSpacing * positionNoiseFactor in
    kept <- filterM (fun _ => r <- Math_random ;;
                              ret (Qltb removalProbability r)) pegs ;;
    mapM
      (fun peg =>
         r1 <- Math_random ;;
         let noiseX := (r1 * 2 - 1) * maxDisplacement in
         r2 <- Math_random ;;
         let noiseY := (r2 * 2 - 1) * maxDisplacement in
         ret (mkPeg (x peg + noiseX) (y peg + noiseY) (colorIndex peg)))
      kept.

(** ** Section composer *)

Definition area (s : section) : Q := width s * height s.

(** The index of the section chosen by the scan
    [if (area > largestArea) { largestArea = area; largestIndex = i }],
    started from [largestArea = 0], [largestIndex = 0]. *)
Definition largestIndex (sections : list section) : nat :=
  snd (fold_left
         (fun (st : Q * nat) (ia : nat * section) =>
            let (largestArea, largestIndex) := st in
            if Qltb largestArea (area (snd ia)) then (area (snd ia), fst ia)
            else st)
         (combine (seq 0 (List.length sections)) sections) (0, O)).

(** The same scan for the smallest area, started from [Infinity]
    (here [None]). *)
Definition smallestIndex (sections : list section) : nat :=
  snd (fold_left
         (fun (st : option Q * nat) (ia : nat * section) =>
            let (smallestArea, smallestIndex) := st in
            match smallestArea with
            | None => (Some (area (snd ia)), fst ia)
            | Some a =>
                if Qltb (area (snd ia)) a then (Some (area (snd ia)), fst ia)
                else st
            end)
         (combine (seq 0 (List.length sections)) sections) (None, O)).

(** One iteration of [while (sections.length < count)]: split the largest
    section along its longer side. *)
Definition splitLargest (sections : list section) : Rand (list section) :=
  let index := largestIndex sections in
  match nth_error sections index with
  | None => ret sections
  | Some s =>
      let splitVertical := Qltb (height s) (width s) in
      r <- Math_random ;;
      let gap := 20 in
      if splitVertical then
        let splitPosition := width s * (0.3 + r * 0.4) in
        let leftSection :=
          mkSection (sx s) (sy s) (splitPosition - gap / 2) (height s) None in
        let rightSection :=
          mkSection (sx s + splitPosition + gap / 2) (sy s)
                    (width s - splitPosition - gap / 2) (height s) None in
        ret (splice2 sections index leftSection rightSection)
      else
        let splitPosition := height s * (0.3 + r * 0.4) in
        let topSection :=
          mkSection (sx s) (sy s) (width s) (splitPosition - gap / 2) None in
        let bottomSection :=
          mkSection (sx s) (sy s + splitPosition + gap / 2) (width s)
                    (height s - splitPosition - gap / 2) None in
        ret (splice2 sections index topSection bottomSection)
  end.

Fixpoint iterM {S} (n : nat) (f : S -> Rand S) (s : S) : Rand S :=
  match n with
  | O => ret s
  | Datatypes.S n' => s' <- f s ;; iterM n' f s'
  end.

(** The rotation pass that ends [divideCanvasIntoSections]. *)
Definition maybeRotate (currentLevelNumber : Z) (playableWidth playAreaHeight : Q)
    (s : section) : Rand section :=
  let allowRotation :=
    (currentLevelNumber >? 5)%Z
    && Qltb (width s) (playableWidth * 0.6)
    && Qltb (height s) (playAreaHeight * 0.6) in
  if allowRotation then
    r <- Math_random ;;
    if Qltb r 0.3 then
      r' <- Math_random ;;
      let rotation := (r' * 30 - 15) * Math_PI / 180 in
      ret (mkSection (sx s) (sy s) (width s) (height s) (Some rotation))
    else ret s
  else ret s.

(** [None]: the call does not return (for a negative [count] the trimming
    loop of the organic division never ends). *)
Definition divideCanvasIntoSections (currentLevelNumber count : Z)
  : Rand (option (list section)) :=
  let playAreaTop := 120 in
  let playAreaBottom := canvasHeight - 80 in
  let playAreaHeight := playAreaBottom - playAreaTop in
  let playableWidth := canvasWidth - horizontalMargin * 2 in
  let startX := horizontalMargin in
  let jitterX := playableWidth * 0.1 in
  let jitterY := playAreaHeight * 0.1 in
  sections <-?
    (if (count =? 1)%Z then
       ret (Some [mkSection startX playAreaTop playableWidth playAreaHeight None])
     else if (count =? 2)%Z then
       r <- Math_random ;;
       let useVerticalSplit := Qltb 0.5 r in
       if useVerticalSplit then
         r1 <- Math_random ;;
         let dividerY :=
           playAreaTop + playAreaHeight / 2 + (r1 * jitterY * 2 - jitterY) in
         r2 <- Math_random ;;
         let gap := 30 + r2 * 20 in
         ret (Some
                [ mkSection startX playAreaTop playableWidth
                    (dividerY - playAreaTop - gap / 2) None;
                  mkSection startX (dividerY + gap / 2) playableWidth
                    (playAreaBottom - dividerY - gap / 2) None ])
       else
         r1 <- Math_random ;;
         let dividerX :=
           startX + playableWidth / 2 + (r1 * jitterX * 2 - jitterX) in
         r2 <- Math_random ;;
         let gap := 30 + r2 * 20 in
         ret (Some
                [ mkSection startX playAreaTop
                    (dividerX - startX - gap / 2) playAreaHeight None;
                  mkSection (dividerX + gap / 2) playAreaTop
                    (startX + playableWidth - dividerX - gap / 2)
                    playAreaHeight None ])
     else
       r <- Math_random ;;
       let divisionType := Qfloor (r * 3) in
       if (divisionType =? 0)%Z then
         let rows := ceilSqrt count in
         let cols := Qceiling (inject_Z count / inject_Z rows) in
         let baseWidth := playableWidth / inject_Z cols in
         let baseHeight := playAreaHeight / inject_Z rows in
         out <-
           foldM
             (fun sections i =>
                let row := (i / cols)%Z in
                let col := js_rem i cols in
                r1 <- Math_random ;;
                let xJitter := (r1 * jitterX * 2 - jitterX) * 0.5 in
                r2 <- Math_random ;;
                let yJitter := (r2 * jitterY * 2 - jitterY) * 0.5 in
                r3 <- Math_random ;;
                let widthJitter :=
                  Qmin (baseWidth * 0.2)
                       (r3 * baseWidth * 0.4 - baseWidth * 0.2) in
                r4 <- Math_random ;;
                let heightJitter :=
                  Qmin (baseHeight * 0.2)
                       (r4 * baseHeight * 0.4 - baseHeight * 0.2) in
                ret (sections ++
                       [mkSection (startX + inject_Z col * baseWidth + xJitter)
                          (playAreaTop + inject_Z row * baseHeight + yJitter)
                          (baseWidth * 0.9 + widthJitter)
                          (baseHeight * 0.9 + heightJitter) None]))
             (zupto 0 count) [] ;;
         ret (Some out)
       else if (divisionType =? 1)%Z then
         '(out, _, _) <-
           foldM
             (fun (st : list section * Q * Q) i =>
                let '(sections, currentX, remainingWidth) := st in
                let isLast := (i =? count - 1)%Z in
                let columnWidthBase :=
                  if isLast then remainingWidth
                  else remainingWidth / inject_Z (count - i) in
                let variation := if isLast then 0 else columnWidthBase * 0.3 in
                r1 <- Math_random ;;
                let columnWidth :=
                  columnWidthBase + (r1 * variation * 2 - variation) in
                ret (sections ++
                       [mkSection currentX playAreaTop columnWidth
                          playAreaHeight None],
                     currentX + columnWidth, remainingWidth - columnWidth))
             (zupto 0 count) ([], startX, playableWidth) ;;
         ret (Some out)
       else if (divisionType =? 2)%Z then
         let fullSection :=
           mkSection startX playAreaTop playableWidth playAreaHeight None in
         split <- iterM (Z.to_nat (count - 1)) splitLargest [fullSection] ;;
         if (count <? 0)%Z then ret None
         else
           ret (Some
                  (Nat.iter (Z.to_nat (len split - count))
                     (fun sections => splice1 sections (smallestIndex sections))
                     split))
       else ret (Some [])) ;;
  out <- mapM (maybeRotate currentLevelNumber playableWidth playAreaHeight)
           sections ;;
  ret (Some out).

Definition createOverlappingSections (currentLevelNumber count levelNumber : Z)
  : Rand (option (list section)) :=
  let playAreaTop := 120 in
  let playAreaBottom := canvasHeight - 80 in
  let playAreaHeight := playAreaBottom - playAreaTop in
  let playableWidth := canvasWidth - horizontalMargin * 2 in
  let startX := horizontalMargin in
  baseSections <-? divideCanvasIntoSections currentLevelNumber count ;;
  let overlapCount := Z.min 3 (levelNumber / 4) in
  out <-
    foldM
      (fun sections (_ : Z) =>
         r1 <- Math_random ;;
         let sectionWidth := playableWidth * (0.3 + r1 * 0.4) in
         r2 <- Math_random ;;
         let sectionHeight := playAreaHeight * (0.3 + r2 * 0.4) in
         r3 <- Math_random ;;
         let x := startX + r3 * (playableWidth - sectionWidth) in
         r4 <- Math_random ;;
         let y := playAreaTop + r4 * (playAreaHeight - sectionHeight) in
         ret (sections ++ [mkSection x y sectionWidth sectionHeight None]))
      (zupto 0 overlapCount) baseSections ;;
  ret (Some out).

(** ** generatePatternInSection *)

(** The call [patternFunc(...)] inside a branch guarded by
    [patternFunc === this.createX]: the method itself is called as a plain
    function.  Class bodies are strict code, so [this] is [undefined] in the
    callee, and every pattern method reads [this.getAvailableColors] before
    it produces anything: the call throws. *)
Definition callWithoutReceiver : option (list Peg) := None.

(** [section] is [None] when the caller read past the end of its array:
    reading [section.x] throws.  A function taken from [this.patterns] is a
    bound function, identical to none of the methods, so for it (as for
    [undefined]) no branch is taken and [pegs] stays empty. *)
Definition generatePatternInSection (patternFunc : option FuncValue)
    (sec : option section) (pegSpacing : Q) (levelNumber : Z)
  : option (list Peg) :=
  match sec with
  | None => None
  | Some sec =>
      let centerX := sx sec + width sec / 2 in
      let centerY := sy sec + height sec / 2 in
      let pegs :=
        if isMethod patternFunc createGridPattern_m
           || isMethod patternFunc createCheckerboardPattern_m
        then callWithoutReceiver
        else if isMethod patternFunc createDiamondPattern_m
        then callWithoutReceiver
        else if isMethod patternFunc createSpiralPattern_m
                || isMethod patternFunc createVortexPattern_m
        then callWithoutReceiver
        else if isMethod patternFunc createWavePattern_m
        then callWithoutReceiver
        else if isMethod patternFunc createTunnelPattern_m
        then callWithoutReceiver
        else if isMethod patternFunc createRandomPattern_m
        then callWithoutReceiver
        else if isMethod patternFunc createClusteredPattern_m
        then callWithoutReceiver
        else if isMethod patternFunc createConcentricPattern_m
        then callWithoutReceiver
        else if isMethod patternFunc createZigzagPattern_m
        then callWithoutReceiver
        else if isMethod patternFunc createHourglassPattern_m
        then callWithoutReceiver
        else if isMethod patternFunc createMazePattern_m
        then callWithoutReceiver
        else Some [] in
      match pegs, rotation sec with
      | Some pegs, Some rotation =>
          Some (map
                  (fun peg =>
                     let dx := x peg - centerX in
                     let dy := y peg - centerY in
                     let cos := Math_cos rotation in
                     let sin := Math_sin rotation in
                     let rotatedX := dx * cos - dy * sin in
                     let rotatedY := dx * sin + dy * cos in
                     mkPeg (centerX + rotatedX) (centerY + rotatedY)
                           (colorIndex peg))
                  pegs)
      | pegs, _ => pegs
      end
  end.

(** ** Level assembler *)

(** The loop [for (let i = 0; i < patternCount; i++)] of
    [generateProceduralLevel]. *)
Fixpoint patternLoop (indices : list Z) (sections : list section)
    (selectedPatterns : list string) (pegSpacing : Q) (levelNumber : Z)
    (pegs : list Peg) : Rand (option (list Peg)) :=
  match indices with
  | [] => ret (Some pegs)
  | i :: rest =>
      let sec := nth_error sections (Z.to_nat i) in
      let pattern := nthName selectedPatterns i in
      let patternFunc := patterns pattern in
      match generatePatternInSection patternFunc sec pegSpacing levelNumber with
      | None => ret None
      | Some patternPegs =>
          noisyPatternPegs <-
            applyProceduralNoise patternPegs levelNumber pegSpacing ;;
          patternLoop rest sections selectedPatterns pegSpacing levelNumber
            (pegs ++ noisyPatternPegs)
      end
  end.

Definition generateProceduralLevel (currentLevelNumber levelNumber : Z)
    (patternCount : Z) (availablePatterns : list string) (pegSpacing : Q)
  : Rand (option (list Peg)) :=
  sections <-?
    (if (levelNumber >? 7)%Z
     then createOverlappingSections currentLevelNumber patternCount levelNumber
     else divideCanvasIntoSections currentLevelNumber patternCount) ;;
  selectedPatterns <-
    selectRandomPatternsForLevel availablePatterns patternCount levelNumber ;;
  pegs <-?
    patternLoop (zupto 0 patternCount) sections selectedPatterns pegSpacing
      levelNumber [] ;;
  let randomPegCount := (10 + levelNumber / 2 * 5)%Z in
  randomPegs <-
    createRandomPattern currentLevelNumber horizontalMargin 150
      (canvasWidth - horizontalMargin) (canvasHeight - 150)
      (pegSpacing * 1.5) randomPegCount ;;
  let pegs := pegs ++ randomPegs in
  pegs <-
    (if (levelNumber >? 5)%Z then
       challengeCluster <- createChallengeCluster levelNumber (pegSpacing * 0.8) ;;
       ret (pegs ++ challengeCluster)
     else ret pegs) ;;
  let filteredPegs := removePegOverlaps pegs (pegSpacing * 0.8) in
  let filteredPegs := removeEdgePegs filteredPegs (pegRadius * 2) in
  ret (Some filteredPegs).

Definition generateSimpleLevel (currentLevelNumber levelNumber : Z)
    (pegSpacing : Q) (availablePatterns : list string) : Rand (list Peg) :=
  let centerX := canvasWidth / 2 in
  let playableWidth := canvasWidth - horizontalMargin * 2 in
  let gridCols := Qfloor (playableWidth / pegSpacing) in
  let gridRows := 6%Z in
  let actualGridWidth := inject_Z gridCols * pegSpacing in
  let centeredGridStartX := centerX - actualGridWidth / 2 in
  let density := 0.8 in
  createGridPattern currentLevelNumber centeredGridStartX 180 gridCols gridRows
    pegSpacing density.

Definition generateIntermediateLevel (currentLevelNumber levelNumber : Z)
    (pegSpacing : Q) (availablePatterns : list string)
  : Rand (option (list Peg)) :=
  let simplePatterns :=
    filter (fun pattern => existsb (String.eqb pattern) availablePatterns)
           ["grid"; "checkerboard"; "diamond"]%string in
  let simplePatterns :=
    if (len simplePatterns <? 2)%Z then simplePatterns ++ ["random"%string]
    else simplePatterns in
  let pattern1 := nthName simplePatterns 0 in
  let pattern2 :=
    nthName simplePatterns (if (len simplePatterns >? 1)%Z then 1 else 0) in
  sections <-? divideCanvasIntoSections currentLevelNumber 2 ;;
  let pattern1Func := patterns pattern1 in
  match generatePatternInSection pattern1Func (nth_error sections 0)
          pegSpacing levelNumber with
  | None => ret None
  | Some pattern1Pegs =>
      let pattern2Func := patterns pattern2 in
      match generatePatternInSection pattern2Func (nth_error sections 1)
              pegSpacing levelNumber with
      | None => ret None
      | Some pattern2Pegs => ret (Some (pattern1Pegs ++ pattern2Pegs))
      end
  end.

(** The loop that draws [selectedPatterns] in [generateAdvancedLevel]. *)
Fixpoint advancedPick (remaining : nat) (patterns selectedPatterns : list string)
  : Rand (list string) :=
  match remaining with
  | O => ret selectedPatterns
  | Datatypes.S remaining' =>
      if (len patterns >? 0)%Z then
        r <- Math_random ;;
        let index := Qfloor (r * inject_Z (len patterns)) in
        advancedPick remaining' (splice1 patterns (Z.to_nat index))
          (selectedPatterns ++ [nthName patterns index])
      else advancedPick remaining' patterns selectedPatterns
  end.

Definition generateAdvancedLevel (currentLevelNumber levelNumber : Z)
    (pegSpacing : Q) (availablePatterns : list string)
  : Rand (option (list Peg)) :=
  r <- Math_random ;;
  let patternCount := (2 + (if Qltb 0.5 r then 1 else 0))%Z in
  let mediumPatterns :=
    filter
      (fun pattern =>
         let difficulty := patternDifficulty pattern in
         (difficulty >=? 2)%Z && (difficulty <=? 6)%Z)
      availablePatterns in
  let patterns :=
    if (len mediumPatterns >=? patternCount)%Z then mediumPatterns
    else availablePatterns in
  selectedPatterns <- advancedPick (Z.to_nat patternCount) patterns [] ;;
  generateProceduralLevel currentLevelNumber levelNumber (len selectedPatterns)
    selectedPatterns pegSpacing.

(** [pegSpacing] as computed at the top of [generateLevel]. *)
Definition levelSpacing (levelNumber : Z) : Q :=
  Qmax (minPegSpacing - inject_Z levelNumber * 1.8) (pegRadius * 2.3).

(** The [if] chain of [generateLevel] that produces the layout [pegs]. *)
Definition levelLayout (levelNumber : Z) : Rand (option (list Peg)) :=
  let currentLevelNumber := levelNumber in
  let difficultyFactor := Z.min 10 (levelNumber / 2 + 1) in
  let pegSpacing := levelSpacing levelNumber in
  let patternCount := Z.min maxPatterns (1 + levelNumber / 2) in
  let availablePatterns := selectPatternsByDifficulty difficultyFactor in
  if (levelNumber =? 1)%Z then
    pegs <- generateSimpleLevel currentLevelNumber levelNumber pegSpacing
              availablePatterns ;;
    ret (Some pegs)
  else if (levelNumber =? 2)%Z then
    generateIntermediateLevel currentLevelNumber levelNumber pegSpacing
      availablePatterns
  else if (levelNumber =? 3)%Z then
    generateAdvancedLevel currentLevelNumber levelNumber pegSpacing
      availablePatterns
  else
    generateProceduralLevel currentLevelNumber levelNumber patternCount
      availablePatterns pegSpacing.

(** The top-up step of [generateLevel]. *)
Definition topUp (fuel : nat) (levelNumber : Z) (pegs : list Peg)
  : Rand (option (list Peg)) :=
  if (len pegs <? getMinimumPegCount levelNumber)%Z then
    ensureMinimumPegs fuel pegs (getMinimumPegCount levelNumber)
      (levelSpacing levelNumber) levelNumber (getAvailableColors levelNumber)
  else ret (Some pegs).

Definition generateLevel (fuel : nat) (levelNumber : Z)
  : Rand (option (list Peg)) :=
  pegs <-? levelLayout levelNumber ;;
  pegs <-? topUp fuel levelNumber pegs ;;
  balanceColors pegs (getAvailableColors levelNumber) levelNumber.

(** ** Vocabulary of the statements *)

(** The position of a peg. *)
Definition pos (p : Peg) : Q * Q := (x p, y p).

(** No peg of the list is closer than [d] to a peg after it. *)
Definition separated (d : Q) (pegs : list Peg) : Prop :=
  ForallOrdPairs (fun a b => tooClose d a b = false) pegs.

(** The four inequalities tested by [removeEdgePegs]. *)
Definition edgeClearance (minEdgeDistance : Q) (peg : Peg) : Prop :=
  horizontalMargin + minEdgeDistance <= x peg /\
  x peg <= canvasWidth - horizontalMargin - minEdgeDistance /\
  minEdgeDistance <= y peg /\
  y peg <= canvasHeight - minEdgeDistance.

(** The spacing after [k] reductions by 10%. *)
Fixpoint reducedSpacing (k : nat) (pegSpacing : Q) : Q :=
  match k with
  | O => pegSpacing
  | Datatypes.S k' => reducedSpacing k' (pegSpacing * 0.9)
  end.

(** The number of pegs of colour [c]. *)
Definition countColor (c : Z) (pegs : list Peg) : Z :=
  len (filter (fun peg => (colorIndex peg =? c)%Z) pegs).

(** A threshold inside the clamp interval. *)
Definition inBounds (v : Q) : Prop := 0.20 <= v <= 0.85.

(** Every draw of the oracle is a value of [Math.random()]. *)
Definition unitInterval (r : nat -> Q) : Prop := forall k, 0 <= r k < 1.

(** [peg] sits on the lattice point of row [r] and column [c]. *)
Definition atCell (startX startY pegSpacing : Q) (r c : Z) (peg : Peg) : Prop :=
  x peg = startX + inject_Z c * pegSpacing /\
  y peg = startY + inject_Z r * pegSpacing.

(** [peg] sits on a lattice point visited before row [row], column [col]. *)
Definition beforeCell (startX startY pegSpacing : Q) (row col : Z) (peg : Peg)
  : Prop :=
  exists r c, atCell startX startY pegSpacing r c peg /\
              ((r < row)%Z \/ (r = row /\ c < col)%Z).

(** The invariant of the two loops of [createGridPattern]. *)
Definition gridInv (startX startY p : Q) (row col : Z) (pegs : list Peg) : Prop :=
  separated (p * 0.8) pegs /\ Forall (beforeCell startX startY p row col) pegs.

(** The number of pegs whose colour satisfies [P]. *)
Definition classCount (P : Z -> bool) (pegs : list Peg) : Z :=
  len (filter (fun peg => P (colorIndex peg)) pegs).

(** A colour that the "convert any pegs" loops never take from: cyan on
    level 3. *)
Definition protectedColor (levelNumber c : Z) : bool :=
  (levelNumber =? 3)%Z && (c =? 5)%Z.

(** [colorCounts] holds the number of pegs of every colour. *)
Definition exactCounts (colorCounts : Counts) (pegs : list Peg) : Prop :=
  forall c, colorCounts c = countColor c pegs.

(** A stream of draws for level 10: 0.9 throughout, except that the draws
    3561 to 3563 place one filler peg at (400, 324). *)
Definition spiralOracle (k : nat) : Q :=
  if Nat.eqb k 3561 then 1 # 2
  else if Nat.eqb k 3562 then 34 # 75
  else if Nat.eqb k 3563 then 0
  else 0.9.

(** What a conversion loop does to one peg: it keeps it, or gives it the
    colour being raised when its own colour is a donor. *)
Definition keptOrRecolored (donor : Z -> bool) (color : Z) (p q : Peg) : Prop :=
  q = p \/ (donor (colorIndex p) = true /\ q = withColor p color).

(** What the clamp stage of [balanceColors] does to one peg. *)
Definition clamped (availableColors : Z) (p q : Peg) : Prop :=
  if (colorIndex p >=? availableColors)%Z
  then pos q = pos p /\ (0 <= colorIndex q < availableColors)%Z
  else q = p.

(** [peg] lies in the rectangle given by two corners. *)
Definition inRectangle (minX minY maxX maxY : Q) (peg : Peg) : Prop :=
  (minX <= x peg /\ x peg <= maxX) /\ (minY <= y peg /\ y peg <= maxY).

(** [peg] is not closer than [d] to any of the [existing] pegs. *)
Definition clearOf (d : Q) (existing : list Peg) (peg : Peg) : Prop :=
  Forall (fun e => tooClose d e peg = false) existing.

(** [peg] sits on a lattice point of the grid of [rows] by [columns]. *)
Definition onGrid (startX startY pegSpacing : Q) (rows columns : Z) (peg : Peg)
  : Prop :=
  exists r c, (0 <= r < rows)%Z /\ (0 <= c < columns)%Z /\
              atCell startX startY pegSpacing r c peg.

(** The colour of [peg] is one of the available ones. *)
Definition colorInRange (availableColors : Z) (peg : Peg) : Prop :=
  (0 <= colorIndex peg < availableColors)%Z.

(** Two sections have the same rectangle; only [rotation] may differ. *)
Definition sameRectangle (s s' : section) : Prop :=
  sx s' = sx s /\ sy s' = sy s /\ width s' = width s /\ height s' = height s.

(** [s] lies in the play area: between the horizontal margins, below the
    launcher strip and above the bucket strip. *)
Definition inPlayArea (s : section) : Prop :=
  (horizontalMargin <= sx s /\
   sx s + width s <= canvasWidth - horizontalMargin) /\
  (120 <= sy s /\ sy s + height s <= canvasHeight - 80).

(** ** game.js: the colour table, the shop and the completion test *)

(** [getAvailableColorsForLevel(level)], the copy of the colour table kept
    by the game. *)
Definition getAvailableColorsForLevel (level : Z) : Z :=
  if (level <=? 2)%Z then 4%Z
  else if (level >=? 3)%Z && (level <=? 10)%Z then 6%Z
  else if (level >=? 11)%Z then 8%Z
  else 4%Z.

Definition ballCost : Z := 100.

(** The globals of game.js read or written by [purchaseBalls] and
    [checkLevelCompletion].  [shopScheduled] records that the timer which
    opens the shop has been set. *)
Record Game : Type := mkGame {
  score : Z;
  currency : Z;
  totalRunBalls : Z;
  ballsRemaining : Z;
  currentLevel : Z;
  levelCompleted : bool;
  shopScheduled : bool;
  pegCountsByColor : list Z;
  hitPegCountsByColor : list Z;
  colorThresholds : list Q
}.

(** [purchaseBalls(count)]: the returned flag and the new globals. *)
Definition purchaseBalls (count : Z) (g : Game) : bool * Game :=
  if (currency g >=? ballCost * count)%Z then
    let maxBallsToAdd := Z.min count (10 - totalRunBalls g) in
    if (maxBallsToAdd <=? 0)%Z then (false, g)
    else
      (true,
       mkGame (score g) (currency g - ballCost * maxBallsToAdd)
         (totalRunBalls g + maxBallsToAdd) (ballsRemaining g + maxBallsToAdd)
         (currentLevel g) (levelCompleted g) (shopScheduled g)
         (pegCountsByColor g) (hitPegCountsByColor g) (colorThresholds g))
  else (false, g).

(** [pegCountsByColor[i] > 0 ? hitPegCountsByColor[i] / pegCountsByColor[i] : 1] *)
Definition colorHitPercentage (g : Game) (i : nat) : Q :=
  if (0 <? nth i (pegCountsByColor g) 0%Z)%Z
  then inject_Z (nth i (hitPegCountsByColor g) 0%Z)
       / inject_Z (nth i (pegCountsByColor g) 0%Z)
  else 1.

(** [colorHitPercentage < colorThresholds[i]]; the comparison with the
    [undefined] read past the end of the array is false. *)
Definition belowThreshold (g : Game) (i : nat) : bool :=
  match nth_error (colorThresholds g) i with
  | Some threshold => Qltb (colorHitPercentage g i) threshold
  | None => false
  end.

(** The loop over the eight colours with its [break]. *)
Definition allColorsHitThreshold (g : Game) : bool :=
  forallb (fun i => negb (belowThreshold g i)) (seq 0 8).

Definition checkLevelCompletion (g : Game) : Game :=
  if levelCompleted g then g
  else if allColorsHitThreshold g then
    let levelBonus := (500 + currentLevel g * 50)%Z in
    let newScore := (score g + levelBonus)%Z in
    mkGame newScore (currency g + newScore) (totalRunBalls g) (ballsRemaining g)
      (currentLevel g) true true
      (pegCountsByColor g) (hitPegCountsByColor g) (colorThresholds g)
  else g.

(** ** Pattern routines not reached by [generateLevel] *)

(** The body of the inner loop of [createCheckerboardPattern]:
    [Math.random()] is only called on the cells with [(row + col) % 2 === 0]. *)
Definition checkerboardCell (availableColors : Z)
    (startX startY pegSpacing density : Q) (row : Z) (pegs : list Peg)
    (col : Z) : Rand (list Peg) :=
  if (js_rem (row + col) 2 =? 0)%Z then
    r <- Math_random ;;
    if Qle_bool r density then
      let x := startX + inject_Z col * pegSpacing in
      let y := startY + inject_Z row * pegSpacing in
      colorIndex <- randomColor availableColors ;;
      ret (pegs ++ [mkPeg x y colorIndex])
    else ret pegs
  else ret pegs.

Definition createCheckerboardPattern (currentLevelNumber : Z)
    (startX startY : Q) (columns rows : Z) (pegSpacing density : Q)
  : Rand (list Peg) :=
  let availableColors := currentColors currentLevelNumber in
  foldM
    (fun pegs row =>
       foldM (checkerboardCell availableColors startX startY pegSpacing density
                row)
         (zupto 0 columns) pegs)
    (zupto 0 rows) [].



(** [peg] sits on a lattice point of the grid whose row and column add up to
    an even number. *)
Definition onEvenCell (startX startY pegSpacing : Q) (rows columns : Z)
    (peg : Peg) : Prop :=
  exists r c, (0 <= r < rows)%Z /\ (0 <= c < columns)%Z /\
              Z.even (r + c) = true /\
              atCell startX startY pegSpacing r c peg.

(** [peg] sits on such a point visited before row [row], column [col]. *)
Definition evenCellBefore (startX startY pegSpacing : Q) (row col : Z)
    (peg : Peg) : Prop :=
  exists r c, atCell startX startY pegSpacing r c peg /\
              Z.even (r + c) = true /\
              ((r < row)%Z \/ (r = row /\ c < col)%Z).

(** The invariant of the two loops of [createCheckerboardPattern]. *)
Definition checkerInv (startX startY p : Q) (row col : Z) (pegs : list Peg)
  : Prop :=
  separated (p * 1.4) pegs /\
  Forall (evenCellBefore startX startY p row col) pegs.




(** * Properties *)

Ltac lra := Lqa.lra.
Ltac nra := Lqa.nra.

Set Default Proof Using "Type".

(** ** Arithmetic helpers *)

Lemma Qltb_true a b : Qltb a b = true <-> a < b.
Proof.
  unfold Qltb. rewrite negb_true_iff. split; intro H.
  - apply Qnot_le_lt. intro Hle. apply Qle_bool_iff in Hle. congruence.
  - destruct (Qle_bool b a) eqn:E; auto. apply Qle_bool_iff in E.
    exfalso. apply (Qlt_not_le _ _ H E).
Qed.

Lemma Qltb_false a b : Qltb a b = false <-> b <= a.
Proof. unfold Qltb. rewrite negb_false_iff. apply Qle_bool_iff. Qed.

Lemma Qle_bool_false a b : Qle_bool a b = false <-> b < a.
Proof.
  split; intro H.
  - apply Qnot_le_lt. intro Hle. apply Qle_bool_iff in Hle. congruence.
  - destruct (Qle_bool a b) eqn:E; auto. apply Qle_bool_iff in E.
    exfalso. apply (Qlt_not_le _ _ H E).
Qed.

Lemma Qmin_spec a b : (a <= b /\ Qmin a b = a) \/ (b < a /\ Qmin a b = b).
Proof.
  unfold Qmin. destruct (Qle_bool a b) eqn:E.
  - left. split; auto. now apply Qle_bool_iff.
  - right. split; auto. now apply Qle_bool_false.
Qed.

Lemma Qmax_spec a b : (a <= b /\ Qmax a b = b) \/ (b < a /\ Qmax a b = a).
Proof.
  unfold Qmax. destruct (Qle_bool a b) eqn:E.
  - left. split; auto. now apply Qle_bool_iff.
  - right. split; auto. now apply Qle_bool_false.
Qed.

Lemma inject_Z_le a b : (a <= b)%Z -> inject_Z a <= inject_Z b.
Proof. intro. now rewrite <- Zle_Qle. Qed.

Lemma inject_Z_lt a b : (a < b)%Z -> inject_Z a < inject_Z b.
Proof. intro. now rewrite <- Zlt_Qlt. Qed.



Lemma in_zrange i lo n : In i (zrange lo n) <-> (lo <= i < lo + Z.of_nat n)%Z.
Proof.
  revert lo; induction n; intros lo; simpl.
  - lia.
  - rewrite IHn. lia.
Qed.

Lemma in_zupto i lo hi : In i (zupto lo hi) <-> (lo <= i < hi)%Z.
Proof. unfold zupto. rewrite in_zrange. lia. Qed.

Lemma len_app {A} (l l' : list A) : len (l ++ l') = (len l + len l')%Z.
Proof. unfold len. rewrite length_app. lia. Qed.

Lemma len_nonneg {A} (l : list A) : (0 <= len l)%Z.
Proof. unfold len. lia. Qed.

(** ** getAvailableColors *)

(** C6. [getAvailableColors] is the step function: 4 for levels 1 and 2,
    6 for levels 3 to 10, 8 from level 11 on; its result is always one of
    4, 6 and 8. *)
Theorem getAvailableColors_step_function (levelNumber : Z) :
  (1 <= levelNumber)%Z ->
  ((levelNumber <= 2)%Z -> getAvailableColors levelNumber = 4%Z) /\
  ((3 <= levelNumber <= 10)%Z -> getAvailableColors levelNumber = 6%Z) /\
  ((11 <= levelNumber)%Z -> getAvailableColors levelNumber = 8%Z) /\
  (getAvailableColors levelNumber = 4%Z \/ getAvailableColors levelNumber = 6%Z
   \/ getAvailableColors levelNumber = 8%Z).
Proof.
  intro H1. unfold getAvailableColors, colorProgression. simpl.
  destruct (levelNumber >=? 1)%Z eqn:E1; [|lia].
  destruct (levelNumber >=? 3)%Z eqn:E3;
    [destruct (levelNumber >=? 11)%Z eqn:E11|];
    repeat split; intros; try lia; auto.
Qed.

Lemma getAvailableColors_cases L :
  (getAvailableColors L = 4 \/ getAvailableColors L = 6 \/ getAvailableColors L = 8)%Z.
Proof.
  unfold getAvailableColors, colorProgression. simpl.
  destruct (L >=? 1)%Z; auto.
  destruct (L >=? 3)%Z; auto.
  destruct (L >=? 11)%Z; auto.
Qed.

(** ** getColorThresholds *)




Lemma clamp_inBounds v : inBounds (Qmin 0.85 (Qmax 0.2 v)).
Proof.
  unfold inBounds.
  destruct (Qmax_spec 0.2 v) as [[? ->]|[? ->]];
  [destruct (Qmin_spec 0.85 v) as [[? ->]|[? ->]]
  |destruct (Qmin_spec 0.85 0.2) as [[? ->]|[? ->]]]; lra.
Qed.

Lemma length_setNth {A} (l : list A) i v :
  List.length (setNth l i v) = List.length l.
Proof. revert i; induction l; intros [|i]; simpl; auto. Qed.

Lemma nth_setNth_same {A} (l : list A) i v d :
  (i < List.length l)%nat -> nth i (setNth l i v) d = v.
Proof.
  revert i; induction l; intros [|i]; simpl; intros; try lia; auto.
  apply IHl. lia.
Qed.

Lemma nth_setNth_other {A} (l : list A) i j v d :
  i <> j -> nth j (setNth l i v) d = nth j l d.
Proof.
  revert i j; induction l; intros [|i] [|j]; simpl; intros; try lia; auto.
Qed.

Lemma thresholdStep_spec L avail th i n :
  exists v, inBounds v /\
    fst (thresholdStep L avail th i n) = setNth th (Z.to_nat i) v.
Proof.
  unfold thresholdStep, bind, ret, Math_random.
  destruct (L >? 3)%Z; simpl; eexists;
    (split; [apply clamp_inBounds | reflexivity]).
Qed.

Lemma foldM_thresholds L avail (idxs : list Z) :
  forall th n,
    (forall i, In i idxs -> (0 <= i)%Z) ->
    let th' := fst (foldM (thresholdStep L avail) idxs th n) in
    List.length th' = List.length th /\
    forall j, (j < List.length th)%nat ->
      (In (Z.of_nat j) idxs -> inBounds (nth j th' 0)) /\
      (~ In (Z.of_nat j) idxs -> nth j th' 0 = nth j th 0).
Proof.
  induction idxs as [|i idxs IH]; intros th n Hpos; simpl.
  - split; auto. intros j Hj; split; [intros []|auto].
  - unfold bind.
    destruct (thresholdStep_spec L avail th i n) as (v & Hv & E).
    destruct (thresholdStep L avail th i n) as [th1 n1] eqn:E1.
    simpl in E. subst th1.
    specialize (IH (setNth th (Z.to_nat i) v) n1
                  (fun k Hk => Hpos k (or_intror Hk))).
    simpl in IH. destruct IH as [IHlen IH].
    rewrite length_setNth in IHlen, IH.
    split; [exact IHlen|].
    intros j Hj. specialize (IH j Hj). destruct IH as [IHin IHout].
    assert (Hi : (0 <= i)%Z) by (apply Hpos; now left).
    split.
    + intros [Hij|Hin].
      * destruct (in_dec Z.eq_dec (Z.of_nat j) idxs) as [Hin'|Hnin]; [auto|].
        rewrite (IHout Hnin). subst i. rewrite Nat2Z.id.
        rewrite nth_setNth_same by exact Hj. exact Hv.
      * auto.
    + intros Hnin. rewrite IHout by (intro; apply Hnin; now right).
      apply nth_setNth_other. intro Heq. apply Hnin. left. lia.
Qed.


(** ** Colour balancing leaves the positions alone *)

Lemma pos_wrapColor a p : pos (wrapColor a p) = pos p.
Proof. unfold wrapColor. destruct (colorIndex p >=? a)%Z; reflexivity. Qed.

Lemma convertPegs_pos donor color needed pegs :
  forall converted cc,
    map pos (fst (fst (convertPegs donor color needed converted cc pegs)))
    = map pos pegs.
Proof.
  induction pegs as [|peg rest IH]; intros converted cc; simpl; auto.
  destruct (converted <? needed)%Z; [|reflexivity].
  destruct (donor (colorIndex peg)).
  - specialize (IH (converted + 1)%Z (incr (decr cc (colorIndex peg)) color)).
    destruct (convertPegs donor color needed (converted + 1)
                (incr (decr cc (colorIndex peg)) color) rest) as [[r c] k].
    simpl in *. now rewrite IH.
  - specialize (IH converted cc).
    destruct (convertPegs donor color needed converted cc rest) as [[r c] k].
    simpl in *. now rewrite IH.
Qed.

Lemma ensureColor_pos L a st color :
  map pos (fst (ensureColor L a st color)) = map pos (fst st).
Proof.
  destruct st as [pegs cc]. unfold ensureColor.
  destruct (color >=? a)%Z; [reflexivity|].
  destruct (cc color <? adjustedMinimum L color)%Z; [|reflexivity].
  destruct (excessColors L a color cc) as [|e es].
  - pose proof (convertPegs_pos (anyDonor L color) color
                  (adjustedMinimum L color - cc color) pegs 0%Z cc) as H.
    destruct (convertPegs (anyDonor L color) color _ 0%Z cc pegs)
      as [[p1 c1] k1].
    exact H.
  - pose proof (convertPegs_pos (fun c => existsb (Z.eqb c) (e :: es)) color
                  (adjustedMinimum L color - cc color) pegs 0%Z cc) as H.
    destruct (convertPegs (fun c => existsb (Z.eqb c) (e :: es)) color _ 0%Z
                cc pegs) as [[p1 c1] k1].
    simpl in H.
    destruct (k1 <? adjustedMinimum L color - cc color)%Z; [|exact H].
    pose proof (convertPegs_pos (anyDonor L color) color
                  (adjustedMinimum L color - cc color) p1 k1 c1) as H2.
    destruct (convertPegs (anyDonor L color) color _ k1 c1 p1)
      as [[p2 c2] k2].
    simpl in *. congruence.
Qed.

Lemma fold_ensureColor_pos L a colors :
  forall st,
    map pos (fst (fold_left (ensureColor L a) colors st)) = map pos (fst st).
Proof.
  induction colors as [|c cs IH]; intros st; simpl; auto.
  rewrite IH. apply ensureColor_pos.
Qed.

Lemma map_pos_wrap a pegs : map pos (map (wrapColor a) pegs) = map pos pegs.
Proof. rewrite map_map. apply map_ext. intro. apply pos_wrapColor. Qed.

Lemma ensureMinimumColorCounts_pos pegs a L :
  map pos (ensureMinimumColorCounts pegs a L) = map pos pegs.
Proof.
  unfold ensureMinimumColorCounts.
  pose proof (fold_ensureColor_pos L a (colorOrder L a)
    (map (wrapColor a) pegs,
     fold_left (fun cc peg => incr cc (colorIndex peg))
       (map (wrapColor a) pegs) zeroCounts)) as H.
  destruct (fold_left (ensureColor L a) (colorOrder L a) _) as [bp cc].
  simpl in H. rewrite map_pos_wrap, H. apply map_pos_wrap.
Qed.

Lemma clampColors_fold_pos a pegs :
  forall cc acc,
    map pos (snd (fold_left (clampPeg a) pegs (cc, acc)))
    = map pos acc ++ map pos pegs.
Proof.
  induction pegs as [|peg rest IH]; intros cc acc.
  - simpl. now rewrite app_nil_r.
  - cbn [fold_left].
    destruct (clampPeg a (cc, acc) peg) as [cc' acc'] eqn:E.
    rewrite IH. unfold clampPeg in E.
    destruct (colorIndex peg >=? a)%Z; inversion E; subst;
      rewrite map_app; simpl; rewrite <- app_assoc; reflexivity.
Qed.

Lemma clampColors_pos pegs a : map pos (clampColors pegs a) = map pos pegs.
Proof. unfold clampColors. now rewrite clampColors_fold_pos. Qed.

Lemma blendPeg_pos f1 f2 bf a L peg n :
  pos (fst (blendPeg f1 f2 bf a L peg n)) = pos peg.
Proof.
  unfold blendPeg, bind, ret, Math_random.
  destruct (js_rem L 3 =? 0)%Z; [reflexivity|].
  destruct (js_rem L 3 =? 1)%Z; reflexivity.
Qed.

Lemma mapM_pos (f : Peg -> Rand Peg) :
  (forall p n, pos (fst (f p n)) = pos p) ->
  forall pegs n, map pos (fst (mapM f pegs n)) = map pos pegs.
Proof.
  intros Hf. induction pegs as [|p ps IH]; intros n; simpl; auto.
  unfold bind. specialize (Hf p n). destruct (f p n) as [p' n1].
  specialize (IH n1). destruct (mapM f ps n1) as [ps' n2].
  simpl in *. congruence.
Qed.

Lemma blendColorGradients_pos pegs g1 g2 a L n out :
  fst (blendColorGradients pegs g1 g2 a L n) = Some out ->
  map pos out = map pos pegs.
Proof.
  unfold blendColorGradients, bind, ret, Math_random.
  destruct pegs as [|p ps]; [simpl; intros [= <-]; reflexivity|].
  destruct g1 as [f1|]; [|simpl; discriminate].
  destruct g2 as [f2|]; [|simpl; discriminate].
  pose proof (mapM_pos (blendPeg f1 f2 (0.5 + (rnd n * 0.4 - 0.2)) a L)
               (fun p n => blendPeg_pos f1 f2 _ a L p n) (p :: ps) (S n)) as H.
  destruct (mapM _ (p :: ps) (S n)) as [o n'].
  simpl. intros [= <-]. exact H.
Qed.

Lemma map_withColor_pos (g : Peg -> Z) pegs :
  map pos (map (fun peg => withColor peg (g peg)) pegs) = map pos pegs.
Proof. rewrite map_map. apply map_ext. reflexivity. Qed.

Lemma mapGradient_pos g pegs a L out :
  mapGradient g pegs a L = Some out -> map pos out = map pos pegs.
Proof.
  unfold mapGradient. destruct pegs as [|p ps]; [intros [= <-]; reflexivity|].
  destruct g as [g|]; [|discriminate].
  intros [= <-]. exact (map_withColor_pos (fun peg => g peg a L) (p :: ps)).
Qed.

Lemma applyColorGradient_pos pegs a L n out :
  fst (applyColorGradient pegs a L n) = Some out ->
  map pos out = map pos pegs.
Proof.
  unfold applyColorGradient, bind, ret, Math_random.
  set (gt := js_rem _ _).
  destruct (L >? 6)%Z.
  - destruct (Qltb (rnd (S n)) 0.4).
    + apply blendColorGradients_pos.
    + apply mapGradient_pos.
  - apply mapGradient_pos.
Qed.

Lemma balanceColors_pos pegs a L n out :
  fst (balanceColors pegs a L n) = Some out -> map pos out = map pos pegs.
Proof.
  unfold balanceColors, bindE, bind, ret.
  destruct (L >? 3)%Z.
  - pose proof (applyColorGradient_pos (clampColors pegs a) a L n) as H.
    destruct (applyColorGradient (clampColors pegs a) a L n) as [[cp|] n1];
      simpl; [|discriminate].
    intros [= <-].
    rewrite ensureMinimumColorCounts_pos, (H cp eq_refl).
    apply clampColors_pos.
  - simpl. intros [= <-]. rewrite ensureMinimumColorCounts_pos.
    apply clampColors_pos.
Qed.

(** The index drawn for a gradient is inside [gradientTypes]. *)
Lemma Qfloor_nonneg q : 0 <= q -> (0 <= Qfloor q)%Z.
Proof.
  intro H. change 0%Z with (Qfloor 0). apply Qfloor_resp_le. exact H.
Qed.


Lemma js_rem_range a b : (0 <= a)%Z -> (0 < b)%Z -> (0 <= js_rem a b < b)%Z.
Proof.
  intros Ha Hb. unfold js_rem. rewrite Z.rem_mod_nonneg by lia.
  apply Z.mod_pos_bound. lia.
Qed.




(** ** Overlap and edge filtering *)

Lemma ForallOrdPairs_app_one {A} (R : A -> A -> Prop) l a :
  ForallOrdPairs R l -> Forall (fun b => R b a) l ->
  ForallOrdPairs R (l ++ [a]).
Proof.
  induction 1 as [|b l Hb Hl IH]; intros Ha; simpl.
  - constructor; constructor.
  - inversion Ha; subst. constructor.
    + apply Forall_app. split; [assumption|]. constructor; [assumption|constructor].
    + apply IH. assumption.
Qed.

Lemma ForallOrdPairs_filter {A} (R : A -> A -> Prop) f l :
  ForallOrdPairs R l -> ForallOrdPairs R (filter f l).
Proof.
  induction 1 as [|a l Ha Hl IH]; simpl; [constructor|].
  destruct (f a); [|assumption].
  constructor; [|assumption].
  apply Forall_forall. intros b Hb. apply filter_In in Hb.
  rewrite Forall_forall in Ha. apply Ha. apply Hb.
Qed.

Lemma existsb_false_Forall {A} (f : A -> bool) l :
  existsb f l = false -> Forall (fun a => f a = false) l.
Proof.
  induction l as [|a l IH]; simpl; [constructor|].
  intro H. apply orb_false_iff in H. destruct H. constructor; auto.
Qed.

Lemma removePegOverlaps_loop_separated d pegs :
  forall result,
    separated d result -> separated d (removePegOverlaps_loop d pegs result).
Proof.
  induction pegs as [|peg rest IH]; intros result H; simpl; [assumption|].
  destruct (existsb _ result) eqn:E; apply IH; [assumption|].
  apply ForallOrdPairs_app_one; [assumption|].
  apply existsb_false_Forall in E. exact E.
Qed.

Lemma removePegOverlaps_separated pegs d :
  separated d (removePegOverlaps pegs d).
Proof. apply removePegOverlaps_loop_separated. constructor. Qed.

Lemma removePegOverlaps_loop_incl d pegs :
  forall result p,
    In p (removePegOverlaps_loop d pegs result) -> In p result \/ In p pegs.
Proof.
  induction pegs as [|peg rest IH]; intros result p H; simpl in *; [auto|].
  destruct (existsb _ result).
  - destruct (IH _ _ H); auto.
  - destruct (IH _ _ H) as [H1|H1]; auto.
    apply in_app_or in H1. destruct H1 as [H1|[H1|[]]]; auto.
Qed.

Lemma removePegOverlaps_incl pegs d p :
  In p (removePegOverlaps pegs d) -> In p pegs.
Proof.
  intro H. destruct (removePegOverlaps_loop_incl d pegs [] p H) as [[]|]; auto.
Qed.

Lemma edgeClear_spec d p : edgeClear d p = true <-> edgeClearance d p.
Proof.
  unfold edgeClear, edgeClearance.
  rewrite !andb_true_iff, !Qle_bool_iff. split.
  - intros [[[H1 H2] H3] H4]. auto.
  - intros (H1 & H2 & H3 & H4). auto.
Qed.

Lemma removeEdgePegs_clear pegs d :
  Forall (edgeClearance d) (removeEdgePegs pegs d).
Proof.
  apply Forall_forall. intros p H. apply filter_In in H.
  apply edgeClear_spec. apply H.
Qed.

Lemma removeEdgePegs_separated pegs d e :
  separated e pegs -> separated e (removeEdgePegs pegs d).
Proof. apply ForallOrdPairs_filter. Qed.

Lemma map_cons_inv {A B} (f : A -> B) a a' l l' :
  map f (a :: l) = map f (a' :: l') -> f a = f a' /\ map f l = map f l'.
Proof.
  intro H. split.
  - exact (f_equal (fun l => hd (f a) l) H).
  - exact (f_equal (@tl _) H).
Qed.

(** Both properties only look at positions. *)
Lemma tooClose_pos d a b a' b' :
  pos a = pos a' -> pos b = pos b' -> tooClose d a b = tooClose d a' b'.
Proof.
  unfold pos, tooClose. intros [= Ha1 Ha2] [= Hb1 Hb2].
  now rewrite Ha1, Ha2, Hb1, Hb2.
Qed.



Lemma edgeClearance_pos d l :
  forall l', map pos l = map pos l' ->
    Forall (edgeClearance d) l -> Forall (edgeClearance d) l'.
Proof.
  induction l as [|a l IH]; intros [|a' l'] E H; try discriminate;
    [constructor|].
  apply map_cons_inv in E. destruct E as [Ea El]. inversion H; subst.
  constructor; [|apply IH; assumption].
  unfold pos in Ea. injection Ea as Ex Ey.
  unfold edgeClearance in *. now rewrite <- Ex, <- Ey.
Qed.

(** ** ensureMinimumPegs *)

Lemma reducedSpacing_S k p :
  reducedSpacing (S k) p = reducedSpacing k (p * 0.9).
Proof. reflexivity. Qed.

(** What a returning call chain guarantees when it was entered short of
    [minCount]: the result passed both filters of the last call, whose
    spacing is the initial one reduced [k] times, every reduction having
    been taken from a spacing above [pegRadius * 3]. *)
Lemma ensureMinimumPegs_filtered fuel :
  forall pegs minCount pegSpacing L a n out,
    fst (ensureMinimumPegs fuel pegs minCount pegSpacing L a n) = Some out ->
    (len pegs < minCount)%Z ->
    Forall (edgeClearance (pegRadius * 2)) out /\
    exists k,
      separated (reducedSpacing k pegSpacing * 0.8) out /\
      forall j, (j < k)%nat -> pegRadius * 3 < reducedSpacing j pegSpacing.
Proof.
  induction fuel as [|fuel IH]; intros pegs minCount p L a n out H Hshort;
    simpl in H; [discriminate|].
  destruct (len pegs >=? minCount)%Z eqn:G; [rewrite Z.geb_le in G; lia|].
  unfold bind in H.
  destruct (createFillerPegs _ _ _ _ _ _ _ _ n) as [additional n1].
  set (filtered := removeEdgePegs
                     (removePegOverlaps (pegs ++ additional) (p * 0.8))
                     (pegRadius * 2)) in *.
  destruct ((len filtered <? minCount)%Z && Qltb (pegRadius * 3) p) eqn:E.
  - apply andb_true_iff in E. destruct E as [E1 E2].
    apply Z.ltb_lt in E1. apply Qltb_true in E2.
    destruct (IH _ _ _ _ _ _ _ H E1) as [Hedge (k & Hsep & Hk)].
    split; [exact Hedge|].
    exists (S k). split; [exact Hsep|].
    intros [|j] Hj; [exact E2|].
    rewrite reducedSpacing_S. apply Hk. lia.
  - simpl in H. injection H as <-. split.
    + apply removeEdgePegs_clear.
    + exists O. split.
      * apply removeEdgePegs_separated, removePegOverlaps_separated.
      * intros j Hj. lia.
Qed.

(** One more unit of fuel never changes a result. *)
Lemma ensureMinimumPegs_fuel_mono fuel :
  forall pegs minCount pegSpacing L a n out,
    fst (ensureMinimumPegs fuel pegs minCount pegSpacing L a n) = Some out ->
    ensureMinimumPegs (S fuel) pegs minCount pegSpacing L a n
    = ensureMinimumPegs fuel pegs minCount pegSpacing L a n.
Proof.
  induction fuel as [|fuel IH]; intros pegs minCount p L a n out H;
    [discriminate|].
  remember (S fuel) as f1. simpl. subst f1.
  simpl in H |- *.
  destruct (len pegs >=? minCount)%Z; [reflexivity|].
  unfold bind in *.
  destruct (createFillerPegs _ _ _ _ _ _ _ _ n) as [additional n1].
  destruct ((len _ <? minCount)%Z && Qltb (pegRadius * 3) p); [|reflexivity].
  apply (IH _ _ _ _ _ _ _ H).
Qed.




(** ** The grid of level 1 *)

Lemma sqrt_ltb_false_of_le s d : d * d <= s -> sqrt_ltb s d = false.
Proof.
  intro H. unfold sqrt_ltb. apply andb_false_iff. right.
  apply Qltb_false. exact H.
Qed.

Lemma sqrt_ltb_nonpos s d : d <= 0 -> sqrt_ltb s d = false.
Proof.
  intro H. unfold sqrt_ltb. apply andb_false_iff. left.
  apply Qltb_false. exact H.
Qed.

Lemma Qsquare_nonneg (a : Q) : 0 <= a * a.
Proof.
  destruct (Qlt_le_dec a 0) as [H|H].
  - assert (E : a * a == (- a) * (- a)) by ring. rewrite E.
    apply Qmult_le_0_compat; lra.
  - apply Qmult_le_0_compat; assumption.
Qed.

Lemma scaled_gap (a b p : Q) :
  0 < p -> a + 1 <= b -> p * p <= (a * p - b * p) * (a * p - b * p).
Proof.
  intros Hp Hab.
  assert (H1 : 0 <= (b - a - 1) * p) by (apply Qmult_le_0_compat; lra).
  assert (H2 : 0 <= (b * p - a * p - p) * (b * p - a * p + p)).
  { apply Qmult_le_0_compat.
    - assert (E : b * p - a * p - p == (b - a - 1) * p) by ring.
      rewrite E. exact H1.
    - assert (E : b * p - a * p + p == (b - a - 1) * p + 2 * p) by ring.
      rewrite E. lra. }
  assert (E : (a * p - b * p) * (a * p - b * p)
              == (b * p - a * p - p) * (b * p - a * p + p) + p * p) by ring.
  rewrite E. lra.
Qed.

Lemma lattice_apart startX startY p r c row col a b :
  atCell startX startY p r c a -> atCell startX startY p row col b ->
  ((r < row)%Z \/ (r = row /\ c < col)%Z) ->
  tooClose (p * 0.8) a b = false.
Proof.
  intros [Hax Hay] [Hbx Hby] Hlt. unfold tooClose.
  rewrite Hax, Hay, Hbx, Hby.
  destruct (Qlt_le_dec 0 p) as [Hp|Hp].
  2:{ apply sqrt_ltb_nonpos. lra. }
  apply sqrt_ltb_false_of_le.
  set (dx := startX + inject_Z c * p - (startX + inject_Z col * p)).
  set (dy := startY + inject_Z r * p - (startY + inject_Z row * p)).
  assert (Ex : dx * dx
               == (inject_Z c * p - inject_Z col * p)
                  * (inject_Z c * p - inject_Z col * p))
    by (unfold dx; ring).
  assert (Ey : dy * dy
               == (inject_Z r * p - inject_Z row * p)
                  * (inject_Z r * p - inject_Z row * p))
    by (unfold dy; ring).
  pose proof (Qsquare_nonneg dx) as Hx. pose proof (Qsquare_nonneg dy) as Hy.
  assert (Hpp : 0 <= p * p) by apply Qsquare_nonneg.
  assert (E8 : p * 0.8 * (p * 0.8) == (p * p) * (16 # 25)) by ring.
  rewrite E8.
  destruct Hlt as [Hlt|[-> Hlt]].
  - assert (Hk : inject_Z r + 1 <= inject_Z row).
    { change 1 with (inject_Z 1). rewrite <- inject_Z_plus.
      apply inject_Z_le. lia. }
    pose proof (scaled_gap _ _ p Hp Hk) as Hg. rewrite <- Ey in Hg.
    set (sx := dx * dx) in *. set (sy := dy * dy) in *. set (pp := p * p) in *.
    clearbody sx sy pp. lra.
  - assert (Hk : inject_Z c + 1 <= inject_Z col).
    { change 1 with (inject_Z 1). rewrite <- inject_Z_plus.
      apply inject_Z_le. lia. }
    pose proof (scaled_gap _ _ p Hp Hk) as Hg. rewrite <- Ex in Hg.
    set (sx := dx * dx) in *. set (sy := dy * dy) in *. set (pp := p * p) in *.
    clearbody sx sy pp. lra.
Qed.

Lemma beforeCell_weaken startX startY p row col row' col' peg :
  ((row < row')%Z \/ (row = row' /\ col <= col')%Z) ->
  beforeCell startX startY p row col peg ->
  beforeCell startX startY p row' col' peg.
Proof.
  intros H (r & c & Hat & Hlt). exists r, c. split; [exact Hat|]. lia.
Qed.

Lemma gridInv_weaken startX startY p row col row' col' pegs :
  ((row < row')%Z \/ (row = row' /\ col <= col')%Z) ->
  gridInv startX startY p row col pegs -> gridInv startX startY p row' col' pegs.
Proof.
  intros H [Hs Hb]. split; [exact Hs|].
  eapply Forall_impl; [|exact Hb].
  intros peg. apply beforeCell_weaken. exact H.
Qed.

Lemma gridCell_spec a startX startY p density row pegs col m :
  fst (gridCell a startX startY p density row pegs col m) = pegs \/
  exists c,
    fst (gridCell a startX startY p density row pegs col m)
    = pegs ++ [mkPeg (startX + inject_Z col * p) (startY + inject_Z row * p) c].
Proof.
  unfold gridCell, bind, ret, Math_random, randomColor.
  destruct (Qltb density (rnd m)); [left; reflexivity|].
  right. eexists. reflexivity.
Qed.

Lemma gridCell_inv a startX startY p density row col pegs m :
  gridInv startX startY p row col pegs ->
  gridInv startX startY p row (col + 1)
    (fst (gridCell a startX startY p density row pegs col m)).
Proof.
  intros Hinv.
  destruct (gridCell_spec a startX startY p density row pegs col m)
    as [E|[c E]]; rewrite E.
  - eapply gridInv_weaken; [|exact Hinv]. lia.
  - destruct Hinv as [Hs Hb]. split.
    + apply ForallOrdPairs_app_one; [exact Hs|].
      eapply Forall_impl; [|exact Hb].
      intros b (r & c' & Hat & Hlt).
      eapply lattice_apart; [exact Hat| |exact Hlt].
      split; reflexivity.
    + apply Forall_app. split.
      * eapply Forall_impl; [|exact Hb].
        intros peg. apply beforeCell_weaken. lia.
      * constructor; [|constructor].
        exists row, col. split; [split; reflexivity|]. lia.
Qed.

Lemma grid_inner a startX startY p density row n :
  forall lo pegs m,
    gridInv startX startY p row lo pegs ->
    gridInv startX startY p row (lo + Z.of_nat n)
      (fst (foldM (gridCell a startX startY p density row)
              (zrange lo n) pegs m)).
Proof.
  induction n as [|n IH]; intros lo pegs m Hinv.
  - simpl. eapply gridInv_weaken; [|exact Hinv]. lia.
  - cbn [zrange foldM]. unfold bind.
    pose proof (gridCell_inv a startX startY p density row lo pegs m Hinv)
      as H1.
    destruct (gridCell a startX startY p density row pegs lo m) as [pegs1 m1].
    cbn [fst] in H1.
    replace (lo + Z.of_nat (S n))%Z with ((lo + 1) + Z.of_nat n)%Z by lia.
    apply IH. exact H1.
Qed.

Lemma grid_outer a startX startY p density columns n :
  forall lo pegs m,
    gridInv startX startY p lo 0 pegs ->
    gridInv startX startY p (lo + Z.of_nat n) 0
      (fst (foldM
              (fun pegs row =>
                 foldM (gridCell a startX startY p density row)
                   (zupto 0 columns) pegs)
              (zrange lo n) pegs m)).
Proof.
  induction n as [|n IH]; intros lo pegs m Hinv.
  - simpl. eapply gridInv_weaken; [|exact Hinv]. lia.
  - cbn [zrange foldM]. unfold bind.
    pose proof (grid_inner a startX startY p density lo
                  (Z.to_nat (columns - 0)) 0%Z pegs m Hinv) as Hin.
    fold (zupto 0 columns) in Hin.
    destruct (foldM _ (zupto 0 columns) pegs m) as [pegs1 m1].
    cbn [fst] in Hin.
    replace (lo + Z.of_nat (S n))%Z with ((lo + 1) + Z.of_nat n)%Z by lia.
    apply IH. eapply gridInv_weaken; [|exact Hin]. lia.
Qed.

(** Two pegs of a grid are never closer than [pegSpacing * 0.8]. *)
Lemma createGridPattern_separated cur startX startY columns rows p density n :
  separated (p * 0.8)
    (fst (createGridPattern cur startX startY columns rows p density n)).
Proof.
  unfold createGridPattern.
  pose proof (grid_outer (currentColors cur) startX startY p density columns
                (Z.to_nat (rows - 0)) 0%Z [] n) as H.
  apply H. split; constructor.
Qed.

(** ** The layouts of levels 2 and above *)

Lemma lookup_patterns_bound pattern f :
  patterns pattern = Some f -> exists m, f = BoundMethod m.
Proof.
  unfold patterns, patternTable. cbn [lookup].
  repeat match goal with
  | |- (if ?b then _ else _) = _ -> _ => destruct b; [intros [= <-]; eauto|]
  end.
  discriminate.
Qed.

Lemma isMethod_patterns pattern m : isMethod (patterns pattern) m = false.
Proof.
  destruct (patterns pattern) as [f|] eqn:E; [|reflexivity].
  destruct (lookup_patterns_bound _ _ E) as [m' ->]. reflexivity.
Qed.

(** A function taken from [this.patterns] produces no peg. *)
Lemma generatePatternInSection_patterns pattern sec p L :
  generatePatternInSection (patterns pattern) (Some sec) p L = Some [].
Proof.
  unfold generatePatternInSection. rewrite !isMethod_patterns. cbn.
  destruct (rotation sec); reflexivity.
Qed.

Lemma mapM_length {A B} (f : A -> Rand B) l :
  forall n, List.length (fst (mapM f l n)) = List.length l.
Proof.
  induction l as [|a l IH]; intros n; simpl; auto.
  unfold bind. destruct (f a n) as [b n1]. specialize (IH n1).
  destruct (mapM f l n1) as [bs n2]. simpl in *. now rewrite IH.
Qed.

Lemma divideCanvasIntoSections_two cur n :
  exists s1 s2, fst (divideCanvasIntoSections cur 2 n) = Some [s1; s2].
Proof.
  unfold divideCanvasIntoSections, bindE, bind, ret, Math_random.
  cbn [Z.eqb Pos.eqb].
  set (pw := canvasWidth - horizontalMargin * 2).
  set (ph := canvasHeight - 80 - 120).
  destruct (Qltb 0.5 (rnd n)).
  - match goal with
    | |- context [mapM ?f [?a; ?b] ?m] =>
        pose proof (mapM_length f [a; b] m) as Hl;
        destruct (mapM f [a; b] m) as [out m']
    end.
    cbn [fst] in *. destruct out as [|s1 [|s2 [|s3 out]]]; try discriminate.
    eauto.
  - match goal with
    | |- context [mapM ?f [?a; ?b] ?m] =>
        pose proof (mapM_length f [a; b] m) as Hl;
        destruct (mapM f [a; b] m) as [out m']
    end.
    cbn [fst] in *. destruct out as [|s1 [|s2 [|s3 out]]]; try discriminate.
    eauto.
Qed.

(** At level 2 both pattern calls come back empty. *)
Lemma generateIntermediateLevel_empty cur L p available n :
  fst (generateIntermediateLevel cur L p available n) = Some [].
Proof.
  unfold generateIntermediateLevel, bindE, bind, ret.
  destruct (divideCanvasIntoSections_two cur n) as (s1 & s2 & E).
  destruct (divideCanvasIntoSections cur 2 n) as [o n1]. cbn [fst] in E.
  subst o. cbn [nth_error].
  rewrite !generatePatternInSection_patterns. reflexivity.
Qed.

Lemma applyProceduralNoise_nil L p n :
  applyProceduralNoise [] L p n = ([], n).
Proof.
  unfold applyProceduralNoise. destruct (L <=? 2)%Z; reflexivity.
Qed.

(** Whatever it assembled, [generateProceduralLevel] ends with both
    filters. *)
Lemma generateProceduralLevel_filtered cur L count available p n out :
  fst (generateProceduralLevel cur L count available p n) = Some out ->
  Forall (edgeClearance (pegRadius * 2)) out /\ separated (p * 0.8) out.
Proof.
  unfold generateProceduralLevel, bindE.
  set (secs := if (L >? 7)%Z then createOverlappingSections cur count L
               else divideCanvasIntoSections cur count).
  unfold bind at 1.
  destruct (secs n) as [[sections|] n1]; [|discriminate].
  unfold bind at 1.
  destruct (selectRandomPatternsForLevel available count L n1) as [sel n2].
  unfold bind at 1.
  destruct (patternLoop _ sections sel p L [] n2) as [[pegs|] n3];
    [|discriminate].
  unfold bind at 1.
  destruct (createRandomPattern cur _ _ _ _ _ _ n3) as [randomPegs n4].
  unfold bind at 1.
  match goal with
  | |- context [let (a, n') := ?c n4 in _] => destruct (c n4) as [pegs' n5]
  end.
  unfold ret. cbn [fst]. intros [= <-]. split.
  - apply removeEdgePegs_clear.
  - apply removeEdgePegs_separated, removePegOverlaps_separated.
Qed.

Lemma generateAdvancedLevel_filtered cur L available p n out :
  fst (generateAdvancedLevel cur L p available n) = Some out ->
  Forall (edgeClearance (pegRadius * 2)) out /\ separated (p * 0.8) out.
Proof.
  unfold generateAdvancedLevel, bind, Math_random.
  destruct (advancedPick _ _ [] (S n)) as [sel n1].
  apply generateProceduralLevel_filtered.
Qed.

Lemma levelLayout_filtered L n out :
  (3 <= L)%Z -> fst (levelLayout L n) = Some out ->
  Forall (edgeClearance (pegRadius * 2)) out /\
  separated (levelSpacing L * 0.8) out.
Proof.
  intros HL. unfold levelLayout.
  replace (L =? 1)%Z with false by (symmetry; apply Z.eqb_neq; lia).
  replace (L =? 2)%Z with false by (symmetry; apply Z.eqb_neq; lia).
  destruct (L =? 3)%Z.
  - apply generateAdvancedLevel_filtered.
  - apply generateProceduralLevel_filtered.
Qed.

Lemma levelLayout_two n : fst (levelLayout 2 n) = Some [].
Proof. unfold levelLayout. cbn [Z.eqb Pos.eqb]. apply generateIntermediateLevel_empty. Qed.


(** The three stages of [generateLevel], made explicit. *)
Lemma generateLevel_stages fuel L n out :
  fst (generateLevel fuel L n) = Some out ->
  exists layout n1 topped n2,
    levelLayout L n = (Some layout, n1) /\
    topUp fuel L layout n1 = (Some topped, n2) /\
    fst (balanceColors topped (getAvailableColors L) L n2) = Some out.
Proof.
  unfold generateLevel, bindE. unfold bind at 1.
  destruct (levelLayout L n) as [[layout|] n1] eqn:E1; [|discriminate].
  unfold bind at 1.
  destruct (topUp fuel L layout n1) as [[topped|] n2] eqn:E2; [|discriminate].
  intro H. exists layout, n1, topped, n2. repeat split; auto.
Qed.

(** C2, as amended.  Every peg returned by [generateLevel] keeps the
    clearance [pegRadius * 2] from the four edges of the playable area for
    every level [>= 3], and at levels 1 and 2 whenever the layout came out
    with fewer pegs than [getMinimumPegCount], so that [ensureMinimumPegs]
    ran; at level 2 this is always the case, the layout being empty. *)
Theorem generateLevel_edge_clearance (fuel : nat) (levelNumber : Z) (n : nat)
    (out : list Peg) :
  (1 <= levelNumber)%Z ->
  fst (generateLevel fuel levelNumber n) = Some out ->
  ((3 <= levelNumber)%Z \/
   exists layout, fst (levelLayout levelNumber n) = Some layout /\
                  (len layout < getMinimumPegCount levelNumber)%Z) ->
  (forall peg, In peg out ->
     horizontalMargin + pegRadius * 2 <= x peg /\
     x peg <= canvasWidth - horizontalMargin - pegRadius * 2 /\
     pegRadius * 2 <= y peg /\
     y peg <= canvasHeight - pegRadius * 2) /\
  (forall m, exists layout,
     fst (levelLayout 2 m) = Some layout /\
     (len layout < getMinimumPegCount 2)%Z).
Proof.
  intros HL H Hcase. split.
  2:{ intros m. exists []. split; [apply levelLayout_two|reflexivity]. }
  destruct (generateLevel_stages _ _ _ _ H)
    as (layout & n1 & topped & n2 & Hlay & Htop & Hbal).
  assert (Hedge : Forall (edgeClearance (pegRadius * 2)) topped).
  { unfold topUp in Htop.
    destruct (len layout <? getMinimumPegCount levelNumber)%Z eqn:E.
    - apply Z.ltb_lt in E.
      apply (ensureMinimumPegs_filtered fuel layout _ _ _ _ n1 topped
               (f_equal fst Htop) E).
    - apply Z.ltb_ge in E. unfold ret in Htop. injection Htop as <- <-.
      destruct Hcase as [H3|(layout' & Hl' & Hshort)].
      + apply (levelLayout_filtered levelNumber n); [exact H3|].
        rewrite Hlay. reflexivity.
      + rewrite Hlay in Hl'. cbn [fst] in Hl'. injection Hl' as <-. lia. }
  apply balanceColors_pos in Hbal.
  pose proof (edgeClearance_pos _ topped out (eq_sym Hbal) Hedge) as Hout.
  rewrite Forall_forall in Hout. exact Hout.
Qed.


(** ** createSpiralPattern *)








(** ** selectRandomPatternsForLevel *)


Lemma random_index_range r m :
  0 <= r < 1 -> (0 < m)%Z ->
  (0 <= Qfloor (r * inject_Z m) < m)%Z.
Proof.
  intros [H0 H1] Hm.
  assert (Hq : 0 < inject_Z m) by (change 0 with (inject_Z 0); now apply inject_Z_lt).
  split.
  - apply Qfloor_nonneg. apply Qmult_le_0_compat; lra.
  - assert (Hlt : r * inject_Z m < inject_Z m).
    { assert (E : inject_Z m - r * inject_Z m == (1 - r) * inject_Z m) by ring.
      assert (0 < (1 - r) * inject_Z m) by (apply Qmult_lt_0_compat; lra).
      lra. }
    pose proof (Qfloor_le (r * inject_Z m)) as Hfl.
    assert (Hz : inject_Z (Qfloor (r * inject_Z m)) < inject_Z m) by lra.
    now rewrite <- Zlt_Qlt in Hz.
Qed.

Lemma nthName_in arr index :
  (0 <= index < len arr)%Z -> In (nthName arr index) arr.
Proof.
  intros H. unfold nthName.
  replace (index <? 0)%Z with false by (symmetry; apply Z.ltb_ge; lia).
  apply nth_In. unfold len in H. lia.
Qed.

Lemma selectLoop_cons rem count w pool' selected n :
  selectLoop (S rem) count (w :: pool') selected n =
  selectLoop rem count
    (if (len (selected
              ++ [nthName (w :: pool')
                    (Qfloor (rnd n * inject_Z (len (w :: pool'))))])
         <? count - 1)%Z
     then filter
            (fun s =>
               negb (String.eqb s
                       (nthName (w :: pool')
                          (Qfloor (rnd n * inject_Z (len (w :: pool')))))))
            (w :: pool')
     else w :: pool')
    (selected
     ++ [nthName (w :: pool') (Qfloor (rnd n * inject_Z (len (w :: pool'))))])
    (S n).
Proof. reflexivity. Qed.



(** ** Colour counts under conversion *)

Lemma classCount_cons P peg pegs :
  classCount P (peg :: pegs)
  = ((if P (colorIndex peg) then 1 else 0) + classCount P pegs)%Z.
Proof.
  unfold classCount, len. cbn [filter].
  destruct (P (colorIndex peg)); cbn [List.length]; lia.
Qed.

Lemma classCount_nonneg P pegs : (0 <= classCount P pegs)%Z.
Proof. apply len_nonneg. Qed.

Lemma classCount_app P l l' :
  classCount P (l ++ l') = (classCount P l + classCount P l')%Z.
Proof. unfold classCount. rewrite filter_app. apply len_app. Qed.

Lemma classCount_le_len P pegs : (classCount P pegs <= len pegs)%Z.
Proof.
  induction pegs as [|p l IH]; [reflexivity|].
  rewrite classCount_cons. unfold len in *. cbn [List.length].
  destruct (P (colorIndex p)); lia.
Qed.

Lemma countColor_cons c peg pegs :
  countColor c (peg :: pegs)
  = ((if (colorIndex peg =? c)%Z then 1 else 0) + countColor c pegs)%Z.
Proof. apply (classCount_cons (fun d => (d =? c)%Z)). Qed.


(** What one conversion loop does, read off its recursion. *)
Lemma convertPegs_spec donor color needed pegs :
  forall k0 cc,
    let r := convertPegs donor color needed k0 cc pegs in
    let out := fst (fst r) in
    let cc' := snd (fst r) in
    let k := snd r in
    (k0 <= k)%Z /\
    ((k0 <= needed)%Z -> k = Z.min needed (k0 + classCount donor pegs)) /\
    (forall c, (cc' c - countColor c out = cc c - countColor c pegs)%Z) /\
    (donor color = false ->
     countColor color out = (countColor color pegs + (k - k0))%Z) /\
    (forall d, d <> color -> donor d = false ->
               countColor d out = countColor d pegs) /\
    (forall d, d <> color ->
               (countColor d pegs - (k - k0) <= countColor d out)%Z) /\
    (forall P, P color = true -> (forall d, donor d = true -> P d = true) ->
               classCount P out = classCount P pegs) /\
    (forall a, (color < a)%Z ->
               Forall (fun p => (colorIndex p < a)%Z) pegs ->
               Forall (fun p => (colorIndex p < a)%Z) out).
Proof.
  induction pegs as [|peg rest IH]; intros k0 cc.
  - cbn. repeat split; try lia; auto;
      try (intros; unfold classCount, len; cbn; lia).
  - cbn [convertPegs]. destruct (k0 <? needed)%Z eqn:Ek.
    + apply Z.ltb_lt in Ek. destruct (donor (colorIndex peg)) eqn:Ed.
      * specialize (IH (k0 + 1)%Z (incr (decr cc (colorIndex peg)) color)).
        destruct (convertPegs donor color needed (k0 + 1)
                    (incr (decr cc (colorIndex peg)) color) rest)
          as [[out cc'] k].
        cbn [fst snd] in *.
        destruct IH as (I1 & I2 & I3 & I4 & I5 & I6 & I7 & I8).
        split; [lia|]. split; [|split; [|split; [|split; [|split; [|split]]]]].
        -- intros _. rewrite classCount_cons, Ed. rewrite I2 by lia. lia.
        -- intros c. specialize (I3 c). rewrite !countColor_cons.
           unfold incr, decr in I3. cbn [colorIndex withColor].
           destruct (c =? color)%Z eqn:E1; destruct (c =? colorIndex peg)%Z eqn:E2;
             destruct (color =? c)%Z eqn:E3; destruct (colorIndex peg =? c)%Z eqn:E4;
             try lia.
        -- intros Hdc. rewrite !countColor_cons. cbn [colorIndex withColor].
           rewrite Z.eqb_refl.
           destruct (colorIndex peg =? color)%Z eqn:E.
           ++ apply Z.eqb_eq in E. congruence.
           ++ rewrite (I4 Hdc). lia.
        -- intros d Hd Hnd. rewrite !countColor_cons. cbn [colorIndex withColor].
           replace (color =? d)%Z with false by (symmetry; apply Z.eqb_neq; lia).
           destruct (colorIndex peg =? d)%Z eqn:E.
           ++ apply Z.eqb_eq in E. congruence.
           ++ rewrite (I5 d Hd Hnd). lia.
        -- intros d Hd. specialize (I6 d Hd). rewrite !countColor_cons.
           cbn [colorIndex withColor].
           replace (color =? d)%Z with false by (symmetry; apply Z.eqb_neq; lia).
           destruct (colorIndex peg =? d)%Z; lia.
        -- intros P HP Hdon. rewrite !classCount_cons.
           cbn [colorIndex withColor]. rewrite HP, (Hdon _ Ed).
           rewrite (I7 P HP Hdon). reflexivity.
        -- intros a Ha Hall. inversion Hall; subst. constructor.
           ++ exact Ha.
           ++ apply I8; assumption.
      * specialize (IH k0 cc).
        destruct (convertPegs donor color needed k0 cc rest) as [[out cc'] k].
        cbn [fst snd] in *.
        destruct IH as (I1 & I2 & I3 & I4 & I5 & I6 & I7 & I8).
        split; [lia|]. split; [|split; [|split; [|split; [|split; [|split]]]]].
        -- intros H. rewrite classCount_cons, Ed. rewrite I2 by lia. lia.
        -- intros c. specialize (I3 c). rewrite !countColor_cons. lia.
        -- intros Hdc. rewrite !countColor_cons. rewrite (I4 Hdc). lia.
        -- intros d Hd Hnd. rewrite !countColor_cons.
           rewrite (I5 d Hd Hnd). reflexivity.
        -- intros d Hd. specialize (I6 d Hd). rewrite !countColor_cons. lia.
        -- intros P HP Hdon. rewrite !classCount_cons.
           rewrite (I7 P HP Hdon). reflexivity.
        -- intros a Ha Hall. inversion Hall; subst. constructor; auto.
    + apply Z.ltb_ge in Ek. cbn [fst snd]. repeat split; try lia; auto.
      intros H.
      pose proof (classCount_nonneg donor (peg :: rest)). lia.
Qed.

Lemma convertPegs_length donor color needed pegs k0 cc :
  len (fst (fst (convertPegs donor color needed k0 cc pegs))) = len pegs.
Proof.
  pose proof (convertPegs_pos donor color needed pegs k0 cc) as H.
  unfold len. rewrite <- (length_map pos), H. now rewrite length_map.
Qed.

(** The last peg of the list is left alone when it is not a donor or when
    the pegs before it already supply what is needed. *)
Lemma convertPegs_last donor color needed l p :
  forall k0 cc,
    (k0 <= needed)%Z ->
    donor (colorIndex p) = false \/ (needed <= k0 + classCount donor l)%Z ->
    convertPegs donor color needed k0 cc (l ++ [p])
    = (fst (fst (convertPegs donor color needed k0 cc l)) ++ [p],
       snd (fst (convertPegs donor color needed k0 cc l)),
       snd (convertPegs donor color needed k0 cc l)).
Proof.
  induction l as [|q l IH]; intros k0 cc Hk Hcase.
  - cbn. destruct (k0 <? needed)%Z eqn:E; [|reflexivity].
    apply Z.ltb_lt in E.
    destruct Hcase as [Hd|Hd].
    + rewrite Hd. reflexivity.
    + unfold classCount, len in Hd. simpl in Hd. lia.
  - cbn [app convertPegs]. destruct (k0 <? needed)%Z eqn:E.
    + apply Z.ltb_lt in E. destruct (donor (colorIndex q)) eqn:Ed.
      * rewrite IH.
        -- destruct (convertPegs donor color needed (k0 + 1) _ l)
             as [[o c] k]. reflexivity.
        -- lia.
        -- destruct Hcase as [H|H]; [now left|right].
           rewrite classCount_cons, Ed in H. lia.
      * rewrite IH.
        -- destruct (convertPegs donor color needed k0 cc l) as [[o c] k].
           reflexivity.
        -- lia.
        -- destruct Hcase as [H|H]; [now left|right].
           rewrite classCount_cons, Ed in H. lia.
    + reflexivity.
Qed.

Lemma exactCounts_convert donor color needed pegs k0 cc :
  exactCounts cc pegs ->
  exactCounts (snd (fst (convertPegs donor color needed k0 cc pegs)))
              (fst (fst (convertPegs donor color needed k0 cc pegs))).
Proof.
  intros H c.
  destruct (convertPegs_spec donor color needed pegs k0 cc)
    as (_ & _ & I3 & _).
  specialize (I3 c). rewrite (H c) in I3. lia.
Qed.

Lemma exactCounts_initial pegs :
  exactCounts (fold_left (fun cc peg => incr cc (colorIndex peg)) pegs zeroCounts)
              pegs.
Proof.
  assert (G : forall l cc c,
             fold_left (fun cc peg => incr cc (colorIndex peg)) l cc c
             = (cc c + countColor c l)%Z).
  { induction l as [|p l IH]; intros cc c; simpl.
    - unfold countColor, len. simpl. lia.
    - rewrite IH, countColor_cons. unfold incr.
      rewrite (Z.eqb_sym c). destruct (colorIndex p =? c)%Z; lia. }
  intros c. rewrite G. reflexivity.
Qed.

Lemma excessColors_spec L a color cc d :
  In d (excessColors L a color cc) <->
  (0 <= d < a)%Z /\ protectedColor L d = false /\ d <> color /\
  (minPerColor L + 2 < cc d)%Z.
Proof.
  unfold excessColors, protectedColor. rewrite filter_In, in_zupto.
  rewrite !andb_true_iff, !negb_true_iff, Z.eqb_neq.
  split.
  - intros (H1 & (H2 & H3) & H4). repeat split; try lia; auto.
  - intros (H1 & H2 & H3 & H4). repeat split; try lia; auto.
Qed.

Lemma existsb_eqb_in c l : existsb (Z.eqb c) l = true <-> In c l.
Proof.
  rewrite existsb_exists. split.
  - intros (x & Hx & E). apply Z.eqb_eq in E. now subst.
  - intros H. exists c. split; [assumption|apply Z.eqb_refl].
Qed.

Lemma anyDonor_spec L color d :
  anyDonor L color d = negb (d =? color)%Z && negb (protectedColor L d).
Proof. reflexivity. Qed.

(** The state after the processing of one colour. *)
Lemma ensureColor_invariants L a pegs cc color :
  exactCounts cc pegs ->
  exactCounts (snd (ensureColor L a (pegs, cc) color))
              (fst (ensureColor L a (pegs, cc) color)) /\
  len (fst (ensureColor L a (pegs, cc) color)) = len pegs /\
  (Forall (fun p => (colorIndex p < a)%Z) pegs ->
   Forall (fun p => (colorIndex p < a)%Z)
          (fst (ensureColor L a (pegs, cc) color))) /\
  (forall P, P color = true ->
     (forall d, protectedColor L d = false -> d <> color -> P d = true) ->
     classCount P (fst (ensureColor L a (pegs, cc) color)) = classCount P pegs).
Proof.
  intros Hex. unfold ensureColor.
  destruct (color >=? a)%Z eqn:Ea; [cbn [fst snd]; auto|].
  assert (Hca : (color < a)%Z) by (rewrite Z.geb_leb in Ea; apply Z.leb_gt in Ea; lia).
  destruct (cc color <? adjustedMinimum L color)%Z; [|cbn [fst snd]; auto].
  set (needed := (adjustedMinimum L color - cc color)%Z).
  destruct (excessColors L a color cc) as [|e es] eqn:Eex.
  - pose proof (convertPegs_spec (anyDonor L color) color needed pegs 0%Z cc)
      as (_ & _ & _ & _ & _ & _ & I7 & I8).
    pose proof (exactCounts_convert (anyDonor L color) color needed pegs 0%Z cc Hex)
      as Hex1.
    pose proof (convertPegs_length (anyDonor L color) color needed pegs 0%Z cc)
      as Hlen.
    destruct (convertPegs (anyDonor L color) color needed 0 cc pegs)
      as [[p1 c1] k1].
    cbn [fst snd] in *. repeat split; auto.
    intros P HP HPd. apply I7; [exact HP|].
    intros d Hd. rewrite anyDonor_spec in Hd. apply andb_true_iff in Hd.
    destruct Hd as [Hd1 Hd2]. apply negb_true_iff in Hd1, Hd2.
    apply HPd; [exact Hd2|]. now apply Z.eqb_neq.
  - rewrite <- Eex.
    set (donorA := fun c => existsb (Z.eqb c) (excessColors L a color cc)).
    pose proof (convertPegs_spec donorA color needed pegs 0%Z cc)
      as (_ & _ & _ & _ & _ & _ & I7 & I8).
    pose proof (exactCounts_convert donorA color needed pegs 0%Z cc Hex) as Hex1.
    pose proof (convertPegs_length donorA color needed pegs 0%Z cc) as Hlen.
    destruct (convertPegs donorA color needed 0 cc pegs) as [[p1 c1] k1].
    cbn [fst snd] in *.
    assert (HdonA : forall P,
               (forall d, protectedColor L d = false -> d <> color -> P d = true) ->
               forall d, donorA d = true -> P d = true).
    { intros P HPd d Hd. unfold donorA in Hd. apply existsb_eqb_in in Hd.
      apply excessColors_spec in Hd. destruct Hd as (_ & H2 & H3 & _). auto. }
    destruct (k1 <? needed)%Z.
    + pose proof (convertPegs_spec (anyDonor L color) color needed p1 k1 c1)
        as (_ & _ & _ & _ & _ & _ & J7 & J8).
      pose proof (exactCounts_convert (anyDonor L color) color needed p1 k1 c1 Hex1)
        as Hex2.
      pose proof (convertPegs_length (anyDonor L color) color needed p1 k1 c1)
        as Hlen2.
      destruct (convertPegs (anyDonor L color) color needed k1 c1 p1)
        as [[p2 c2] k2].
      cbn [fst snd] in *. repeat split; auto.
      * congruence.
      * intros P HP HPd. rewrite J7; [apply I7; auto|exact HP|].
        intros d Hd. rewrite anyDonor_spec in Hd. apply andb_true_iff in Hd.
        destruct Hd as [Hd1 Hd2]. apply negb_true_iff in Hd1, Hd2.
        apply HPd; [exact Hd2|]. now apply Z.eqb_neq.
    + cbn [fst snd]. repeat split; auto.
Qed.

Lemma fold_ensureColor_invariants L a colors :
  forall pegs cc,
    exactCounts cc pegs ->
    exactCounts (snd (fold_left (ensureColor L a) colors (pegs, cc)))
                (fst (fold_left (ensureColor L a) colors (pegs, cc))) /\
    len (fst (fold_left (ensureColor L a) colors (pegs, cc))) = len pegs /\
    (Forall (fun p => (colorIndex p < a)%Z) pegs ->
     Forall (fun p => (colorIndex p < a)%Z)
            (fst (fold_left (ensureColor L a) colors (pegs, cc)))).
Proof.
  induction colors as [|c cs IH]; intros pegs cc Hex; [cbn; auto|].
  cbn [fold_left].
  destruct (ensureColor_invariants L a pegs cc c Hex) as (H1 & H2 & H3 & _).
  destruct (ensureColor L a (pegs, cc) c) as [p1 c1]. cbn [fst snd] in *.
  destruct (IH p1 c1 H1) as (J1 & J2 & J3).
  repeat split; auto. congruence.
Qed.

Lemma wrapColor_below a pegs :
  (0 < a)%Z ->
  Forall (fun p => (colorIndex p < a)%Z) (map (wrapColor a) pegs).
Proof.
  intros Ha. apply Forall_forall. intros p Hp. apply in_map_iff in Hp.
  destruct Hp as (q & <- & _). unfold wrapColor.
  destruct (colorIndex q >=? a)%Z eqn:E.
  - cbn. assert (a <= colorIndex q)%Z by (rewrite Z.geb_leb in E; now apply Z.leb_le).
    unfold js_rem. pose proof (Z.rem_bound_pos (colorIndex q) a). lia.
  - rewrite Z.geb_leb in E. apply Z.leb_gt in E. exact E.
Qed.

Lemma wrapColor_id a pegs :
  Forall (fun p => (colorIndex p < a)%Z) pegs -> map (wrapColor a) pegs = pegs.
Proof.
  induction 1 as [|p l Hp Hl IH]; [reflexivity|].
  cbn [map]. rewrite IH. f_equal. unfold wrapColor.
  replace (colorIndex p >=? a)%Z with false; [reflexivity|].
  symmetry. rewrite Z.geb_leb. apply Z.leb_gt. exact Hp.
Qed.

(** [ensureMinimumColorCounts] as the fold over the colour order, the final
    pass being the identity. *)
Lemma ensureMinimumColorCounts_fold pegs a L :
  (0 < a)%Z ->
  let pegs1 := map (wrapColor a) pegs in
  let cc1 := fold_left (fun cc peg => incr cc (colorIndex peg)) pegs1 zeroCounts in
  ensureMinimumColorCounts pegs a L
  = fst (fold_left (ensureColor L a) (colorOrder L a) (pegs1, cc1)).
Proof.
  intros Ha pegs1 cc1. unfold ensureMinimumColorCounts. fold pegs1. fold cc1.
  destruct (fold_ensureColor_invariants L a (colorOrder L a) pegs1 cc1)
    as (_ & _ & H3).
  { apply exactCounts_initial. }
  destruct (fold_left (ensureColor L a) (colorOrder L a) (pegs1, cc1))
    as [bp cc]. cbn [fst snd] in *.
  apply wrapColor_id. apply H3. apply wrapColor_below. exact Ha.
Qed.

(** ** A negative colour survives the minimum-per-colour pass *)

Lemma classCount_anyDonor L color pegs :
  L <> 3%Z ->
  classCount (anyDonor L color) pegs = (len pegs - countColor color pegs)%Z.
Proof.
  intros HL. induction pegs as [|p l IH]; [reflexivity|].
  rewrite classCount_cons, countColor_cons, IH.
  replace (len (p :: l)) with (1 + len l)%Z
    by (unfold len; cbn [List.length]; lia).
  unfold anyDonor.
  replace (L =? 3)%Z with false by (symmetry; now apply Z.eqb_neq).
  cbn [andb negb]. rewrite andb_true_r.
  destruct (colorIndex p =? color)%Z; cbn [negb]; lia.
Qed.

Lemma adjustedMinimum_plain L color :
  L <> 3%Z -> adjustedMinimum L color = minPerColor L.
Proof.
  intros HL. unfold adjustedMinimum.
  replace (L =? 3)%Z with false by (symmetry; now apply Z.eqb_neq).
  now rewrite andb_false_r.
Qed.

Lemma countColor_app_negative color l p :
  (0 <= color)%Z -> (colorIndex p < 0)%Z ->
  countColor color (l ++ [p]) = countColor color l.
Proof.
  intros Hc Hp. unfold countColor. rewrite filter_app, len_app. cbn [filter].
  replace (colorIndex p =? color)%Z with false
    by (symmetry; apply Z.eqb_neq; lia).
  unfold len. cbn [List.length]. lia.
Qed.

Lemma ensureColor_last_shape L a l p cc color :
  L <> 3%Z -> (0 <= color)%Z -> (colorIndex p < 0)%Z ->
  exactCounts cc (l ++ [p]) -> (minPerColor L <= len l)%Z ->
  exists l', fst (ensureColor L a (l ++ [p], cc) color) = l' ++ [p].
Proof.
  intros HL Hc Hp Hex Hlen. unfold ensureColor.
  destruct (color >=? a)%Z; [now exists l|].
  rewrite (adjustedMinimum_plain L color HL).
  destruct (cc color <? minPerColor L)%Z eqn:Elt; [|now exists l].
  apply Z.ltb_lt in Elt.
  assert (Hcc : cc color = countColor color l).
  { rewrite (Hex color). now apply countColor_app_negative. }
  set (needed := (minPerColor L - cc color)%Z).
  assert (Hneeded : (0 <= needed)%Z) by (unfold needed; lia).
  assert (HB : forall k1 c1 o1,
             (k1 <= needed)%Z ->
             (needed <= k1 + classCount (anyDonor L color) o1)%Z ->
             exists l',
               fst (let '(pegs2, cc2, _) :=
                      convertPegs (anyDonor L color) color needed k1 c1
                        (o1 ++ [p]) in (pegs2, cc2)) = l' ++ [p]).
  { intros k1 c1 o1 Hk Hd.
    rewrite (convertPegs_last (anyDonor L color) color needed o1 p k1 c1 Hk
               (or_intror Hd)).
    cbn [fst]. eexists. reflexivity. }
  destruct (excessColors L a color cc) as [|e es] eqn:Eex.
  - destruct (HB 0%Z cc l Hneeded) as (l' & Hl').
    + rewrite (classCount_anyDonor L color l HL). unfold needed. lia.
    + exists l'. rewrite <- Hl'.
      destruct (convertPegs (anyDonor L color) color needed 0 cc (l ++ [p]))
        as [[o c] k]. reflexivity.
  - rewrite <- Eex.
    set (donorA := fun c => existsb (Z.eqb c) (excessColors L a color cc)).
    assert (HdA : forall d, donorA d = true -> (0 <= d)%Z /\ d <> color).
    { intros d Hd. unfold donorA in Hd. apply existsb_eqb_in in Hd.
      apply excessColors_spec in Hd. lia. }
    assert (HpA : donorA (colorIndex p) = false).
    { destruct (donorA (colorIndex p)) eqn:E; [|reflexivity].
      apply HdA in E. lia. }
    assert (HcA : donorA color = false).
    { destruct (donorA color) eqn:E; [|reflexivity].
      apply HdA in E. lia. }
    rewrite (convertPegs_last donorA color needed l p 0%Z cc Hneeded
               (or_introl HpA)).
    pose proof (convertPegs_spec donorA color needed l 0%Z cc)
      as (_ & I2 & _ & I4 & _).
    pose proof (convertPegs_length donorA color needed l 0%Z cc) as Hl1.
    destruct (convertPegs donorA color needed 0 cc l) as [[o1 c1] k1].
    cbn [fst snd] in *.
    destruct (k1 <? needed)%Z eqn:Ek; [|now exists o1].
    apply Z.ltb_lt in Ek.
    destruct (HB k1 c1 o1) as (l' & Hl'); [lia| |].
    + rewrite (classCount_anyDonor L color o1 HL), Hl1, (I4 HcA).
      unfold needed. lia.
    + exists l'. rewrite <- Hl'.
      destruct (convertPegs (anyDonor L color) color needed k1 c1 (o1 ++ [p]))
        as [[o c] k]. reflexivity.
Qed.

Lemma fold_ensureColor_last L a colors :
  L <> 3%Z -> Forall (fun c => (0 <= c)%Z) colors ->
  forall l p cc,
    (colorIndex p < 0)%Z -> exactCounts cc (l ++ [p]) ->
    (minPerColor L <= len l)%Z ->
    exists l',
      fst (fold_left (ensureColor L a) colors (l ++ [p], cc)) = l' ++ [p] /\
      len l' = len l.
Proof.
  intros HL Hcs. induction Hcs as [|c cs Hc Hcs IH]; intros l p cc Hp Hex Hlen.
  - exists l. now split.
  - cbn [fold_left].
    destruct (ensureColor_last_shape L a l p cc c HL Hc Hp Hex Hlen)
      as (l1 & Hl1).
    destruct (ensureColor_invariants L a (l ++ [p]) cc c Hex)
      as (H1 & H2 & _).
    destruct (ensureColor L a (l ++ [p], cc) c) as [p1 c1].
    cbn [fst snd] in *. subst p1.
    assert (Hlen1 : len l1 = len l).
    { rewrite !len_app in H2. lia. }
    destruct (IH l1 p c1 Hp H1) as (l' & Hl' & Hlen').
    + lia.
    + exists l'. split; [exact Hl'|lia].
Qed.

(** A peg with a negative colour at the end of the list leaves
    [ensureMinimumColorCounts] as it came, on every level but 3, once the
    pegs before it are at least the per-colour minimum: the excess loops take
    only colours of [0, availableColors), the other loops are satisfied before
    they reach the last peg, and the final pass only wraps colours that are
    too large. *)
Lemma ensureMinimumColorCounts_keeps_negative l p a L :
  (0 < a)%Z -> L <> 3%Z -> (colorIndex p < 0)%Z ->
  (minPerColor L <= len l)%Z ->
  exists l', ensureMinimumColorCounts (l ++ [p]) a L = l' ++ [p] /\
             len l' = len l.
Proof.
  intros Ha HL Hp Hlen.
  rewrite (ensureMinimumColorCounts_fold (l ++ [p]) a L Ha).
  cbv zeta. rewrite map_app. cbn [map].
  assert (Hw : wrapColor a p = p).
  { unfold wrapColor.
    replace (colorIndex p >=? a)%Z with false; [reflexivity|].
    symmetry. rewrite Z.geb_leb. apply Z.leb_gt. lia. }
  rewrite Hw.
  destruct (fold_ensureColor_last L a (colorOrder L a) HL) with
    (l := map (wrapColor a) l) (p := p)
    (cc := fold_left (fun cc peg => incr cc (colorIndex peg))
             (map (wrapColor a) l ++ [p]) zeroCounts)
    as (l' & Hl' & Hlen').
  - unfold colorOrder.
    replace (L =? 3)%Z with false by (symmetry; now apply Z.eqb_neq).
    apply Forall_forall. intros c Hc. apply in_zupto in Hc. lia.
  - exact Hp.
  - apply exactCounts_initial.
  - unfold len in *. rewrite length_map. exact Hlen.
  - exists l'. split; [exact Hl'|].
    rewrite Hlen'. unfold len. now rewrite length_map.
Qed.

(** ** The spiral gradient below the centre line *)

Lemma Qtrunc_small q : -1 < q -> q < 1 -> Qtrunc q = 0%Z.
Proof.
  intros H1 H2. unfold Qtrunc. destruct (Qle_bool 0 q) eqn:E.
  - apply Qle_bool_iff in E.
    pose proof (Qfloor_le q) as F1. pose proof (Qlt_floor q) as F2.
    assert (G1 : (0 <= Qfloor q)%Z).
    { apply Qfloor_nonneg. exact E. }
    assert (G2 : (Qfloor q < 1)%Z).
    { rewrite Zlt_Qlt. eapply Qle_lt_trans; [exact F1|exact H2]. }
    lia.
  - apply Qle_bool_false in E.
    pose proof (Qle_ceiling q) as F1. pose proof (Qceiling_lt q) as F2.
    assert (G1 : (Qceiling q <= 0)%Z).
    { assert (Qceiling q - 1 < 0)%Z; [|lia].
      rewrite Zlt_Qlt. eapply Qlt_le_trans; [exact F2|].
      apply Qlt_le_weak. exact E. }
    assert (G2 : (-1 < Qceiling q)%Z).
    { rewrite Zlt_Qlt. eapply Qlt_le_trans; [exact H1|exact F1]. }
    lia.
Qed.

Lemma js_fmod_small q : -1 < q -> q < 1 -> js_fmod q 1 == q.
Proof.
  intros H1 H2. unfold js_fmod.
  assert (E : q / 1 == q) by (field).
  assert (T : Qtrunc (q / 1) = 0%Z).
  { apply Qtrunc_small; rewrite E; assumption. }
  rewrite T. ring.
Qed.

(** One pixel above the centre of the canvas the angle is [-PI/2] and the
    distance 1, so that up to level 150 the spiral value lies in (-1, 0) and
    its floor is negative. *)
Lemma spiralGradient_negative peg a L :
  (forall dy dx, dx == 0 -> dy < 0 -> Math_atan2 dy dx == - (Math_PI / 2)) ->
  (forall s, s == 1 -> Math_sqrt s == 1) ->
  x peg == canvasWidth / 2 -> y peg == canvasHeight / 2 - 1 ->
  (0 < a)%Z -> (1 <= L <= 150)%Z ->
  (spiralGradient peg a L < 0)%Z.
Proof.
  intros Hatan Hsqrt Hx Hy Ha HL. unfold spiralGradient.
  set (dx := x peg - canvasWidth / 2).
  set (dy := y peg - canvasHeight / 2).
  assert (Edx : dx == 0) by (unfold dx; rewrite Hx; ring).
  assert (Edy : dy == -1) by (unfold dy; rewrite Hy; ring).
  assert (Ea : Math_atan2 dy dx == - (Math_PI / 2)).
  { apply Hatan; [exact Edx|]. rewrite Edy. reflexivity. }
  assert (Es : Math_sqrt (dx * dx + dy * dy) == 1).
  { apply Hsqrt. rewrite Edx, Edy. ring. }
  set (sv := (Math_atan2 dy dx + Math_sqrt (dx * dx + dy * dy) * 0.01 * inject_Z L)
             / (Math_PI * 2)).
  assert (Esv : sv == (- (Math_PI / 2) + 0.01 * inject_Z L) / (Math_PI * 2)).
  { unfold sv. rewrite Ea, Es. field. discriminate. }
  assert (HL1 : 1 <= inject_Z L) by (apply (inject_Z_le 1 L); lia).
  assert (HL2 : inject_Z L <= 150) by (apply (inject_Z_le L 150); lia).
  assert (Hpi : Math_PI * 2 == 884279719003555 # 140737488355328)
    by reflexivity.
  assert (Hhalf : Math_PI / 2 == 884279719003555 # 562949953421312)
    by reflexivity.
  assert (Hsv : -1 < sv /\ sv < 0).
  { rewrite Esv. set (t := inject_Z L) in *. split.
    - apply Qlt_shift_div_l; [reflexivity|].
      rewrite Hhalf, Hpi. lra.
    - apply Qlt_shift_div_r; [reflexivity|].
      rewrite Hhalf, Hpi. lra. }
  destruct Hsv as [Hsv1 Hsv2].
  assert (Hm : js_fmod sv 1 == sv).
  { apply js_fmod_small; [exact Hsv1|]. lra. }
  assert (Hprod : js_fmod sv 1 * inject_Z a < 0).
  { rewrite Hm.
    assert (Ha' : 0 < inject_Z a) by (apply (inject_Z_lt 0 a); lia).
    setoid_replace 0 with (0 * inject_Z a) by ring.
    apply Qmult_lt_compat_r; assumption. }
  rewrite Zlt_Qlt. eapply Qle_lt_trans; [apply Qfloor_le|exact Hprod].
Qed.

Lemma mapGradient_snoc g l p a L :
  mapGradient (Some g) (l ++ [p]) a L
  = Some (map (fun peg => withColor peg (g peg a L)) l
          ++ [withColor p (g p a L)]).
Proof.
  unfold mapGradient. destruct (l ++ [p]) eqn:E.
  - destruct l; discriminate.
  - rewrite <- E. rewrite map_app. reflexivity.
Qed.

(** Without blending, [applyColorGradient] maps the gradient chosen from the
    first draw over the pegs. *)
Lemma applyColorGradient_single pegs a L n :
  (L <= 6)%Z \/ 0.4 <= rnd (S n) ->
  fst (applyColorGradient pegs a L n)
  = mapGradient
      (gradientAt (js_rem (L + Qfloor (rnd n * 3))
                          (Z.min (len gradientTypes) (2 + L / 2))))
      pegs a L.
Proof.
  intros H. unfold applyColorGradient, bind, Math_random, ret.
  destruct (L >? 6)%Z eqn:E.
  - destruct H as [H|H]; [apply Z.gtb_lt in E; lia|].
    replace (Qltb (rnd (S n)) 0.4) with false; [reflexivity|].
    symmetry. apply Qltb_false. exact H.
  - reflexivity.
Qed.

(** C1. The colour range fails on the code: when the level is between 8 and
    150, the spiral gradient is drawn without blending and the last peg of
    the topped-up layout sits one pixel above the centre of the canvas, the
    last peg returned by [generateLevel] keeps that position and carries a
    negative [colorIndex]; nothing after [spiralGradient] remaps it. *)
Theorem generateLevel_negative_colorIndex (fuel : nat) (levelNumber : Z)
    (n n1 n2 : nat) (layout pegs : list Peg) (p : Peg) :
  (forall dy dx, dx == 0 -> dy < 0 -> Math_atan2 dy dx == - (Math_PI / 2)) ->
  (forall s, s == 1 -> Math_sqrt s == 1) ->
  (8 <= levelNumber <= 150)%Z ->
  levelLayout levelNumber n = (Some layout, n1) ->
  topUp fuel levelNumber layout n1 = (Some (pegs ++ [p]), n2) ->
  js_rem (levelNumber + Qfloor (rnd n2 * 3))
         (Z.min (len gradientTypes) (2 + levelNumber / 2)) = 5%Z ->
  0.4 <= rnd (S n2) ->
  x p == canvasWidth / 2 -> y p == canvasHeight / 2 - 1 ->
  (minPerColor levelNumber <= len pegs)%Z ->
  exists out q,
    fst (generateLevel fuel levelNumber n) = Some (out ++ [q]) /\
    x q = x p /\ y q = y p /\ (colorIndex q < 0)%Z.
Proof.
  intros Hatan Hsqrt HL Hlay Htop Htype Hblend Hx Hy Hmin.
  set (a := getAvailableColors levelNumber).
  assert (Ha : (0 < a)%Z).
  { unfold a. destruct (getAvailableColors_cases levelNumber) as [E|[E|E]];
      rewrite E; lia. }
  unfold generateLevel, bindE. unfold bind at 1. rewrite Hlay.
  unfold bind at 1. rewrite Htop. fold a.
  unfold balanceColors, bindE, bind, ret.
  replace (levelNumber >? 3)%Z with true by (symmetry; apply Z.gtb_lt; lia).
  (* the clamp stage keeps the positions *)
  pose proof (clampColors_pos (pegs ++ [p]) a) as Hcl.
  destruct (exists_last (l := clampColors (pegs ++ [p]) a)) as (cl & p' & Ecl).
  { intro E. rewrite E in Hcl. destruct pegs; discriminate. }
  rewrite Ecl in Hcl. rewrite !map_app in Hcl. cbn [map] in Hcl.
  apply app_inj_tail in Hcl. destruct Hcl as [Hcl Hp'].
  assert (Hlen : len cl = len pegs).
  { unfold len. rewrite <- (length_map pos cl), Hcl, length_map. reflexivity. }
  pose proof (applyColorGradient_single (clampColors (pegs ++ [p]) a) a
                levelNumber n2 (or_intror Hblend)) as Hgrad.
  rewrite Htype in Hgrad.
  change (gradientAt 5) with (Some spiralGradient) in Hgrad.
  rewrite Ecl, mapGradient_snoc in Hgrad. rewrite Ecl.
  destruct (applyColorGradient (cl ++ [p']) a levelNumber n2) as [o n3].
  cbn [fst] in Hgrad. subst o. cbn [fst].
  set (q := withColor p' (spiralGradient p' a levelNumber)).
  assert (Hq : (colorIndex q < 0)%Z).
  { unfold q. cbn [colorIndex withColor].
    injection Hp' as Hx' Hy'.
    apply spiralGradient_negative; auto.
    - rewrite Hx'. exact Hx.
    - rewrite Hy'. exact Hy.
    - lia. }
  destruct (ensureMinimumColorCounts_keeps_negative
              (map (fun peg => withColor peg (spiralGradient peg a levelNumber)) cl)
              q a levelNumber Ha) as (out & Hout & _).
  - lia.
  - exact Hq.
  - unfold len in *. rewrite length_map. lia.
  - exists out, q. rewrite Hout. split; [reflexivity|].
    injection Hp' as Hx' Hy'. unfold q. cbn [x y withColor]. auto.
Qed.

(** ** The per-colour minimum *)






(** *** Levels from 11 on: eight colours, minimum 3 *)








Lemma balanceColors_last_stage pegs a L n out :
  fst (balanceColors pegs a L n) = Some out ->
  exists colorPatterned,
    out = ensureMinimumColorCounts colorPatterned a L /\
    map pos colorPatterned = map pos pegs.
Proof.
  unfold balanceColors, bindE, bind, ret.
  destruct (L >? 3)%Z.
  - pose proof (applyColorGradient_pos (clampColors pegs a) a L n) as H.
    destruct (applyColorGradient (clampColors pegs a) a L n) as [[cp|] n1];
      cbn [fst]; [|discriminate].
    intros [= <-]. exists cp. split; [reflexivity|].
    rewrite (H cp eq_refl). apply clampColors_pos.
  - cbn [fst]. intros [= <-]. exists (clampColors pegs a).
    split; [reflexivity|apply clampColors_pos].
Qed.


(** * Further properties of the generator *)

(** ** Peg counts, colour tables and spacing *)

(** X1. [getMinimumPegCount] grows with the level from 35 at level 1 by 5 a
    level and stays at [maxPegCount = 120] from level 18 on. *)
Theorem getMinimumPegCount_growth (levelNumber levelNumber' : Z) :
  (1 <= levelNumber <= levelNumber')%Z ->
  (35 <= getMinimumPegCount levelNumber)%Z /\
  (getMinimumPegCount levelNumber <= getMinimumPegCount levelNumber')%Z /\
  (getMinimumPegCount levelNumber' <= 120)%Z /\
  ((levelNumber <= 18)%Z ->
   getMinimumPegCount levelNumber = (35 + 5 * (levelNumber - 1))%Z) /\
  ((18 <= levelNumber)%Z -> getMinimumPegCount levelNumber = 120%Z).
Proof.
  intros H. unfold getMinimumPegCount, minPegCountPerLevel,
    pegIncreasePerLevel, maxPegCount.
  repeat split; intros; lia.
Qed.

(** X2. The colour table of game.js agrees with [getAvailableColors] of the
    generator on every integer level, the levels below 1 included. *)
Theorem getAvailableColorsForLevel_agrees (level : Z) :
  getAvailableColorsForLevel level = getAvailableColors level.
Proof.
  unfold getAvailableColorsForLevel, getAvailableColors, colorProgression.
  cbn [getAvailableColors_loop].
  destruct (Z.leb_spec level 2); destruct (Z.leb_spec level 10);
    destruct (level >=? 1)%Z eqn:E1; destruct (level >=? 3)%Z eqn:E3;
    destruct (level >=? 11)%Z eqn:E11; cbn [andb];
    rewrite ?Z.geb_leb, ?Z.leb_le, ?Z.leb_gt in *; try reflexivity; lia.
Qed.

(** X3. The spacing of a level never goes below [pegRadius * 2.3], does not
    increase with the level, and is exactly [pegRadius * 2.3] once
    [50 - levelNumber * 1.8] has fallen to it. *)
Theorem levelSpacing_antitone (levelNumber levelNumber' : Z) :
  (levelNumber <= levelNumber')%Z ->
  pegRadius * 2.3 <= levelSpacing levelNumber' /\
  levelSpacing levelNumber' <= levelSpacing levelNumber /\
  (50 - inject_Z levelNumber * 1.8 <= pegRadius * 2.3 ->
   levelSpacing levelNumber' == pegRadius * 2.3).
Proof.
  intros H. unfold levelSpacing, minPegSpacing.
  assert (Hq : inject_Z levelNumber <= inject_Z levelNumber')
    by now apply inject_Z_le.
  set (t := inject_Z levelNumber) in *. set (t' := inject_Z levelNumber') in *.
  destruct (Qmax_spec (50 - t * 1.8) (pegRadius * 2.3)) as [[H1 E1]|[H1 E1]];
    destruct (Qmax_spec (50 - t' * 1.8) (pegRadius * 2.3)) as [[H2 E2]|[H2 E2]];
    rewrite E1, E2; repeat split; intros; lra.
Qed.

(** ** The gradient functions *)

Lemma Qfloor_range q a :
  0 <= q -> q < inject_Z a -> (0 <= Qfloor q < a)%Z.
Proof.
  intros H0 Ha. split; [now apply Qfloor_nonneg|].
  rewrite Zlt_Qlt. eapply Qle_lt_trans; [apply Qfloor_le|exact Ha].
Qed.

Lemma Qmult_unit_range q a :
  0 <= q -> q < 1 -> (0 < a)%Z ->
  0 <= q * inject_Z a /\ q * inject_Z a < inject_Z a.
Proof.
  intros H0 H1 Ha.
  assert (Ha' : 0 < inject_Z a) by (apply (inject_Z_lt 0 a); exact Ha).
  set (t := inject_Z a) in *. split.
  - apply Qmult_le_0_compat; lra.
  - setoid_replace t with (1 * t) at 2 by ring.
    apply Qmult_lt_compat_r; assumption.
Qed.

Lemma hashFunction_bounds hx hy seed :
  (0 <= hashFunction hx hy seed <= 966)%Z.
Proof.
  unfold hashFunction, js_rem.
  set (v := Z.lxor _ _).
  pose proof (Z.rem_bound_abs v 967 ltac:(lia)) as H.
  pose proof (Z.abs_nonneg (Z.rem v 967)). lia.
Qed.


(** X5. [patternGradient] always yields a colour of [0, availableColors):
    [hashFunction] returns an integer of [0, 966], so its remainder is not
    negative. *)
Theorem patternGradient_range (peg : Peg) (availableColors levelNumber : Z) :
  (0 < availableColors)%Z ->
  (0 <= patternGradient peg availableColors levelNumber < availableColors)%Z /\
  (patternGradient peg availableColors levelNumber <= 966)%Z.
Proof.
  intros Ha. unfold patternGradient.
  set (h := hashFunction _ _ _).
  pose proof (hashFunction_bounds
                (Qfloor (x peg / inject_Z (100 - levelNumber * 2)))
                (Qfloor (y peg / inject_Z (100 - levelNumber * 2)))
                levelNumber) as Hh.
  fold h in Hh. split.
  - apply js_rem_range; lia.
  - unfold js_rem. pose proof (Z.rem_bound_pos h availableColors).
    destruct (Z_lt_le_dec h availableColors) as [Hlt|Hge].
    + rewrite Z.rem_small; lia.
    + lia.
Qed.

Lemma Qdiv_unit_range n d :
  0 <= n -> n < d -> 0 <= n / d /\ n / d < 1.
Proof.
  intros Hn Hd. assert (Hpos : 0 < d) by lra. split.
  - apply Qle_shift_div_l; [exact Hpos|]. lra.
  - apply Qlt_shift_div_r; [exact Hpos|]. lra.
Qed.

(** X6. For a peg between the horizontal margins [horizontalGradient]
    yields a colour of [0, availableColors), and for a peg inside the canvas
    height so does [verticalGradient]; on the right margin itself
    [horizontalGradient] yields [availableColors]. *)
Theorem linearGradient_range (peg : Peg) (availableColors levelNumber : Z) :
  (0 < availableColors)%Z ->
  (horizontalMargin <= x peg -> x peg < canvasWidth - horizontalMargin ->
   (0 <= horizontalGradient peg availableColors levelNumber
    < availableColors)%Z) /\
  (0 <= y peg -> y peg < canvasHeight ->
   (0 <= verticalGradient peg availableColors levelNumber
    < availableColors)%Z) /\
  (2 * horizontalMargin < canvasWidth ->
   x peg == canvasWidth - horizontalMargin ->
   horizontalGradient peg availableColors levelNumber = availableColors).
Proof.
  intros Ha. split; [|split].
  - intros H1 H2. unfold horizontalGradient.
    destruct (Qdiv_unit_range (x peg - horizontalMargin)
                (canvasWidth - 2 * horizontalMargin)) as [G1 G2]; [lra|lra|].
    destruct (Qmult_unit_range _ availableColors G1 G2 Ha).
    now apply Qfloor_range.
  - intros H1 H2. unfold verticalGradient.
    destruct (Qdiv_unit_range (y peg) canvasHeight H1 H2) as [G1 G2].
    destruct (Qmult_unit_range _ availableColors G1 G2 Ha).
    now apply Qfloor_range.
  - intros Hw Hx. unfold horizontalGradient.
    assert (E : (x peg - horizontalMargin) / (canvasWidth - 2 * horizontalMargin)
                * inject_Z availableColors == inject_Z availableColors).
    { rewrite Hx. field. lra. }
    rewrite E. apply Qfloor_Z.
Qed.

(** X7. For a level that is not negative and a peg right of the canvas
    origin [stripeGradient] yields a colour of [0, availableColors); the
    stripes are 40, 55 or 70 wide. *)
Theorem stripeGradient_range (peg : Peg) (availableColors levelNumber : Z) :
  (0 < availableColors)%Z -> (0 <= levelNumber)%Z -> 0 <= x peg ->
  (0 <= stripeGradient peg availableColors levelNumber < availableColors)%Z.
Proof.
  intros Ha HL Hx. unfold stripeGradient.
  apply js_rem_range; [|exact Ha].
  apply Qfloor_nonneg.
  assert (Hs : (40 <= 40 + js_rem levelNumber 3 * 15)%Z).
  { pose proof (js_rem_range levelNumber 3 HL ltac:(lia)). lia. }
  assert (Hs' : 40 <= inject_Z (40 + js_rem levelNumber 3 * 15))
    by (apply (inject_Z_le 40); exact Hs).
  set (s := inject_Z (40 + js_rem levelNumber 3 * 15)) in *.
  apply Qle_shift_div_l; lra.
Qed.

(** ** Colour balancing, peg by peg *)

Lemma convertPegs_Forall2 donor color needed pegs :
  forall k0 cc,
    Forall2 (keptOrRecolored donor color) pegs
            (fst (fst (convertPegs donor color needed k0 cc pegs))).
Proof.
  induction pegs as [|peg rest IH]; intros k0 cc; [constructor|].
  cbn [convertPegs]. destruct (k0 <? needed)%Z.
  - destruct (donor (colorIndex peg)) eqn:Ed.
    + specialize (IH (k0 + 1)%Z (incr (decr cc (colorIndex peg)) color)).
      destruct (convertPegs donor color needed (k0 + 1) _ rest) as [[o c] k].
      cbn [fst] in *. constructor; [right; auto|exact IH].
    + specialize (IH k0 cc).
      destruct (convertPegs donor color needed k0 cc rest) as [[o c] k].
      cbn [fst] in *. constructor; [now left|exact IH].
  - cbn [fst]. clear IH.
    induction (peg :: rest); constructor; [now left|assumption].
Qed.

Lemma Forall2_compose {A} (R1 R2 R3 : A -> A -> Prop) :
  (forall a b c, R1 a b -> R2 b c -> R3 a c) ->
  forall l1 l2 l3, Forall2 R1 l1 l2 -> Forall2 R2 l2 l3 -> Forall2 R3 l1 l3.
Proof.
  intros H l1 l2 l3 H12. revert l3.
  induction H12 as [|a b l1 l2 Hab H12 IH]; intros l3 H23.
  - inversion H23. constructor.
  - inversion H23 as [|? c ? l3' Hbc H23']; subst.
    constructor; [eapply H; eassumption|apply IH; assumption].
Qed.

Lemma Forall2_same {A} (R : A -> A -> Prop) :
  (forall a, R a a) -> forall l, Forall2 R l l.
Proof. intros H l. induction l; constructor; auto. Qed.

(** A peg leaves a step of the colour loop as it came, or it had an
    unprotected colour other than the one being raised and now has that
    one. *)
Lemma ensureColor_Forall2 L a pegs cc color :
  Forall2 (keptOrRecolored (anyDonor L color) color) pegs
          (fst (ensureColor L a (pegs, cc) color)).
Proof.
  assert (Hrefl : Forall2 (keptOrRecolored (anyDonor L color) color) pegs pegs)
    by (apply Forall2_same; intro; now left).
  unfold ensureColor.
  destruct (color >=? a)%Z; [exact Hrefl|].
  destruct (cc color <? adjustedMinimum L color)%Z; [|exact Hrefl].
  set (needed := (adjustedMinimum L color - cc color)%Z).
  destruct (excessColors L a color cc) as [|e es] eqn:Eex.
  - pose proof (convertPegs_Forall2 (anyDonor L color) color needed pegs 0%Z cc)
      as H.
    destruct (convertPegs (anyDonor L color) color needed 0 cc pegs)
      as [[o c] k]. exact H.
  - rewrite <- Eex.
    set (donorA := fun c => existsb (Z.eqb c) (excessColors L a color cc)).
    assert (HA : forall p q, keptOrRecolored donorA color p q ->
                             keptOrRecolored (anyDonor L color) color p q).
    { intros p q [H|[Hd H]]; [now left|right]. split; [|exact H].
      unfold donorA in Hd. apply existsb_eqb_in in Hd.
      apply excessColors_spec in Hd. destruct Hd as (_ & H2 & H3 & _).
      rewrite anyDonor_spec, H2. cbn [negb]. rewrite andb_true_r.
      apply negb_true_iff. now apply Z.eqb_neq. }
    pose proof (convertPegs_Forall2 donorA color needed pegs 0%Z cc) as H1.
    destruct (convertPegs donorA color needed 0 cc pegs) as [[o1 c1] k1].
    cbn [fst] in H1.
    assert (H1' : Forall2 (keptOrRecolored (anyDonor L color) color) pegs o1).
    { eapply Forall2_impl; [|exact H1]. exact HA. }
    destruct (k1 <? needed)%Z; [|exact H1'].
    pose proof (convertPegs_Forall2 (anyDonor L color) color needed o1 k1 c1)
      as H2.
    destruct (convertPegs (anyDonor L color) color needed k1 c1 o1)
      as [[o2 c2] k2].
    cbn [fst] in *.
    eapply Forall2_compose; [|exact H1'|exact H2].
    intros p q r [Hq|[Hd Hq]] [Hr|[Hd' Hr]]; subst.
    + now left.
    + right. auto.
    + right. auto.
    + cbn [colorIndex withColor] in Hd'.
      rewrite anyDonor_spec, Z.eqb_refl in Hd'. discriminate.
Qed.

Lemma fold_ensureColor_protected L a colors :
  forall pegs cc,
    Forall2 (fun p q => protectedColor L (colorIndex p) = true -> q = p)
            pegs (fst (fold_left (ensureColor L a) colors (pegs, cc))).
Proof.
  induction colors as [|c cs IH]; intros pegs cc.
  - apply Forall2_same. auto.
  - cbn [fold_left].
    pose proof (ensureColor_Forall2 L a pegs cc c) as H1.
    destruct (ensureColor L a (pegs, cc) c) as [p1 c1]. cbn [fst] in H1.
    eapply Forall2_compose; [|exact H1|apply IH].
    intros p q r [Hq|[Hd Hq]] Hr Hp; subst.
    + auto.
    + rewrite anyDonor_spec, Hp in Hd. cbn [negb] in Hd.
      rewrite andb_false_r in Hd. discriminate.
Qed.

(** X8. On level 3 [ensureMinimumColorCounts] never takes the colour of a
    cyan peg: index by index, a peg that enters with colour 5 leaves as it
    came. *)
Theorem ensureMinimumColorCounts_protects_cyan (pegs : list Peg) :
  Forall2 (fun p q => colorIndex p = 5%Z -> q = p)
          pegs (ensureMinimumColorCounts pegs (getAvailableColors 3) 3).
Proof.
  change (getAvailableColors 3) with 6%Z.
  rewrite (ensureMinimumColorCounts_fold pegs 6 3) by lia. cbv zeta.
  set (pegs1 := map (wrapColor 6) pegs).
  eapply Forall2_compose with
    (R1 := fun p q => colorIndex p = 5%Z -> q = p)
    (R2 := fun p q => protectedColor 3 (colorIndex p) = true -> q = p)
    (l2 := pegs1).
  - intros p q r Hq Hr Hp. rewrite (Hq Hp) in *. apply Hr.
    unfold protectedColor. rewrite Hp. reflexivity.
  - unfold pegs1. clear pegs1. induction pegs as [|p l IH]; constructor.
    + intros Hp. unfold wrapColor. rewrite Hp. reflexivity.
    + exact IH.
  - apply fold_ensureColor_protected.
Qed.

Lemma ensureMinimumColorCounts_below pegs a L :
  (0 < a)%Z ->
  Forall (fun p => (colorIndex p < a)%Z) (ensureMinimumColorCounts pegs a L).
Proof.
  intros Ha. rewrite (ensureMinimumColorCounts_fold pegs a L Ha). cbv zeta.
  apply fold_ensureColor_invariants.
  - apply exactCounts_initial.
  - apply wrapColor_below. exact Ha.
Qed.

(** X9. The upper half of the colour range holds: whatever the level and
    the draws, no peg returned by [generateLevel] has a [colorIndex] equal to
    or above [getAvailableColors(levelNumber)]. *)
Theorem generateLevel_color_below (fuel : nat) (levelNumber : Z) (n : nat)
    (out : list Peg) :
  fst (generateLevel fuel levelNumber n) = Some out ->
  forall peg, In peg out ->
    (colorIndex peg < getAvailableColors levelNumber)%Z.
Proof.
  intros Hgen.
  destruct (generateLevel_stages fuel levelNumber n out Hgen)
    as (layout & n1 & topped & n2 & _ & _ & Hbal).
  destruct (balanceColors_last_stage _ _ _ _ _ Hbal) as (cp & Hout & _).
  apply Forall_forall. rewrite Hout.
  apply ensureMinimumColorCounts_below.
  destruct (getAvailableColors_cases levelNumber) as [E|[E|E]]; rewrite E; lia.
Qed.

(** X10. [ensureMinimumColorCounts] changes nothing when there is nothing to
    do: on a list whose colours are all below [availableColors] and in which
    every colour of [0, availableColors) already has its minimum, the result
    is the list itself. *)
Theorem ensureMinimumColorCounts_satisfied (pegs : list Peg)
    (availableColors levelNumber : Z) :
  (0 < availableColors)%Z ->
  Forall (fun p => (colorIndex p < availableColors)%Z) pegs ->
  (forall c, (0 <= c < availableColors)%Z ->
             (adjustedMinimum levelNumber c <= countColor c pegs)%Z) ->
  ensureMinimumColorCounts pegs availableColors levelNumber = pegs.
Proof.
  intros Ha Hall Hmin.
  rewrite (ensureMinimumColorCounts_fold pegs availableColors levelNumber Ha).
  cbv zeta. rewrite (wrapColor_id availableColors pegs Hall).
  set (cc := fold_left (fun cc peg => incr cc (colorIndex peg)) pegs zeroCounts).
  assert (Hex : exactCounts cc pegs) by apply exactCounts_initial.
  assert (Hstep : forall c, (0 <= c)%Z ->
            ensureColor levelNumber availableColors (pegs, cc) c = (pegs, cc)).
  { intros c Hc. unfold ensureColor.
    destruct (c >=? availableColors)%Z eqn:E; [reflexivity|].
    assert (c < availableColors)%Z
      by (rewrite Z.geb_leb in E; apply Z.leb_gt in E; lia).
    replace (cc c <? adjustedMinimum levelNumber c)%Z with false;
      [reflexivity|].
    symmetry. apply Z.ltb_ge. rewrite (Hex c). apply Hmin. lia. }
  assert (Hord : Forall (fun c => (0 <= c)%Z)
                        (colorOrder levelNumber availableColors)).
  { unfold colorOrder. destruct (levelNumber =? 3)%Z.
    - repeat constructor; lia.
    - apply Forall_forall. intros c Hc. apply in_zupto in Hc. lia. }
  induction Hord as [|c cs Hc Hcs IH]; [reflexivity|].
  cbn [fold_left]. rewrite (Hstep c Hc). exact IH.
Qed.

(** ** The clamp stage *)

Lemma leastUsedColor_range cc a :
  (0 < a)%Z -> (0 <= leastUsedColor cc a < a)%Z.
Proof.
  intros Ha. unfold leastUsedColor.
  assert (G : forall l m,
             (0 <= m < a)%Z -> Forall (fun i => (0 <= i < a)%Z) l ->
             (0 <= fold_left
                     (fun minColorIndex i =>
                        if (cc i <? cc minColorIndex)%Z then i
                        else minColorIndex) l m < a)%Z).
  { induction l as [|i l IH]; intros m Hm Hl; [exact Hm|].
    inversion Hl; subst. cbn [fold_left].
    apply IH; [|assumption]. destruct (cc i <? cc m)%Z; assumption. }
  apply G; [lia|].
  apply Forall_forall. intros i Hi. apply in_zupto in Hi. lia.
Qed.

Lemma clampColors_fold_clamped a pegs :
  (0 < a)%Z ->
  forall cc acc,
    exists out,
      snd (fold_left (clampPeg a) pegs (cc, acc)) = acc ++ out /\
      Forall2 (clamped a) pegs out.
Proof.
  intros Ha. induction pegs as [|peg rest IH]; intros cc acc.
  - exists []. cbn. rewrite app_nil_r. split; [reflexivity|constructor].
  - cbn [fold_left]. unfold clampPeg at 2.
    destruct (colorIndex peg >=? a)%Z eqn:E.
    + destruct (IH (incr (decr cc (colorIndex peg)) (leastUsedColor cc a))
                   (acc ++ [withColor peg (leastUsedColor cc a)]))
        as (out & Hout & Hall).
      exists (withColor peg (leastUsedColor cc a) :: out).
      split; [rewrite Hout, <- app_assoc; reflexivity|].
      constructor; [|exact Hall].
      unfold clamped. rewrite E. split; [reflexivity|].
      cbn [colorIndex withColor]. now apply leastUsedColor_range.
    + destruct (IH cc (acc ++ [peg])) as (out & Hout & Hall).
      exists (peg :: out).
      split; [rewrite Hout, <- app_assoc; reflexivity|].
      constructor; [|exact Hall].
      unfold clamped. rewrite E. reflexivity.
Qed.

(** X11. The clamp stage of [balanceColors] leaves every peg whose colour is
    below [availableColors] as it is, the negative colours included, and
    gives every other peg a colour of [0, availableColors) at the same
    position. *)
Theorem clampColors_clamped (pegs : list Peg) (availableColors : Z) :
  (0 < availableColors)%Z ->
  Forall2 (clamped availableColors) pegs (clampColors pegs availableColors).
Proof.
  intros Ha. unfold clampColors.
  destruct (clampColors_fold_clamped availableColors pegs Ha
              (countAvailable availableColors zeroCounts pegs) [])
    as (out & Hout & Hall).
  rewrite Hout. exact Hall.
Qed.

(** ** The overlap and edge filters *)

Lemma ForallOrdPairs_app_inv {A} (R : A -> A -> Prop) l1 a l2 :
  ForallOrdPairs R (l1 ++ a :: l2) -> Forall (fun b => R b a) l1.
Proof.
  induction l1 as [|b l1 IH]; intros H; [constructor|].
  cbn [app] in H. inversion H as [|? ? Hb Hl]; subst.
  constructor.
  - rewrite Forall_forall in Hb. apply Hb. apply in_or_app. right. now left.
  - apply IH. assumption.
Qed.

Lemma Forall_existsb_false {A} (f : A -> bool) l :
  Forall (fun a => f a = false) l -> existsb f l = false.
Proof.
  induction 1 as [|a l Ha Hl IH]; [reflexivity|].
  cbn [existsb]. now rewrite Ha, IH.
Qed.

Lemma removePegOverlaps_loop_fixed d pegs :
  forall result,
    separated d (result ++ pegs) ->
    removePegOverlaps_loop d pegs result = result ++ pegs.
Proof.
  induction pegs as [|peg rest IH]; intros result H.
  - cbn. now rewrite app_nil_r.
  - cbn [removePegOverlaps_loop].
    rewrite (Forall_existsb_false _ _ (ForallOrdPairs_app_inv _ _ _ _ H)).
    rewrite IH; rewrite <- app_assoc; [reflexivity|exact H].
Qed.

Lemma removePegOverlaps_loop_keeps d pegs :
  forall result p,
    In p result -> In p (removePegOverlaps_loop d pegs result).
Proof.
  induction pegs as [|peg rest IH]; intros result p H; [exact H|].
  cbn [removePegOverlaps_loop].
  destruct (existsb _ result); apply IH; [exact H|].
  apply in_or_app. now left.
Qed.

Lemma removePegOverlaps_loop_maximal d pegs :
  forall result p,
    In p pegs ->
    In p (removePegOverlaps_loop d pegs result) \/
    exists q, In q (removePegOverlaps_loop d pegs result) /\
              tooClose d q p = true.
Proof.
  induction pegs as [|peg rest IH]; intros result p H; [destruct H|].
  cbn [removePegOverlaps_loop].
  destruct H as [<-|H]; [|destruct (existsb _ result); apply IH; exact H].
  destruct (existsb (fun existingPeg => tooClose d existingPeg peg) result)
    eqn:E.
  - right. apply existsb_exists in E. destruct E as (q & Hq & Hc).
    exists q. split; [|exact Hc].
    apply removePegOverlaps_loop_keeps. exact Hq.
  - left. apply removePegOverlaps_loop_keeps. apply in_or_app. right. now left.
Qed.

(** X12. [removePegOverlaps] is the greedy filter: in its result no peg is
    closer than [minDistance] to a later one, every peg of the result is a
    peg of the input, every peg of the input is in the result or closer than
    [minDistance] to a peg of the result, and a list that is already
    separated comes back unchanged, so that filtering twice is filtering
    once. *)
Theorem removePegOverlaps_greedy (pegs : list Peg) (minDistance : Q) :
  let out := removePegOverlaps pegs minDistance in
  separated minDistance out /\
  (forall p, In p out -> In p pegs) /\
  (forall p, In p pegs ->
             In p out \/ exists q, In q out /\ tooClose minDistance q p = true) /\
  (separated minDistance pegs -> out = pegs) /\
  removePegOverlaps out minDistance = out.
Proof.
  cbv zeta. split; [apply removePegOverlaps_separated|].
  split; [intros p; apply removePegOverlaps_incl|].
  split; [intros p; apply removePegOverlaps_loop_maximal|].
  assert (Hfix : forall l, separated minDistance l ->
                           removePegOverlaps l minDistance = l).
  { intros l Hl. unfold removePegOverlaps.
    now rewrite removePegOverlaps_loop_fixed. }
  split; [apply Hfix|].
  apply Hfix. apply removePegOverlaps_separated.
Qed.

(** X13. [removeEdgePegs] keeps exactly the pegs that satisfy the four edge
    inequalities; filtering twice is filtering once, a larger distance keeps
    fewer pegs, and the filter does not disturb a separated list. *)
Theorem removeEdgePegs_exact (pegs : list Peg) (minEdgeDistance : Q) :
  (forall peg, In peg (removeEdgePegs pegs minEdgeDistance) <->
               In peg pegs /\ edgeClearance minEdgeDistance peg) /\
  removeEdgePegs (removeEdgePegs pegs minEdgeDistance) minEdgeDistance
  = removeEdgePegs pegs minEdgeDistance /\
  (forall d peg, minEdgeDistance <= d ->
                 In peg (removeEdgePegs pegs d) ->
                 In peg (removeEdgePegs pegs minEdgeDistance)) /\
  (forall d, separated d pegs ->
             separated d (removeEdgePegs pegs minEdgeDistance)).
Proof.
  assert (Hin : forall d peg, In peg (removeEdgePegs pegs d) <->
                              In peg pegs /\ edgeClearance d peg).
  { intros d peg. unfold removeEdgePegs. rewrite filter_In, edgeClear_spec.
    reflexivity. }
  split; [apply Hin|]. split; [|split].
  - unfold removeEdgePegs. induction pegs as [|p l IH]; [reflexivity|].
    cbn [filter]. destruct (edgeClear minEdgeDistance p) eqn:E.
    + cbn [filter]. rewrite E. f_equal. apply IH.
      intros d peg. unfold removeEdgePegs.
      rewrite filter_In, edgeClear_spec. reflexivity.
    + apply IH. intros d peg. unfold removeEdgePegs.
      rewrite filter_In, edgeClear_spec. reflexivity.
  - intros d peg Hd H. apply Hin in H. apply Hin.
    destruct H as [H1 (E1 & E2 & E3 & E4)]. split; [exact H1|].
    unfold edgeClearance. repeat split; lra.
  - intros d. apply removeEdgePegs_separated.
Qed.

(** ** Random placement *)

Lemma random_scaled lo hi r :
  lo <= hi -> 0 <= r -> r < 1 ->
  lo <= lo + r * (hi - lo) /\ lo + r * (hi - lo) <= hi.
Proof.
  intros H H0 H1.
  assert (G0 : 0 <= r * (hi - lo)) by (apply Qmult_le_0_compat; lra).
  assert (G1 : r * (hi - lo) <= 1 * (hi - lo))
    by (apply Qmult_le_compat_r; lra).
  lra.
Qed.

Lemma randomIndex_range r a :
  0 <= r -> r < 1 -> (0 < a)%Z -> (0 <= Qfloor (r * inject_Z a) < a)%Z.
Proof.
  intros H0 H1 Ha. destruct (Qmult_unit_range r a H0 H1 Ha).
  now apply Qfloor_range.
Qed.

Lemma clearOf_existsb d l p x0 y0 c :
  pos p = (x0, y0) ->
  existsb (fun peg => tooClose d peg (mkPeg x0 y0 c)) l = false ->
  clearOf d l p.
Proof.
  intros Hp H. apply existsb_false_Forall in H.
  eapply Forall_impl; [|exact H].
  intros e He. cbv beta in He. rewrite <- He. apply tooClose_pos; [reflexivity|].
  exact Hp.
Qed.

(** The invariant of the loop of [createFillerPegs]. *)
Lemma createFillerPegs_loop_inv remaining minX minY maxX maxY d count
      existing a :
  forall pegs n,
    let out := fst (createFillerPegs_loop remaining minX minY maxX maxY d
                      count existing a pegs n) in
    ((len pegs <= Z.max 0 count)%Z -> (len out <= Z.max 0 count)%Z) /\
    (separated d pegs -> separated d out) /\
    (Forall (clearOf d existing) pegs -> Forall (clearOf d existing) out) /\
    (unitInterval rnd -> minX <= maxX -> minY <= maxY ->
     Forall (inRectangle minX minY maxX maxY) pegs ->
     Forall (inRectangle minX minY maxX maxY) out) /\
    (unitInterval rnd -> (0 < a)%Z ->
     Forall (colorInRange a) pegs -> Forall (colorInRange a) out).
Proof.
  induction remaining as [|remaining IH]; intros pegs n; cbv zeta.
  - cbn [createFillerPegs_loop ret fst].
    split; [|split; [|split; [|split]]]; intros; assumption.
  - cbn [createFillerPegs_loop].
    destruct (len pegs <? count)%Z eqn:Ec.
    2:{ cbn [ret fst]. split; [|split; [|split; [|split]]]; intros; assumption. }
    apply Z.ltb_lt in Ec. unfold bind.
    destruct (fillerAttempt minX minY maxX maxY d existing a pegs n)
      as [pegs1 n1] eqn:Ef.
    specialize (IH pegs1 n1). cbv zeta in IH.
    destruct IH as (I1 & I2 & I3 & I4 & I5).
    unfold fillerAttempt, bind, ret, Math_random in Ef.
    set (px := minX + rnd n * (maxX - minX)) in *.
    set (py := minY + rnd (S n) * (maxY - minY)) in *.
    destruct (existsb (fun peg => tooClose d peg (mkPeg px py 0)) existing)
      eqn:E1.
    { cbn [orb] in Ef. injection Ef as <- <-.
      exact (conj I1 (conj I2 (conj I3 (conj I4 I5)))). }
    destruct (existsb (fun peg => tooClose d peg (mkPeg px py 0)) pegs)
      eqn:E2.
    { cbn [orb] in Ef. injection Ef as <- <-.
      exact (conj I1 (conj I2 (conj I3 (conj I4 I5)))). }
    cbn [orb] in Ef.
    assert (Hshape : exists c,
               pegs1 = pegs ++ [mkPeg px py c] /\
               (unitInterval rnd -> (0 < a)%Z -> (0 <= c < a)%Z)).
    { destruct (Qltb (rnd (S (S n))) 0.7).
      - injection Ef as <- <-. eexists. split; [reflexivity|].
        intros _ Ha. now apply leastUsedColor_range.
      - injection Ef as <- <-. eexists. split; [reflexivity|].
        intros Hr Ha. destruct (Hr (S (S (S n)))).
        now apply randomIndex_range. }
    destruct Hshape as (c & -> & Hc).
    split; [|split; [|split; [|split]]].
    + intros _. apply I1. rewrite len_app. unfold len at 2. cbn. lia.
    + intros Hs. apply I2. apply ForallOrdPairs_app_one; [exact Hs|].
      apply (clearOf_existsb d pegs (mkPeg px py c) px py 0 eq_refl E2).
    + intros Hcl. apply I3. apply Forall_app. split; [exact Hcl|].
      constructor; [|constructor].
      apply (clearOf_existsb d existing (mkPeg px py c) px py 0 eq_refl E1).
    + intros Hr Hx Hy Hin. apply I4; auto. apply Forall_app.
      split; [exact Hin|]. constructor; [|constructor].
      unfold inRectangle. cbn [x y]. split.
      * destruct (Hr n). now apply random_scaled.
      * destruct (Hr (S n)). now apply random_scaled.
    + intros Hr Ha Hcol. apply I5; auto. apply Forall_app.
      split; [exact Hcol|]. constructor; [|constructor].
      unfold colorInRange. cbn [colorIndex]. auto.
Qed.

(** X14. [createFillerPegs] returns at most [count] pegs, none closer than
    [minDistance] to an existing peg or to another new peg; when the draws
    lie in [0, 1) the new pegs lie in the rectangle asked for and their
    colours in [0, availableColors). *)
Theorem createFillerPegs_spaced (minX minY maxX maxY minDistance : Q)
    (count : Z) (existingPegs : list Peg) (availableColors : Z) (n : nat) :
  unitInterval rnd -> minX <= maxX -> minY <= maxY ->
  (0 < availableColors)%Z ->
  let pegs := fst (createFillerPegs minX minY maxX maxY minDistance count
                     existingPegs availableColors n) in
  (len pegs <= Z.max 0 count)%Z /\
  separated minDistance pegs /\
  Forall (clearOf minDistance existingPegs) pegs /\
  Forall (inRectangle minX minY maxX maxY) pegs /\
  Forall (colorInRange availableColors) pegs.
Proof.
  intros Hr Hx Hy Ha. cbv zeta. unfold createFillerPegs.
  destruct (createFillerPegs_loop_inv (Z.to_nat (count * 20)) minX minY maxX
              maxY minDistance count existingPegs availableColors [] n)
    as (I1 & I2 & I3 & I4 & I5).
  split; [|split; [|split; [|split]]].
  - apply I1. unfold len. cbn. lia.
  - apply I2. constructor.
  - apply I3. constructor.
  - apply I4; auto.
  - apply I5; auto.
Qed.

(** ** Loops over a fixed range *)

Lemma foldM_invariant {A S} (Inv : S -> Prop) (f : S -> A -> Rand S)
      (l : list A) :
  (forall s i n, In i l -> Inv s -> Inv (fst (f s i n))) ->
  forall s n, Inv s -> Inv (fst (foldM f l s n)).
Proof.
  induction l as [|a l IH]; intros Hf s n Hs; [exact Hs|].
  cbn [foldM]. unfold bind.
  pose proof (Hf s a n (or_introl eq_refl) Hs) as H1.
  destruct (f s a n) as [s1 n1]. cbn [fst] in H1.
  apply IH; [|exact H1].
  intros s' i n' Hi. apply Hf. now right.
Qed.

Lemma foldM_length_le {A B} (f : list B -> A -> Rand (list B)) (l : list A)
      (k : Z) :
  (forall s i n, (len (fst (f s i n)) <= len s + k)%Z) ->
  forall s n, (len (fst (foldM f l s n)) <= len s + k * len l)%Z.
Proof.
  intros Hf. induction l as [|a l IH]; intros s n.
  - cbn [foldM ret fst]. change (len (@nil A)) with 0%Z. lia.
  - cbn [foldM]. unfold bind. specialize (Hf s a n).
    destruct (f s a n) as [s1 n1]. cbn [fst] in Hf.
    specialize (IH s1 n1).
    replace (len (a :: l)) with (1 + len l)%Z
      by (unfold len; cbn [List.length]; lia).
    lia.
Qed.

Lemma foldM_length_eq {A B} (f : list B -> A -> Rand (list B)) (l : list A)
      (k : Z) :
  (forall s i n, len (fst (f s i n)) = (len s + k)%Z) ->
  forall s n, len (fst (foldM f l s n)) = (len s + k * len l)%Z.
Proof.
  intros Hf. induction l as [|a l IH]; intros s n.
  - cbn [foldM ret fst]. change (len (@nil A)) with 0%Z. lia.
  - cbn [foldM]. unfold bind. specialize (Hf s a n).
    destruct (f s a n) as [s1 n1]. cbn [fst] in Hf.
    specialize (IH s1 n1).
    replace (len (a :: l)) with (1 + len l)%Z
      by (unfold len; cbn [List.length]; lia).
    lia.
Qed.

Lemma len_zupto lo hi : len (zupto lo hi) = Z.max 0 (hi - lo).
Proof.
  unfold zupto, len.
  assert (G : forall n l, List.length (zrange l n) = n).
  { induction n; intros l; cbn; [reflexivity|]. now rewrite IHn. }
  rewrite G. lia.
Qed.

(** ** createGridPattern *)

Lemma currentColors_pos cur : (0 < currentColors cur)%Z.
Proof.
  unfold currentColors.
  destruct (getAvailableColors_cases (if (cur =? 0)%Z then 1%Z else cur))
    as [E|[E|E]]; rewrite E; lia.
Qed.

Lemma gridCell_shape a startX startY p density row pegs col m :
  (fst (gridCell a startX startY p density row pegs col m) = pegs /\
   rnd m > density) \/
  exists c,
    fst (gridCell a startX startY p density row pegs col m)
    = pegs ++ [mkPeg (startX + inject_Z col * p) (startY + inject_Z row * p) c]
    /\ (unitInterval rnd -> (0 < a)%Z -> (0 <= c < a)%Z).
Proof.
  unfold gridCell, bind, ret, Math_random, randomColor.
  destruct (Qltb density (rnd m)) eqn:E.
  - left. split; [reflexivity|]. now apply Qltb_true.
  - right. eexists. split; [reflexivity|].
    intros Hr Ha. destruct (Hr (S m)). now apply randomIndex_range.
Qed.

Lemma createGridPattern_onGrid cur startX startY columns rows p density n :
  Forall (onGrid startX startY p rows columns)
         (fst (createGridPattern cur startX startY columns rows p density n)).
Proof.
  unfold createGridPattern.
  apply (foldM_invariant (Forall (onGrid startX startY p rows columns)));
    [|constructor].
  intros s row m Hrow Hs. apply in_zupto in Hrow.
  apply (foldM_invariant (Forall (onGrid startX startY p rows columns)));
    [|exact Hs].
  intros s' col m' Hcol Hs'. apply in_zupto in Hcol.
  destruct (gridCell_shape (currentColors cur) startX startY p density row s'
              col m') as [[E _]|(c & E & _)];
    rewrite E; [exact Hs'|].
  apply Forall_app. split; [exact Hs'|]. constructor; [|constructor].
  exists row, col. repeat split; lia.
Qed.

Lemma createGridPattern_len cur startX startY columns rows p density n :
  (len (fst (createGridPattern cur startX startY columns rows p density n))
   <= Z.max 0 rows * Z.max 0 columns)%Z.
Proof.
  unfold createGridPattern.
  pose proof (foldM_length_le
                (fun pegs row =>
                   foldM (gridCell (currentColors cur) startX startY p density
                            row) (zupto 0 columns) pegs)
                (zupto 0 rows) (Z.max 0 columns)) as H.
  rewrite len_zupto, Z.sub_0_r in H.
  specialize (fun Hf => H Hf [] n). change (len (@nil Peg)) with 0%Z in H.
  rewrite Z.mul_comm. apply H. clear H.
  intros s row m.
  pose proof (foldM_length_le
                (gridCell (currentColors cur) startX startY p density row)
                (zupto 0 columns) 1) as H.
  rewrite len_zupto, Z.sub_0_r, Z.mul_1_l in H. apply H.
  intros s' col m'.
  destruct (gridCell_shape (currentColors cur) startX startY p density row s'
              col m') as [[E _]|(c & E & _)];
    rewrite E; [lia|].
  rewrite len_app. unfold len at 2. cbn. lia.
Qed.

(** X15. [createGridPattern] puts its pegs on lattice points of the grid of
    [rows] by [columns], at most one per point; no two of them are closer
    than [pegSpacing * 0.8], so the overlap filter at that distance returns
    the grid unchanged.  When the draws lie in [0, 1) the colours are
    available ones, and with a density of 1 or more every lattice point
    carries a peg. *)
Theorem createGridPattern_lattice (currentLevelNumber : Z) (startX startY : Q)
    (columns rows : Z) (pegSpacing density : Q) (n : nat) :
  let pegs := fst (createGridPattern currentLevelNumber startX startY columns
                     rows pegSpacing density n) in
  Forall (onGrid startX startY pegSpacing rows columns) pegs /\
  (len pegs <= Z.max 0 rows * Z.max 0 columns)%Z /\
  separated (pegSpacing * 0.8) pegs /\
  removePegOverlaps pegs (pegSpacing * 0.8) = pegs /\
  (unitInterval rnd ->
   Forall (colorInRange (currentColors currentLevelNumber)) pegs /\
   (1 <= density -> len pegs = (Z.max 0 rows * Z.max 0 columns)%Z)).
Proof.
  cbv zeta.
  pose proof (createGridPattern_separated currentLevelNumber startX startY
                columns rows pegSpacing density n) as Hsep.
  split; [apply createGridPattern_onGrid|].
  split; [apply createGridPattern_len|].
  split; [exact Hsep|]. split.
  - unfold removePegOverlaps.
    now rewrite removePegOverlaps_loop_fixed.
  - intros Hr. split.
    + unfold createGridPattern.
      apply (foldM_invariant (Forall (colorInRange (currentColors currentLevelNumber))));
        [|constructor].
      intros s row m _ Hs.
      apply (foldM_invariant (Forall (colorInRange (currentColors currentLevelNumber))));
        [|exact Hs].
      intros s' col m' _ Hs'.
      destruct (gridCell_shape (currentColors currentLevelNumber) startX startY
                  pegSpacing density row s' col m') as [[E _]|(c & E & Hc)];
        rewrite E; [exact Hs'|].
      apply Forall_app. split; [exact Hs'|]. constructor; [|constructor].
      apply Hc; [exact Hr|apply currentColors_pos].
    + intros Hd. unfold createGridPattern.
      pose proof (foldM_length_eq
                    (fun pegs row =>
                       foldM (gridCell (currentColors currentLevelNumber) startX
                                startY pegSpacing density row)
                         (zupto 0 columns) pegs)
                    (zupto 0 rows) (Z.max 0 columns)) as H.
      rewrite len_zupto, Z.sub_0_r in H.
      specialize (fun Hf => H Hf [] n). change (len (@nil Peg)) with 0%Z in H.
      rewrite Z.mul_comm. apply H. clear H.
      intros s row m.
      pose proof (foldM_length_eq
                    (gridCell (currentColors currentLevelNumber) startX startY
                       pegSpacing density row) (zupto 0 columns) 1) as H.
      rewrite len_zupto, Z.sub_0_r, Z.mul_1_l in H. apply H.
      intros s' col m'.
      destruct (gridCell_shape (currentColors currentLevelNumber) startX startY
                  pegSpacing density row s' col m') as [[E Hgt]|(c & E & _)].
      * exfalso. destruct (Hr m'). lra.
      * rewrite E, len_app. unfold len at 2. cbn. lia.
Qed.

(** ** The layout of level 1 *)


(** ** createRandomPattern *)

Lemma createRandomPattern_loop_inv remaining minX minY maxX maxY d count a :
  forall pegs n,
    let out := fst (createRandomPattern_loop remaining minX minY maxX maxY d
                      count a pegs n) in
    ((len pegs <= Z.max 0 count)%Z -> (len out <= Z.max 0 count)%Z) /\
    (separated d pegs -> separated d out) /\
    (unitInterval rnd -> minX <= maxX -> minY <= maxY ->
     Forall (inRectangle minX minY maxX maxY) pegs ->
     Forall (inRectangle minX minY maxX maxY) out) /\
    (unitInterval rnd -> (0 < a)%Z ->
     Forall (colorInRange a) pegs -> Forall (colorInRange a) out).
Proof.
  induction remaining as [|remaining IH]; intros pegs n; cbv zeta.
  - cbn [createRandomPattern_loop ret fst].
    split; [|split; [|split]]; intros; assumption.
  - cbn [createRandomPattern_loop].
    destruct (len pegs <? count)%Z eqn:Ec.
    2:{ cbn [ret fst]. split; [|split; [|split]]; intros; assumption. }
    apply Z.ltb_lt in Ec. unfold bind.
    destruct (randomAttempt minX minY maxX maxY d a pegs n)
      as [pegs1 n1] eqn:Ef.
    specialize (IH pegs1 n1). cbv zeta in IH.
    destruct IH as (I1 & I2 & I3 & I4).
    unfold randomAttempt, bind, ret, Math_random, randomColor in Ef.
    set (px := minX + rnd n * (maxX - minX)) in *.
    set (py := minY + rnd (S n) * (maxY - minY)) in *.
    destruct (existsb (fun peg => tooClose d peg (mkPeg px py 0)) pegs)
      eqn:E2.
    { injection Ef as <- <-. exact (conj I1 (conj I2 (conj I3 I4))). }
    cbv beta iota in Ef.
    assert (Hshape : pegs1 = pegs ++ [mkPeg px py
                                        (Qfloor (rnd (S (S n)) * inject_Z a))])
      by (symmetry; exact (f_equal fst Ef)).
    clear Ef. subst pegs1.
    split; [|split; [|split]].
    + intros _. apply I1. rewrite len_app. unfold len at 2. cbn. lia.
    + intros Hs. apply I2. apply ForallOrdPairs_app_one; [exact Hs|].
      apply (clearOf_existsb d pegs
               (mkPeg px py (Qfloor (rnd (S (S n)) * inject_Z a)))
               px py 0 eq_refl E2).
    + intros Hr Hx Hy Hin. apply I3; auto. apply Forall_app.
      split; [exact Hin|]. constructor; [|constructor].
      unfold inRectangle. cbn [x y]. split.
      * destruct (Hr n). now apply random_scaled.
      * destruct (Hr (S n)). now apply random_scaled.
    + intros Hr Ha Hcol. apply I4; auto. apply Forall_app.
      split; [exact Hcol|]. constructor; [|constructor].
      unfold colorInRange. cbn [colorIndex].
      destruct (Hr (S (S n))). now apply randomIndex_range.
Qed.

(** X17. [createRandomPattern] returns at most [count] pegs, no two of them
    closer than [minDistance]; when the draws lie in [0, 1) the pegs lie in
    the rectangle asked for and carry colours available at the current
    level. *)
Theorem createRandomPattern_spaced (currentLevelNumber : Z)
    (minX minY maxX maxY minDistance : Q) (count : Z) (n : nat) :
  unitInterval rnd -> minX <= maxX -> minY <= maxY ->
  let pegs := fst (createRandomPattern currentLevelNumber minX minY maxX maxY
                     minDistance count n) in
  (len pegs <= Z.max 0 count)%Z /\
  separated minDistance pegs /\
  Forall (inRectangle minX minY maxX maxY) pegs /\
  Forall (colorInRange (currentColors currentLevelNumber)) pegs.
Proof.
  intros Hr Hx Hy. cbv zeta. unfold createRandomPattern.
  destruct (createRandomPattern_loop_inv (Z.to_nat (count * 10)) minX minY
              maxX maxY minDistance count (currentColors currentLevelNumber)
              [] n) as (I1 & I2 & I3 & I4).
  split; [|split; [|split]].
  - apply I1. change (len (@nil Peg)) with 0%Z. lia.
  - apply I2. constructor.
  - apply I3; auto.
  - apply I4; auto. apply currentColors_pos.
Qed.

(** ** ensureMinimumPegs *)


(** ** applyProceduralNoise *)

Lemma bind_eq {A B} (m : Rand A) (k : A -> Rand B) n :
  bind m k n = k (fst (m n)) (snd (m n)).
Proof. unfold bind. destruct (m n). reflexivity. Qed.

Lemma mapM_Forall2 {A B} (R : A -> B -> Prop) (f : A -> Rand B) :
  forall l,
    (forall a n, In a l -> R a (fst (f a n))) ->
    forall n, Forall2 R l (fst (mapM f l n)).
Proof.
  induction l as [|a l IH]; intros Hf n; [constructor|].
  cbn [mapM]. unfold bind.
  pose proof (Hf a n (or_introl eq_refl)) as H1.
  destruct (f a n) as [b n1].
  assert (H2 : Forall2 R l (fst (mapM f l n1)))
    by (apply IH; intros; apply Hf; now right).
  destruct (mapM f l n1) as [bs n2].
  constructor; assumption.
Qed.

Lemma filterM_incl {A} (f : A -> Rand bool) :
  forall l n,
    (forall a, In a (fst (filterM f l n)) -> In a l) /\
    (len (fst (filterM f l n)) <= len l)%Z.
Proof.
  induction l as [|a l IH]; intros n; [cbn; split; [auto|lia]|].
  cbn [filterM]. unfold bind. destruct (f a n) as [keep n1].
  destruct (IH n1) as [H1 H2]. destruct (filterM f l n1) as [rest n2].
  cbn [fst ret] in *.
  replace (len (a :: l)) with (1 + len l)%Z
    by (unfold len; cbn [List.length]; lia).
  destruct keep.
  - split.
    + intros b [<-|Hb]; [now left|right; auto].
    + replace (len (a :: rest)) with (1 + len rest)%Z
        by (unfold len; cbn [List.length]; lia). lia.
  - split; [intros b Hb; right; auto|lia].
Qed.

Lemma Forall2_Forall_r {A B} (R : A -> B -> Prop) (P : B -> Prop) l l' :
  Forall2 R l l' -> (forall a b, In a l -> R a b -> P b) -> Forall P l'.
Proof.
  induction 1 as [|a b l l' Hab Hl IH]; intros H; constructor.
  - apply (H a b); [now left|exact Hab].
  - apply IH. intros a' b' Ha'. apply H. now right.
Qed.

(** X19. [applyProceduralNoise] returns the pegs untouched, without a draw,
    up to level 2.  Above, it never adds a peg and never changes a colour,
    and when the draws lie in [0, 1) every peg it returns is an input peg
    moved by at most [pegSpacing * 0.3] along each axis. *)
Theorem applyProceduralNoise_bounded (pegs : list Peg) (levelNumber : Z)
    (pegSpacing : Q) (n : nat) :
  unitInterval rnd -> 0 <= pegSpacing ->
  let out := fst (applyProceduralNoise pegs levelNumber pegSpacing n) in
  ((levelNumber <= 2)%Z ->
   applyProceduralNoise pegs levelNumber pegSpacing n = (pegs, n)) /\
  (len out <= len pegs)%Z /\
  Forall (fun q =>
            exists p, In p pegs /\ colorIndex q = colorIndex p /\
              (x p - pegSpacing * 0.3 <= x q /\ x q <= x p + pegSpacing * 0.3) /\
              (y p - pegSpacing * 0.3 <= y q /\ y q <= y p + pegSpacing * 0.3))
         out.
Proof.
  intros Hr Hp. cbv zeta. unfold applyProceduralNoise.
  destruct (levelNumber <=? 2)%Z eqn:E.
  { cbn [ret fst]. split; [reflexivity|]. split; [lia|].
    apply Forall_forall. intros q Hq. exists q.
    split; [exact Hq|]. split; [reflexivity|]. split; split; lra. }
  apply Z.leb_gt in E. split; [lia|].
  set (factor := Qmin 0.3 (0.05 + inject_Z levelNumber * 0.02)).
  assert (Hf : 0 <= factor /\ factor <= 0.3).
  { assert (3 <= inject_Z levelNumber) by (apply (inject_Z_le 3); lia).
    unfold factor.
    destruct (Qmin_spec 0.3 (0.05 + inject_Z levelNumber * 0.02))
      as [[H1 E1]|[H1 E1]]; rewrite E1;
      set (t := inject_Z levelNumber) in *; split; lra. }
  set (maxD := pegSpacing * factor).
  assert (Hm : 0 <= maxD /\ maxD <= pegSpacing * 0.3).
  { unfold maxD. split.
    - apply Qmult_le_0_compat; lra.
    - rewrite (Qmult_comm pegSpacing factor), (Qmult_comm pegSpacing 0.3).
      apply Qmult_le_compat_r; lra. }
  rewrite !bind_eq.
  destruct (filterM_incl
              (fun _ : Peg =>
                 r <- Math_random ;;
                 ret (Qltb (Qmin 0.3 (0.05 + inject_Z levelNumber * 0.01)) r))
              pegs n) as [Hin Hlen].
  destruct (filterM _ pegs n) as [kept n1]. cbn [fst snd] in *.
  assert (Hnoise : forall r, 0 <= r -> r < 1 ->
                             - maxD <= (r * 2 - 1) * maxD /\
                             (r * 2 - 1) * maxD <= maxD).
  { intros r H0 H1. destruct Hm as [Hm0 _]. split.
    - setoid_replace (- maxD) with ((-1) * maxD) by ring.
      apply Qmult_le_compat_r; lra.
    - setoid_replace maxD with (1 * maxD) at 2 by ring.
      apply Qmult_le_compat_r; lra. }
  match goal with
  | |- context [mapM ?f kept n1] =>
      pose proof (mapM_length f kept n1) as Hl;
      pose proof (fun H =>
                    mapM_Forall2
                      (fun p q : Peg =>
                         colorIndex q = colorIndex p /\
                         (x p - pegSpacing * 0.3 <= x q /\
                          x q <= x p + pegSpacing * 0.3) /\
                         (y p - pegSpacing * 0.3 <= y q /\
                          y q <= y p + pegSpacing * 0.3)) f kept H n1) as HF;
      destruct (mapM f kept n1) as [out n2]
  end.
  cbn [fst] in *. split.
  - unfold len in *. rewrite Hl. exact Hlen.
  - assert (HF' : Forall2
                    (fun p q : Peg =>
                       colorIndex q = colorIndex p /\
                       (x p - pegSpacing * 0.3 <= x q /\
                        x q <= x p + pegSpacing * 0.3) /\
                       (y p - pegSpacing * 0.3 <= y q /\
                        y q <= y p + pegSpacing * 0.3)) kept out).
    { apply HF. intros a m _. unfold bind, ret, Math_random.
      cbn [fst x y colorIndex]. fold factor. fold maxD.
      destruct (Hr m) as [A0 A1]. destruct (Hr (S m)) as [B0 B1].
      destruct (Hnoise _ A0 A1). destruct (Hnoise _ B0 B1).
      destruct Hm. split; [reflexivity|]. split; split; lra. }
    eapply Forall2_Forall_r; [exact HF'|].
    intros a b Ha Hab. exists a. split; [apply Hin; exact Ha|exact Hab].
Qed.

(** ** The pattern catalogue *)

Lemma filter_all {A} (f : A -> bool) l :
  (forall a, In a l -> f a = true) -> filter f l = l.
Proof.
  induction l as [|a l IH]; intros H; [reflexivity|].
  cbn [filter]. rewrite (H a (or_introl eq_refl)). f_equal.
  apply IH. intros b Hb. apply H. now right.
Qed.

Lemma patternDifficulty_catalogue name :
  In name (map fst patternTable) -> (1 <= patternDifficulty name <= 10)%Z.
Proof.
  intros H. cbn in H.
  repeat (destruct H as [<-|H]; [vm_compute; split; discriminate|]).
  destruct H.
Qed.

(** X20. The patterns offered grow with the difficulty factor: a pattern
    selected for a factor is selected for every larger one; [grid] is
    offered from factor -1 on, every pattern of the catalogue from factor 8
    on, and none below -1.  For the factor [min(10, floor(level / 2) + 1)]
    of [generateLevel] the three easiest patterns are always offered. *)
Theorem selectPatternsByDifficulty_monotone (difficultyFactor difficultyFactor' : Z) :
  (difficultyFactor <= difficultyFactor')%Z ->
  (forall pattern,
     In pattern (selectPatternsByDifficulty difficultyFactor) ->
     In pattern (selectPatternsByDifficulty difficultyFactor')) /\
  ((-1 <= difficultyFactor)%Z ->
   In "grid"%string (selectPatternsByDifficulty difficultyFactor)) /\
  ((1 <= difficultyFactor)%Z ->
   In "checkerboard"%string (selectPatternsByDifficulty difficultyFactor) /\
   In "random"%string (selectPatternsByDifficulty difficultyFactor)) /\
  ((8 <= difficultyFactor)%Z ->
   selectPatternsByDifficulty difficultyFactor = map fst patternTable) /\
  ((difficultyFactor < -1)%Z -> selectPatternsByDifficulty difficultyFactor = []).
Proof.
  intros Hd. unfold selectPatternsByDifficulty.
  split; [|split; [|split; [|split]]].
  - intros pattern H. apply filter_In in H. destruct H as [H1 H2].
    apply filter_In. split; [exact H1|].
    apply Z.leb_le in H2. apply Z.leb_le. lia.
  - intros H. apply filter_In. split; [cbn; auto|].
    change (patternDifficulty "grid") with 1%Z. apply Z.leb_le. lia.
  - intros H. split; apply filter_In.
    + split; [cbn; auto|].
      change (patternDifficulty "checkerboard") with 2%Z. apply Z.leb_le. lia.
    + split; [cbn; auto 20|].
      change (patternDifficulty "random") with 3%Z. apply Z.leb_le. lia.
  - intros H. apply filter_all. intros name Hname.
    apply patternDifficulty_catalogue in Hname. apply Z.leb_le. lia.
  - intros H. 
    assert (G : forall l, (forall name, In name l -> In name (map fst patternTable)) ->
                filter (fun pattern =>
                          (patternDifficulty pattern <=? difficultyFactor + 2)%Z) l
                = []).
    { induction l as [|a l IH]; intros Hl; [reflexivity|].
      cbn [filter].
      pose proof (patternDifficulty_catalogue a (Hl a (or_introl eq_refl))).
      replace (patternDifficulty a <=? difficultyFactor + 2)%Z with false
        by (symmetry; apply Z.leb_gt; lia).
      apply IH. intros name Hn. apply Hl. now right. }
    apply G. auto.
Qed.

(** ** generatePatternInSection *)

(** X21. [generatePatternInSection] never produces a peg.  Its branches
    compare [patternFunc] with the methods of the class by identity, and the
    functions stored in [this.patterns] are bound copies, identical to none
    of them: for these the list stays empty, rotated or not.  The layout of
    level 2, which is made of two such calls, is therefore always empty. *)
Theorem generatePatternInSection_no_pegs :
  (forall patternFunc sec pegSpacing levelNumber out,
     generatePatternInSection patternFunc sec pegSpacing levelNumber = Some out ->
     out = []) /\
  (forall pattern sec pegSpacing levelNumber,
     generatePatternInSection (patterns pattern) (Some sec) pegSpacing
       levelNumber = Some []) /\
  (forall currentLevelNumber levelNumber pegSpacing availablePatterns n,
     fst (generateIntermediateLevel currentLevelNumber levelNumber pegSpacing
            availablePatterns n) = Some []).
Proof.
  split; [|split].
  - intros f sec p L out. unfold generatePatternInSection, callWithoutReceiver.
    destruct sec as [sec|]; [|discriminate].
    repeat match goal with
           | |- context [if ?b then None else _] => destruct b
           end;
      try discriminate.
    destruct (rotation sec); intros [= <-]; reflexivity.
  - intros. apply generatePatternInSection_patterns.
  - intros. apply generateIntermediateLevel_empty.
Qed.

(** ** selectRandomPatternsForLevel, continued *)

Lemma selectLoop_from_pool (P : string -> Prop) remaining :
  unitInterval rnd ->
  forall count pool selected n,
    (forall s, In s pool -> P s) -> Forall P selected ->
    Forall P (fst (selectLoop remaining count pool selected n)) /\
    (List.length (fst (selectLoop remaining count pool selected n))
     <= List.length selected + remaining)%nat.
Proof.
  intros Hr. induction remaining as [|rem IH];
    intros count pool selected n Hpool Hsel.
  - cbn. split; [exact Hsel|lia].
  - destruct pool as [|w pool']; [cbn; split; [exact Hsel|lia]|].
    rewrite selectLoop_cons.
    set (pool := w :: pool') in *.
    assert (Hlen : (0 < len pool)%Z) by (unfold pool, len; cbn; lia).
    set (index := Qfloor (rnd n * inject_Z (len pool))).
    assert (Hidx : (0 <= index < len pool)%Z)
      by (apply random_index_range; [apply Hr|exact Hlen]).
    set (pattern := nthName pool index).
    assert (Hin : In pattern pool) by (apply nthName_in; exact Hidx).
    destruct (IH count
                (if (len (selected ++ [pattern]) <? count - 1)%Z
                 then filter (fun s => negb (String.eqb s pattern)) pool
                 else pool)
                (selected ++ [pattern]) (S n)) as [I1 I2].
    + intros s Hs. apply Hpool.
      destruct (len (selected ++ [pattern]) <? count - 1)%Z; [|exact Hs].
      apply filter_In in Hs. apply Hs.
    + apply Forall_app. split; [exact Hsel|].
      constructor; [apply Hpool; exact Hin|constructor].
    + split; [exact I1|]. rewrite length_app in I2.
      cbn [List.length] in I2. lia.
Qed.

(** X22. When the draws lie in [0, 1), [selectRandomPatternsForLevel]
    returns at most [count] names, each of them one of [availablePatterns]
    with a positive weight; up to level 5 the weight is [10 - difficulty], so
    that [vortex], of difficulty 10, is never selected. *)
Theorem selectRandomPatternsForLevel_from_pool (availablePatterns : list string)
    (count levelNumber : Z) (n : nat) :
  unitInterval rnd ->
  let selected :=
    fst (selectRandomPatternsForLevel availablePatterns count levelNumber n) in
  (List.length selected <= Z.to_nat count)%nat /\
  (forall pattern, In pattern selected ->
     In pattern availablePatterns /\
     (0 < (if (levelNumber <=? 5)%Z then 10 - patternDifficulty pattern
           else patternDifficulty pattern))%Z) /\
  ((levelNumber <= 5)%Z -> ~ In "vortex"%string selected).
Proof.
  intros Hr. cbv zeta. unfold selectRandomPatternsForLevel.
  set (P := fun pattern =>
              In pattern availablePatterns /\
              (0 < (if (levelNumber <=? 5)%Z then 10 - patternDifficulty pattern
                    else patternDifficulty pattern))%Z).
  destruct (selectLoop_from_pool P (Z.to_nat count) Hr count
              (weightedPool availablePatterns levelNumber) [] n) as [H1 H2].
  - intros s Hs. unfold weightedPool in Hs. apply in_flat_map in Hs.
    destruct Hs as (pattern & Hp & Hrep).
    pose proof (repeat_spec _ _ _ Hrep) as E. subst s.
    split; [exact Hp|].
    destruct (Z.to_nat (if (levelNumber <=? 5)%Z
                        then (10 - patternDifficulty pattern)%Z
                        else patternDifficulty pattern)) eqn:En;
      [destruct Hrep|].
    destruct (levelNumber <=? 5)%Z; lia.
  - constructor.
  - split; [exact H2|]. split.
    + intros pattern Hp. rewrite Forall_forall in H1. apply (H1 pattern Hp).
    + intros HL Hv. rewrite Forall_forall in H1.
      destruct (H1 _ Hv) as [_ Hw].
      replace (levelNumber <=? 5)%Z with true in Hw
        by (symmetry; apply Z.leb_le; exact HL).
      change (patternDifficulty "vortex") with 10%Z in Hw. lia.
Qed.

(** ** createChallengeCluster *)

Lemma flat_map_length_const {A B} (f : A -> list B) (k : nat) l :
  (forall a, List.length (f a) = k) ->
  List.length (flat_map f l) = (List.length l * k)%nat.
Proof.
  intros H. induction l as [|a l IH]; [reflexivity|].
  cbn [flat_map]. rewrite length_app, H, IH. cbn. lia.
Qed.

Lemma Forall_flat_map {A B} (P : B -> Prop) (f : A -> list B) l :
  (forall a, In a l -> Forall P (f a)) -> Forall P (flat_map f l).
Proof.
  intros H. induction l as [|a l IH]; [constructor|].
  cbn [flat_map]. apply Forall_app. split.
  - apply H. now left.
  - apply IH. intros b Hb. apply H. now right.
Qed.

Lemma Forall_map_in {A B} (P : B -> Prop) (f : A -> B) l :
  (forall a, In a l -> P (f a)) -> Forall P (map f l).
Proof.
  intros H. apply Forall_forall. intros b Hb. apply in_map_iff in Hb.
  destruct Hb as (a & <- & Ha). now apply H.
Qed.

(** X23. From level 0 on every peg of [createChallengeCluster] carries a
    colour of [0, availableColors), and the number of pegs is fixed by the
    level: [5 + floor(level / 3)] for the cluster and the line,
    [(2 + floor(level / 4))^2] for the small grid and
    [(2 + floor(level / 5)) * (3 + floor(level / 4))] for the spiral. *)
Theorem createChallengeCluster_size (levelNumber : Z) (pegSpacing : Q)
    (n : nat) :
  (0 <= levelNumber)%Z ->
  let pegs := fst (createChallengeCluster levelNumber pegSpacing n) in
  Forall (colorInRange (getAvailableColors levelNumber)) pegs /\
  len pegs =
    (if (js_rem levelNumber 4 <? 2)%Z then 5 + levelNumber / 3
     else if (js_rem levelNumber 4 =? 2)%Z
          then (2 + levelNumber / 4) * (2 + levelNumber / 4)
          else (2 + levelNumber / 5) * (3 + levelNumber / 4))%Z.
Proof.
  intros HL. cbv zeta.
  assert (Ha : (0 < getAvailableColors levelNumber)%Z).
  { destruct (getAvailableColors_cases levelNumber) as [E|[E|E]];
      rewrite E; lia. }
  set (a := getAvailableColors levelNumber) in *.
  assert (Hcol : forall i, (0 <= i)%Z -> (0 <= js_rem i a < a)%Z)
    by (intros; now apply js_rem_range).
  pose proof (js_rem_range levelNumber 4 HL ltac:(lia)) as Hty.
  assert (H3 : (0 <= levelNumber / 3)%Z) by (apply Z.div_pos; lia).
  assert (H4 : (0 <= levelNumber / 4)%Z) by (apply Z.div_pos; lia).
  assert (H5 : (0 <= levelNumber / 5)%Z) by (apply Z.div_pos; lia).
  unfold createChallengeCluster. fold a. rewrite !bind_eq.
  unfold Math_random at 1 2. cbn [fst snd].
  destruct (js_rem levelNumber 4 =? 0)%Z eqn:E0.
  { apply Z.eqb_eq in E0. rewrite E0. cbn [Z.ltb Z.compare].
    split.
    - apply (foldM_invariant (Forall (colorInRange a))); [|constructor].
      intros s i m Hi Hs. apply in_zupto in Hi.
      unfold bind, ret, Math_random. cbn [fst].
      apply Forall_app. split; [exact Hs|]. constructor; [|constructor].
      unfold colorInRange. cbn [colorIndex]. apply Hcol. lia.
    - match goal with
      | |- len (fst (foldM ?f ?l ?s ?m)) = _ =>
          pose proof (foldM_length_eq f l 1) as H
      end.
      rewrite H.
      + change (len (@nil Peg)) with 0%Z. rewrite len_zupto. lia.
      + intros s i m. unfold bind, ret, Math_random. cbn [fst].
        rewrite len_app. unfold len at 2. cbn. lia. }
  destruct (js_rem levelNumber 4 =? 1)%Z eqn:E1.
  { apply Z.eqb_eq in E1. rewrite E1. cbn [Z.ltb Z.compare Pos.compare Pos.compare_cont].
    rewrite ?bind_eq. unfold Math_random, ret. cbn [fst snd].
    split.
    - apply Forall_map_in. intros i Hi. apply in_zupto in Hi.
      unfold colorInRange. cbn [colorIndex]. apply Hcol. lia.
    - unfold len. rewrite length_map. fold (len (zupto 0 (5 + levelNumber / 3))).
      rewrite len_zupto. lia. }
  destruct (js_rem levelNumber 4 =? 2)%Z eqn:E2.
  { apply Z.eqb_eq in E2. rewrite E2. cbn [Z.ltb Z.compare Pos.compare Pos.compare_cont].
    unfold ret. cbn [fst].
    split.
    - apply Forall_flat_map. intros row Hrow. apply in_zupto in Hrow.
      apply Forall_map_in. intros col Hc. apply in_zupto in Hc.
      unfold colorInRange. cbn [colorIndex]. apply Hcol. lia.
    - unfold len.
      rewrite (flat_map_length_const _ (List.length (zupto 0 (2 + levelNumber / 4))))
        by (intros; apply length_map).
      rewrite Nat2Z.inj_mul. fold (len (zupto 0 (2 + levelNumber / 4))).
      rewrite len_zupto. lia. }
  assert (E3 : js_rem levelNumber 4 = 3%Z).
  { apply Z.eqb_neq in E0, E1, E2. lia. }
  rewrite E3. cbn [Z.ltb Z.eqb Z.compare Pos.compare Pos.compare_cont Pos.eqb].
  unfold ret. cbn [fst].
  split.
  - apply Forall_flat_map. intros arm Harm. apply in_zupto in Harm.
    apply Forall_map_in. intros i Hi. apply in_zupto in Hi.
    unfold colorInRange. cbn [colorIndex]. apply Hcol. lia.
  - unfold len.
    rewrite (flat_map_length_const _ (List.length (zupto 0 (3 + levelNumber / 4))))
      by (intros; apply length_map).
    rewrite Nat2Z.inj_mul. fold (len (zupto 0 (2 + levelNumber / 5))).
    fold (len (zupto 0 (3 + levelNumber / 4))).
    rewrite !len_zupto. lia.
Qed.

(** * The game around the generator *)

(** ** The shop *)

(** X24. [purchaseBalls] keeps the run within its limits: with a currency
    that is not negative and at most ten balls before the call, the same
    holds after it; the balls remaining grow by the balls added; every ball
    added costs [ballCost]; the call reports [true] exactly when it added a
    ball, and otherwise changes nothing. *)
Theorem purchaseBalls_invariants (count : Z) (g : Game) :
  (0 <= currency g)%Z -> (totalRunBalls g <= 10)%Z ->
  let ok := fst (purchaseBalls count g) in
  let g' := snd (purchaseBalls count g) in
  (0 <= currency g')%Z /\
  (totalRunBalls g' <= 10)%Z /\
  (ballsRemaining g' - totalRunBalls g'
   = ballsRemaining g - totalRunBalls g)%Z /\
  (currency g - currency g'
   = ballCost * (totalRunBalls g' - totalRunBalls g))%Z /\
  (totalRunBalls g' - totalRunBalls g <= Z.max 0 count)%Z /\
  (ok = true <-> (totalRunBalls g < totalRunBalls g')%Z) /\
  (ok = false -> g' = g).
Proof.
  intros Hc Ht. cbv zeta. unfold purchaseBalls, ballCost.
  destruct (currency g >=? 100 * count)%Z eqn:E1.
  - assert (100 * count <= currency g)%Z
      by (rewrite Z.geb_leb in E1; now apply Z.leb_le).
    destruct (Z.min count (10 - totalRunBalls g) <=? 0)%Z eqn:E2.
    + cbn [fst snd]. repeat split; try lia; try discriminate; auto.
    + apply Z.leb_gt in E2. cbn [fst snd currency totalRunBalls ballsRemaining].
      repeat split; try lia; try discriminate; auto.
  - cbn [fst snd]. repeat split; try lia; try discriminate; auto.
Qed.

(** ** Level completion *)

Lemma getColorThresholds_le L n j t :
  nth_error (fst (getColorThresholds L n)) j = Some t -> 0 <= t /\ t <= 0.85.
Proof.
  intros H.
  destruct (foldM_thresholds L (getAvailableColors L)
              (zupto 0 (getAvailableColors L)) (repeat (0:Q) 8) n)
    as [Hlen Hent].
  { intros i Hi. apply in_zupto in Hi. lia. }
  fold (getColorThresholds L n) in Hlen, Hent.
  rewrite repeat_length in Hlen, Hent.
  assert (Hj : (j < 8)%nat).
  { rewrite <- Hlen. apply nth_error_Some. rewrite H. discriminate. }
  assert (Et : nth j (fst (getColorThresholds L n)) 0 = t)
    by (apply nth_error_nth; exact H).
  destruct (Hent j Hj) as [Hin Hout].
  destruct (in_dec Z.eq_dec (Z.of_nat j) (zupto 0 (getAvailableColors L)))
    as [Hi|Hi].
  - specialize (Hin Hi). rewrite Et in Hin. unfold inBounds in Hin. lra.
  - specialize (Hout Hi). rewrite nth_repeat in Hout.
    rewrite <- Et, Hout. split; [apply Qle_refl|discriminate].
Qed.

Lemma colorHitPercentage_all_hit g i :
  hitPegCountsByColor g = pegCountsByColor g -> colorHitPercentage g i == 1.
Proof.
  intros H. unfold colorHitPercentage. rewrite H.
  destruct (0 <? nth i (pegCountsByColor g) 0%Z)%Z eqn:E; [|reflexivity].
  apply Z.ltb_lt in E.
  assert (0 < inject_Z (nth i (pegCountsByColor g) 0%Z))
    by (apply (inject_Z_lt 0); exact E).
  field. lra.
Qed.

(** X25. With the thresholds that [resetLevel] takes from
    [getColorThresholds], a level on which every peg has been hit is
    completed by [checkLevelCompletion]: the bonus [500 + 50 * level] is added
    to the score, the new score to the currency, and the shop is scheduled.
    A completed level is left alone, so the bonus is paid once. *)
Theorem checkLevelCompletion_all_hit (g : Game) (levelNumber : Z) (n : nat) :
  colorThresholds g = fst (getColorThresholds levelNumber n) ->
  hitPegCountsByColor g = pegCountsByColor g ->
  levelCompleted g = false ->
  let g' := checkLevelCompletion g in
  levelCompleted g' = true /\
  shopScheduled g' = true /\
  score g' = (score g + (500 + currentLevel g * 50))%Z /\
  currency g' = (currency g + score g')%Z /\
  checkLevelCompletion g' = g'.
Proof.
  intros Hth Hhit Hnot. cbv zeta.
  assert (Hall : allColorsHitThreshold g = true).
  { unfold allColorsHitThreshold. apply forallb_forall. intros i _.
    apply negb_true_iff. unfold belowThreshold.
    destruct (nth_error (colorThresholds g) i) as [t|] eqn:E; [|reflexivity].
    rewrite Hth in E. apply getColorThresholds_le in E.
    apply Qltb_false. rewrite (colorHitPercentage_all_hit g i Hhit). lra. }
  assert (E : checkLevelCompletion g
              = mkGame (score g + (500 + currentLevel g * 50))
                  (currency g + (score g + (500 + currentLevel g * 50)))
                  (totalRunBalls g) (ballsRemaining g) (currentLevel g)
                  true true (pegCountsByColor g) (hitPegCountsByColor g)
                  (colorThresholds g)).
  { unfold checkLevelCompletion. rewrite Hnot, Hall. reflexivity. }
  rewrite E. cbn [levelCompleted shopScheduled score currency].
  repeat split.
Qed.

(** ** Sections of the canvas *)

Lemma maybeRotate_sameRectangle cur pw ph s n :
  sameRectangle s (fst (maybeRotate cur pw ph s n)).
Proof.
  unfold maybeRotate, bind, ret, Math_random, sameRectangle.
  destruct ((cur >? 5)%Z && Qltb (width s) (pw * 0.6)
            && Qltb (height s) (ph * 0.6)); [|cbn; auto].
  destruct (Qltb (rnd n) 0.3); cbn; auto.
Qed.

(** X26. For one section [divideCanvasIntoSections] returns the whole play
    area.  For two sections and draws in [0, 1) it returns two rectangles
    that split the play area either across its height or across its width:
    they share the other extent, start and end with the play area, and are
    separated by a gap of at least 30 and less than 50. *)
Theorem divideCanvasIntoSections_small (currentLevelNumber : Z) (n : nat) :
  unitInterval rnd ->
  let top := 120 in
  let bottom := canvasHeight - 80 in
  let left := horizontalMargin in
  let right := canvasWidth - horizontalMargin in
  (exists s,
     fst (divideCanvasIntoSections currentLevelNumber 1 n) = Some [s] /\
     sx s = left /\ sy s = top /\
     sx s + width s == right /\ sy s + height s == bottom) /\
  (exists s1 s2,
     fst (divideCanvasIntoSections currentLevelNumber 2 n) = Some [s1; s2] /\
     ((sx s1 = left /\ sx s2 = left /\
       width s1 = width s2 /\ sx s1 + width s1 == right /\
       sy s1 = top /\ sy s2 + height s2 == bottom /\
       30 <= sy s2 - (sy s1 + height s1) /\
       sy s2 - (sy s1 + height s1) < 50) \/
      (sy s1 = top /\ sy s2 = top /\
       height s1 = height s2 /\ sy s1 + height s1 == bottom /\
       sx s1 = left /\ sx s2 + width s2 == right /\
       30 <= sx s2 - (sx s1 + width s1) /\
       sx s2 - (sx s1 + width s1) < 50))).
Proof.
  intros Hr. cbv zeta. split.
  - unfold divideCanvasIntoSections, bindE, bind, ret.
    cbn [Z.eqb Pos.eqb mapM]. unfold bind, ret.
    match goal with
    | |- context [maybeRotate ?c ?pw ?ph ?s ?m] =>
        pose proof (maybeRotate_sameRectangle c pw ph s m) as Hs;
        destruct (maybeRotate c pw ph s m) as [s' m']
    end.
    cbn [fst] in *. destruct Hs as (E1 & E2 & E3 & E4).
    cbn [sx sy width height] in *.
    exists s'. split; [reflexivity|].
    rewrite E1, E2, E3, E4. unfold horizontalMargin.
    repeat split; ring.
  - unfold divideCanvasIntoSections, bindE, bind, ret, Math_random.
    cbn [Z.eqb Pos.eqb].
    set (pw := canvasWidth - horizontalMargin * 2).
    set (ph := canvasHeight - 80 - 120).
    destruct (Hr (S (S n))) as [G0 G1].
    assert (Hgap : 30 <= 30 + rnd (S (S n)) * 20 /\
                   30 + rnd (S (S n)) * 20 < 50) by (split; lra).
    destruct (Qltb 0.5 (rnd n)).
    + match goal with
      | |- context [mapM ?f [?a; ?b] ?m] =>
          pose proof (mapM_Forall2 sameRectangle f [a; b]
                        (fun s k _ => maybeRotate_sameRectangle _ _ _ s k) m)
            as HF;
          destruct (mapM f [a; b] m) as [out m']
      end.
      cbn [fst] in *.
      inversion HF as [|a1 s1 l1 l1' H1 HF1]; subst.
      inversion HF1 as [|a2 s2 l2 l2' H2 HF2]; subst.
      inversion HF2; subst.
      exists s1, s2. split; [reflexivity|]. left.
      destruct H1 as (A1 & A2 & A3 & A4). destruct H2 as (B1 & B2 & B3 & B4).
      cbn [sx sy width height] in *.
      rewrite A1, A2, A3, A4, B1, B2, B3, B4.
      set (gap := 30 + rnd (S (S n)) * 20) in *.
      set (dividerY := 120 + ph / 2 + (rnd (S n) * (ph * 0.1) * 2 - ph * 0.1)).
      assert (Eg : gap / 2 == gap * (1 # 2)) by field.
      unfold pw, horizontalMargin.
      repeat split; try reflexivity; try ring.
      * rewrite Eg. lra.
      * rewrite Eg. lra.
    + match goal with
      | |- context [mapM ?f [?a; ?b] ?m] =>
          pose proof (mapM_Forall2 sameRectangle f [a; b]
                        (fun s k _ => maybeRotate_sameRectangle _ _ _ s k) m)
            as HF;
          destruct (mapM f [a; b] m) as [out m']
      end.
      cbn [fst] in *.
      inversion HF as [|a1 s1 l1 l1' H1 HF1]; subst.
      inversion HF1 as [|a2 s2 l2 l2' H2 HF2]; subst.
      inversion HF2; subst.
      exists s1, s2. split; [reflexivity|]. right.
      destruct H1 as (A1 & A2 & A3 & A4). destruct H2 as (B1 & B2 & B3 & B4).
      cbn [sx sy width height] in *.
      rewrite A1, A2, A3, A4, B1, B2, B3, B4.
      set (gap := 30 + rnd (S (S n)) * 20) in *.
      set (dividerX := horizontalMargin + pw / 2
                       + (rnd (S n) * (pw * 0.1) * 2 - pw * 0.1)).
      assert (Eg : gap / 2 == gap * (1 # 2)) by field.
      unfold pw, ph, horizontalMargin.
      repeat split; try reflexivity; try ring.
      * unfold horizontalMargin in dividerX. rewrite Eg. lra.
      * unfold horizontalMargin in dividerX. rewrite Eg. lra.
Qed.

(** X27. When the draws lie in [0, 1) and the play area is not empty, every
    section that [createOverlappingSections] adds to the base division lies
    inside the play area, and it adds [min(3, floor(level / 4))] of them. *)
Theorem createOverlappingSections_inside (currentLevelNumber count levelNumber : Z)
    (n : nat) (out : list section) :
  unitInterval rnd ->
  0 <= canvasWidth - horizontalMargin * 2 -> 0 <= canvasHeight - 80 - 120 ->
  fst (createOverlappingSections currentLevelNumber count levelNumber n)
  = Some out ->
  exists base added,
    fst (divideCanvasIntoSections currentLevelNumber count n) = Some base /\
    out = base ++ added /\
    len added = Z.max 0 (Z.min 3 (levelNumber / 4)) /\
    Forall inPlayArea added.
Proof.
  intros Hr Hw Hh. unfold createOverlappingSections, bindE.
  rewrite bind_eq.
  destruct (divideCanvasIntoSections currentLevelNumber count n)
    as [[base|] n1]; cbn [fst snd]; [|discriminate].
  rewrite bind_eq. cbn [ret fst]. intros [= <-].
  set (pw := canvasWidth - horizontalMargin * 2) in *.
  set (ph := canvasHeight - 80 - 120) in *.
  exists base.
  match goal with
  | |- context [foldM ?f ?l base n1] =>
      pose proof (foldM_invariant
                    (fun s => exists added, s = base ++ added /\
                                            Forall inPlayArea added) f l) as HI;
      pose proof (foldM_length_eq f l 1) as HL
  end.
  match type of HI with
  | ?A -> _ => assert (HA : A)
  end.
  { intros s i m _ (added & -> & Hadd).
    unfold bind, ret, Math_random. cbn [fst].
    eexists. split; [rewrite <- app_assoc; reflexivity|].
    apply Forall_app. split; [exact Hadd|]. constructor; [|constructor].
    destruct (Hr m) as [A0 A1]. destruct (Hr (S m)) as [B0 B1].
    destruct (Hr (S (S m))) as [C0 C1]. destruct (Hr (S (S (S m)))) as [D0 D1].
    set (w := pw * (0.3 + rnd m * 0.4)).
    set (h := ph * (0.3 + rnd (S m) * 0.4)).
    assert (Hw0 : 0 <= w /\ w <= pw).
    { unfold w. split.
      - apply Qmult_le_0_compat; lra.
      - setoid_replace pw with (pw * 1) at 2 by ring.
        rewrite (Qmult_comm pw (0.3 + rnd m * 0.4)), (Qmult_comm pw 1).
        apply Qmult_le_compat_r; lra. }
    assert (Hh0 : 0 <= h /\ h <= ph).
    { unfold h. split.
      - apply Qmult_le_0_compat; lra.
      - setoid_replace ph with (ph * 1) at 2 by ring.
        rewrite (Qmult_comm ph (0.3 + rnd (S m) * 0.4)), (Qmult_comm ph 1).
        apply Qmult_le_compat_r; lra. }
    assert (Hx : 0 <= rnd (S (S m)) * (pw - w) /\
                 rnd (S (S m)) * (pw - w) <= pw - w).
    { split.
      - apply Qmult_le_0_compat; lra.
      - setoid_replace (pw - w) with (1 * (pw - w)) at 2 by ring.
        apply Qmult_le_compat_r; lra. }
    assert (Hy : 0 <= rnd (S (S (S m))) * (ph - h) /\
                 rnd (S (S (S m))) * (ph - h) <= ph - h).
    { split.
      - apply Qmult_le_0_compat; lra.
      - setoid_replace (ph - h) with (1 * (ph - h)) at 2 by ring.
        apply Qmult_le_compat_r; lra. }
    unfold inPlayArea. cbn [sx sy width height]. fold w. fold h.
    unfold pw, ph in *. repeat split; lra. }
  specialize (HI HA base n1 (ex_intro _ [] (conj (eq_sym (app_nil_r base))
                                                (Forall_nil _)))).
  destruct HI as (added & Eadd & Hadd).
  exists added. split; [reflexivity|]. split; [exact Eadd|].
  split; [|exact Hadd].
  assert (HL' := HL (fun s i m => ltac:(
                      unfold bind, ret, Math_random; cbn [fst];
                      rewrite len_app; unfold len at 2; cbn; lia)) base n1).
  rewrite Eadd, len_app, len_zupto in HL'. lia.
Qed.

(** ** createCheckerboardPattern *)

Lemma even_cells_apart (r c row col : Z) :
  Z.even (r + c) = true -> Z.even (row + col) = true ->
  (r <> row \/ c <> col) ->
  (2 <= (c - col) * (c - col) + (r - row) * (r - row))%Z.
Proof.
  intros H1 H2 Hne.
  apply Z.even_spec in H1. apply Z.even_spec in H2.
  destruct H1 as [m Hm]. destruct H2 as [m' Hm'].
  assert (Hs : ((c - col) + (r - row) = 2 * (m - m'))%Z) by lia.
  set (dc := (c - col)%Z) in *. set (dr := (r - row)%Z) in *.
  assert (Hd : (dr <> 0 \/ dc <> 0)%Z) by (unfold dr, dc; lia).
  clearbody dc dr.
  assert (Hc : (0 <= dc * dc)%Z) by nia.
  assert (Hr : (0 <= dr * dr)%Z) by nia.
  destruct (Z.eq_dec dr 0) as [E|E].
  - subst dr. assert (dc <= -2 \/ 2 <= dc)%Z by lia. nia.
  - destruct (Z.eq_dec dc 0) as [E'|E'].
    + subst dc. assert (dr <= -2 \/ 2 <= dr)%Z by lia. nia.
    + assert (1 <= dc * dc)%Z by nia. assert (1 <= dr * dr)%Z by nia. lia.
Qed.

Lemma lattice_distance startX startY p r c row col :
  let dx := startX + inject_Z c * p - (startX + inject_Z col * p) in
  let dy := startY + inject_Z r * p - (startY + inject_Z row * p) in
  dx * dx + dy * dy
  == inject_Z ((c - col) * (c - col) + (r - row) * (r - row)) * (p * p).
Proof.
  cbv zeta. rewrite inject_Z_plus, !inject_Z_mult.
  unfold Z.sub. rewrite !inject_Z_plus, !inject_Z_opp. ring.
Qed.

Lemma checker_apart startX startY p r c row col a b :
  atCell startX startY p r c a -> atCell startX startY p row col b ->
  Z.even (r + c) = true -> Z.even (row + col) = true ->
  ((r < row)%Z \/ (r = row /\ c < col)%Z) ->
  tooClose (p * 1.4) a b = false.
Proof.
  intros [Hax Hay] [Hbx Hby] He He' Hlt. unfold tooClose.
  rewrite Hax, Hay, Hbx, Hby.
  apply sqrt_ltb_false_of_le.
  rewrite (lattice_distance startX startY p r c row col).
  assert (Hk : (2 <= (c - col) * (c - col) + (r - row) * (r - row))%Z)
    by (apply even_cells_apart; [exact He|exact He'|lia]).
  set (k := ((c - col) * (c - col) + (r - row) * (r - row))%Z) in *.
  assert (Hq : 2 <= inject_Z k)
    by (change 2 with (inject_Z 2); apply inject_Z_le; exact Hk).
  assert (Hpp : 0 <= p * p) by apply Qsquare_nonneg.
  assert (E : p * 1.4 * (p * 1.4) == (49 # 25) * (p * p)) by ring.
  rewrite E.
  apply Qle_trans with (2 * (p * p)).
  - set (pp := p * p) in *. clearbody pp. lra.
  - apply Qmult_le_compat_r; assumption.
Qed.

Lemma rem2_even (z : Z) : (js_rem z 2 =? 0)%Z = Z.even z.
Proof.
  unfold js_rem. pose proof (Z.quot_rem' z 2) as Hq.
  pose proof (Z.rem_bound_abs z 2 ltac:(lia)) as Hb.
  destruct (Z.eqb_spec (Z.rem z 2) 0) as [E|E].
  - symmetry. apply Z.even_spec. exists (Z.quot z 2). lia.
  - destruct (Z.even z) eqn:Ev; [|reflexivity].
    apply Z.even_spec in Ev. destruct Ev as [m Hm]. exfalso.
    apply E. subst z. rewrite Z.mul_comm. apply Z.rem_mul. lia.
Qed.

Lemma checkerboardCell_shape a startX startY p density row pegs col m :
  fst (checkerboardCell a startX startY p density row pegs col m) = pegs \/
  (Z.even (row + col) = true /\
   exists c,
     fst (checkerboardCell a startX startY p density row pegs col m)
     = pegs ++ [mkPeg (startX + inject_Z col * p) (startY + inject_Z row * p) c]
     /\ (unitInterval rnd -> (0 < a)%Z -> (0 <= c < a)%Z)).
Proof.
  unfold checkerboardCell. rewrite rem2_even.
  destruct (Z.even (row + col)) eqn:Ev; [|left; reflexivity].
  unfold bind, ret, Math_random, randomColor.
  destruct (Qle_bool (rnd m) density); [|left; reflexivity].
  right. split; [reflexivity|]. eexists. split; [reflexivity|].
  intros Hr Ha. destruct (Hr (S m)). now apply randomIndex_range.
Qed.

Lemma evenCellBefore_weaken startX startY p row col row' col' peg :
  ((row < row')%Z \/ (row = row' /\ col <= col')%Z) ->
  evenCellBefore startX startY p row col peg ->
  evenCellBefore startX startY p row' col' peg.
Proof.
  intros H (r & c & Hat & He & Hlt). exists r, c.
  split; [exact Hat|]. split; [exact He|]. lia.
Qed.

Lemma checkerInv_weaken startX startY p row col row' col' pegs :
  ((row < row')%Z \/ (row = row' /\ col <= col')%Z) ->
  checkerInv startX startY p row col pegs ->
  checkerInv startX startY p row' col' pegs.
Proof.
  intros H [Hs Hb]. split; [exact Hs|].
  eapply Forall_impl; [|exact Hb].
  intros peg. apply evenCellBefore_weaken. exact H.
Qed.

Lemma checkerboardCell_inv a startX startY p density row col pegs m :
  checkerInv startX startY p row col pegs ->
  checkerInv startX startY p row (col + 1)
    (fst (checkerboardCell a startX startY p density row pegs col m)).
Proof.
  intros Hinv.
  destruct (checkerboardCell_shape a startX startY p density row pegs col m)
    as [E|(Ev & c & E & _)]; rewrite E.
  - eapply checkerInv_weaken; [|exact Hinv]. lia.
  - destruct Hinv as [Hs Hb]. split.
    + apply ForallOrdPairs_app_one; [exact Hs|].
      eapply Forall_impl; [|exact Hb].
      intros b (r & c' & Hat & He & Hlt).
      eapply checker_apart; [exact Hat| |exact He|exact Ev|exact Hlt].
      split; reflexivity.
    + apply Forall_app. split.
      * eapply Forall_impl; [|exact Hb].
        intros peg. apply evenCellBefore_weaken. lia.
      * constructor; [|constructor].
        exists row, col. split; [split; reflexivity|]. split; [exact Ev|lia].
Qed.

Lemma checker_inner a startX startY p density row n :
  forall lo pegs m,
    checkerInv startX startY p row lo pegs ->
    checkerInv startX startY p row (lo + Z.of_nat n)
      (fst (foldM (checkerboardCell a startX startY p density row)
              (zrange lo n) pegs m)).
Proof.
  induction n as [|n IH]; intros lo pegs m Hinv.
  - simpl. eapply checkerInv_weaken; [|exact Hinv]. lia.
  - cbn [zrange foldM]. unfold bind.
    pose proof (checkerboardCell_inv a startX startY p density row lo pegs m
                  Hinv) as H1.
    destruct (checkerboardCell a startX startY p density row pegs lo m)
      as [pegs1 m1].
    cbn [fst] in H1.
    replace (lo + Z.of_nat (S n))%Z with ((lo + 1) + Z.of_nat n)%Z by lia.
    apply IH. exact H1.
Qed.

Lemma checker_outer a startX startY p density columns n :
  forall lo pegs m,
    checkerInv startX startY p lo 0 pegs ->
    checkerInv startX startY p (lo + Z.of_nat n) 0
      (fst (foldM
              (fun pegs row =>
                 foldM (checkerboardCell a startX startY p density row)
                   (zupto 0 columns) pegs)
              (zrange lo n) pegs m)).
Proof.
  induction n as [|n IH]; intros lo pegs m Hinv.
  - simpl. eapply checkerInv_weaken; [|exact Hinv]. lia.
  - cbn [zrange foldM]. unfold bind.
    pose proof (checker_inner a startX startY p density lo
                  (Z.to_nat (columns - 0)) 0%Z pegs m Hinv) as Hin.
    fold (zupto 0 columns) in Hin.
    destruct (foldM _ (zupto 0 columns) pegs m) as [pegs1 m1].
    cbn [fst] in Hin.
    replace (lo + Z.of_nat (S n))%Z with ((lo + 1) + Z.of_nat n)%Z by lia.
    apply IH. eapply checkerInv_weaken; [|exact Hin]. lia.
Qed.

Lemma createCheckerboardPattern_separated cur startX startY columns rows p
      density n :
  separated (p * 1.4)
    (fst (createCheckerboardPattern cur startX startY columns rows p density
            n)).
Proof.
  unfold createCheckerboardPattern.
  pose proof (checker_outer (currentColors cur) startX startY p density columns
                (Z.to_nat (rows - 0)) 0%Z [] n) as H.
  apply H. split; constructor.
Qed.

(** X28. [createCheckerboardPattern] only puts pegs on the lattice points
    whose row and column add up to an even number, so no two of its pegs are
    closer than [pegSpacing * 1.4] (the diagonal of a cell is the shortest
    distance) and the overlap filter at that distance returns the pattern
    unchanged.  When the draws lie in [0, 1) the colours are available
    ones. *)
Theorem createCheckerboardPattern_even_cells (currentLevelNumber : Z)
    (startX startY : Q) (columns rows : Z) (pegSpacing density : Q) (n : nat) :
  let pegs := fst (createCheckerboardPattern currentLevelNumber startX startY
                     columns rows pegSpacing density n) in
  Forall (onEvenCell startX startY pegSpacing rows columns) pegs /\
  separated (pegSpacing * 1.4) pegs /\
  removePegOverlaps pegs (pegSpacing * 1.4) = pegs /\
  (unitInterval rnd ->
   Forall (colorInRange (currentColors currentLevelNumber)) pegs).
Proof.
  cbv zeta.
  pose proof (createCheckerboardPattern_separated currentLevelNumber startX
                startY columns rows pegSpacing density n) as Hsep.
  split; [|split; [exact Hsep|split]].
  - unfold createCheckerboardPattern.
    apply (foldM_invariant
             (Forall (onEvenCell startX startY pegSpacing rows columns)));
      [|constructor].
    intros s row m Hrow Hs. apply in_zupto in Hrow.
    apply (foldM_invariant
             (Forall (onEvenCell startX startY pegSpacing rows columns)));
      [|exact Hs].
    intros s' col m' Hcol Hs'. apply in_zupto in Hcol.
    destruct (checkerboardCell_shape (currentColors currentLevelNumber) startX
                startY pegSpacing density row s' col m')
      as [E|(Ev & c & E & _)]; rewrite E; [exact Hs'|].
    apply Forall_app. split; [exact Hs'|]. constructor; [|constructor].
    exists row, col. split; [lia|]. split; [lia|]. split; [exact Ev|].
    split; reflexivity.
  - unfold removePegOverlaps.
    now rewrite removePegOverlaps_loop_fixed.
  - intros Hr. unfold createCheckerboardPattern.
    apply (foldM_invariant
             (Forall (colorInRange (currentColors currentLevelNumber))));
      [|constructor].
    intros s row m _ Hs.
    apply (foldM_invariant
             (Forall (colorInRange (currentColors currentLevelNumber))));
      [|exact Hs].
    intros s' col m' _ Hs'.
    destruct (checkerboardCell_shape (currentColors currentLevelNumber) startX
                startY pegSpacing density row s' col m')
      as [E|(Ev & c & E & Hc)]; rewrite E; [exact Hs'|].
    apply Forall_app. split; [exact Hs'|]. constructor; [|constructor].
    apply Hc; [exact Hr|apply currentColors_pos].
Qed.

(** ** createDiamondPattern *)
















End LevelGenerator.

(** * Witnesses and counterexamples at concrete inputs *)

Lemma getAvailableColors_step_function_witness :
  getAvailableColors 2 = 4%Z /\ getAvailableColors 7 = 6%Z /\
  getAvailableColors 11 = 8%Z.
Proof.
  split; [|split].
  - apply (getAvailableColors_step_function 2); lia.
  - apply (getAvailableColors_step_function 7); lia.
  - apply (getAvailableColors_step_function 11); lia.
Defined.


(** Level 10 of the game's configuration (radius 10, canvas 800 x 650) under
    [spiralOracle]: the eleventh and last peg, at (400, 324), is returned
    with a negative colour. *)
Lemma generateLevel_negative_colorIndex_witness :
  exists out q,
    fst (generateLevel 10 800 650 (fun _ => 0) (fun _ => 0) (fun _ => 1)
           (fun _ _ => - (Math_PI / 2)) (fun _ _ => 0) spiralOracle
           10 10 0%nat) = Some (out ++ [q]) /\
    x q = 800 # 2 /\ y q = 24300 # 75 /\ (colorIndex q < 0)%Z.
Proof.
  apply (generateLevel_negative_colorIndex 10 800 650 (fun _ => 0) (fun _ => 0)
           (fun _ => 1) (fun _ _ => - (Math_PI / 2)) (fun _ _ => 0) spiralOracle
           10 10 0%nat 719%nat 6362%nat
           [ mkPeg 640.0 465.0 5;
             mkPeg (11180800 # 20000) (8480800 # 20000) 0;
             mkPeg (12000000 # 20000) (8480800 # 20000) 2;
             mkPeg (11590400 # 20000) (8890400 # 20000) 2;
             mkPeg (12409600 # 20000) (8890400 # 20000) 4;
             mkPeg (11180800 # 20000) (9300000 # 20000) 2;
             mkPeg (12000000 # 20000) (9300000 # 20000) 4;
             mkPeg (11590400 # 20000) (9709600 # 20000) 4;
             mkPeg (12409600 # 20000) (9709600 # 20000) 0 ]
           [ mkPeg 640.0 465.0 5;
             mkPeg (11180800 # 20000) (8480800 # 20000) 0;
             mkPeg (12000000 # 20000) (8480800 # 20000) 2;
             mkPeg (11590400 # 20000) (8890400 # 20000) 2;
             mkPeg (12409600 # 20000) (8890400 # 20000) 4;
             mkPeg (11180800 # 20000) (9300000 # 20000) 2;
             mkPeg (12000000 # 20000) (9300000 # 20000) 4;
             mkPeg (11590400 # 20000) (9709600 # 20000) 4;
             mkPeg (12409600 # 20000) (9709600 # 20000) 0;
             mkPeg 640.0 525.0 5 ]
           (mkPeg (800 # 2) (24300 # 75) 1)).
  - intros dy dx _ _. reflexivity.
  - intros s _. reflexivity.
  - lia.
  - vm_compute. reflexivity.
  - vm_compute. reflexivity.
  - vm_compute. reflexivity.
  - vm_compute. discriminate.
  - vm_compute. reflexivity.
  - vm_compute. reflexivity.
  - vm_compute. discriminate.
Defined.



(** C2 fails on the code: on level 1 with every draw 1/2 the grid has 72
    pegs, [ensureMinimumPegs] is not called, and the first peg, at x = 110.8,
    is closer to the left margin than [pegRadius * 2]. *)
Lemma generateLevel_edge_clearance_counterexample :
  exists out peg,
    fst (generateLevel 10 800 650 (fun _ => 0) (fun _ => 0) (fun _ => 1)
           (fun _ _ => 0) (fun _ _ => 0) (fun _ => 1 # 2) 10 1 0%nat)
    = Some out /\
    In peg out /\ x peg < horizontalMargin + 10 * 2.
Proof.
  eexists. exists (mkPeg (44320 # 400) 180.0 0).
  split; [vm_compute; reflexivity|].
  split; [left; reflexivity|reflexivity].
Defined.

(** Level 3 with every draw 1/2: the one peg returned keeps the clearance. *)
Lemma generateLevel_edge_clearance_witness :
  exists out,
    fst (generateLevel 10 800 650 (fun _ => 0) (fun _ => 0) (fun _ => 1)
           (fun _ _ => 0) (fun _ _ => 0) (fun _ => 1 # 2) 10 3 0%nat)
    = Some out /\
    out <> [] /\
    forall peg, In peg out ->
      horizontalMargin + 10 * 2 <= x peg /\
      x peg <= 800 - horizontalMargin - 10 * 2 /\
      10 * 2 <= y peg /\
      y peg <= 650 - 10 * 2.
Proof.
  exists [mkPeg (800 # 2) (650 # 2) 5].
  split; [vm_compute; reflexivity|].
  split; [discriminate|].
  apply (generateLevel_edge_clearance 10 800 650 (fun _ => 0) (fun _ => 0)
           (fun _ => 1) (fun _ _ => 0) (fun _ _ => 0) (fun _ => 1 # 2)
           10 3 0%nat [mkPeg (800 # 2) (650 # 2) 5]).
  - lia.
  - vm_compute. reflexivity.
  - left. lia.
Defined.









(** ** Further properties at concrete inputs *)

Lemma getMinimumPegCount_growth_witness :
  (getMinimumPegCount 3 <= getMinimumPegCount 20)%Z /\
  getMinimumPegCount 20 = 120%Z.
Proof.
  destruct (getMinimumPegCount_growth 3 20) as (_ & H & _); [lia|].
  destruct (getMinimumPegCount_growth 20 20) as (_ & _ & _ & _ & H'); [lia|].
  split; [exact H|apply H'; lia].
Defined.

Lemma levelSpacing_antitone_witness :
  levelSpacing 10 15 <= levelSpacing 10 1 /\ levelSpacing 10 20 == 10 * 2.3.
Proof.
  destruct (levelSpacing_antitone 10 1 15) as (_ & H & _); [lia|].
  destruct (levelSpacing_antitone 10 15 20) as (_ & _ & H'); [lia|].
  split; [exact H|apply H'; discriminate].
Defined.


Lemma patternGradient_range_witness :
  (0 <= patternGradient (mkPeg 400 300 0) 6 12 < 6)%Z.
Proof.
  apply (patternGradient_range (mkPeg 400 300 0) 6 12). lia.
Defined.

Lemma linearGradient_range_witness :
  (0 <= horizontalGradient 800 (mkPeg 400 300 0) 6 4 < 6)%Z /\
  (0 <= verticalGradient 650 (mkPeg 400 300 0) 6 4 < 6)%Z /\
  horizontalGradient 800 (mkPeg 700 300 0) 6 4 = 6%Z.
Proof.
  destruct (linearGradient_range 800 650 (mkPeg 400 300 0) 6 4) as (H & V & _);
    [lia|].
  destruct (linearGradient_range 800 650 (mkPeg 700 300 0) 6 4) as (_ & _ & R);
    [lia|].
  split; [apply H; [discriminate|reflexivity]|].
  split; [apply V; [discriminate|reflexivity]|].
  apply R; reflexivity.
Defined.

Lemma stripeGradient_range_witness :
  (0 <= stripeGradient (mkPeg 400 300 0) 6 5 < 6)%Z.
Proof.
  apply (stripeGradient_range (mkPeg 400 300 0) 6 5); [lia|lia|discriminate].
Defined.

Lemma generateLevel_color_below_witness :

  (colorIndex (mkPeg (800 # 2) (650 # 2) 5) < getAvailableColors 3)%Z.
Proof.
  apply (generateLevel_color_below 10 800 650 (fun _ => 0) (fun _ => 0)
           (fun _ => 1) (fun _ _ => 0) (fun _ _ => 0) (fun _ => 1 # 2)
           10 3 0%nat [mkPeg (800 # 2) (650 # 2) 5]).
  - vm_compute. reflexivity.
  - left. reflexivity.
Defined.

Lemma ensureMinimumColorCounts_satisfied_witness :
  ensureMinimumColorCounts
    [mkPeg 1 1 0; mkPeg 2 1 0; mkPeg 3 1 0; mkPeg 4 1 1; mkPeg 5 1 1;
     mkPeg 6 1 1] 2 11
  = [mkPeg 1 1 0; mkPeg 2 1 0; mkPeg 3 1 0; mkPeg 4 1 1; mkPeg 5 1 1;
     mkPeg 6 1 1].
Proof.
  apply (ensureMinimumColorCounts_satisfied
           [mkPeg 1 1 0; mkPeg 2 1 0; mkPeg 3 1 0; mkPeg 4 1 1; mkPeg 5 1 1;
            mkPeg 6 1 1] 2 11).
  - lia.
  - repeat constructor.
  - intros c Hc. assert (E : c = 0%Z \/ c = 1%Z) by lia.
    destruct E as [-> | ->]; vm_compute; discriminate.
Defined.

Lemma clampColors_clamped_witness :
  Forall2 (clamped 4) [mkPeg 150 100 7; mkPeg 300 200 1]
          (clampColors [mkPeg 150 100 7; mkPeg 300 200 1] 4).
Proof.
  apply (clampColors_clamped [mkPeg 150 100 7; mkPeg 300 200 1] 4). lia.
Defined.

Lemma createFillerPegs_spaced_witness :
  separated 60
    (fst (createFillerPegs (fun _ => 1 # 2) 100 120 700 570 60 3
            [mkPeg 150 150 0] 4 0%nat)).
Proof.
  destruct (createFillerPegs_spaced (fun _ => 1 # 2) 100 120 700 570 60 3
              [mkPeg 150 150 0] 4 0%nat) as (_ & H & _).
  - intro k. split; [discriminate|reflexivity].
  - discriminate.
  - discriminate.
  - lia.
  - exact H.
Defined.


Lemma createRandomPattern_spaced_witness :
  separated 60
    (fst (createRandomPattern (fun _ => 1 # 2) 4 100 150 700 500 60 3 0%nat)).
Proof.
  destruct (createRandomPattern_spaced (fun _ => 1 # 2) 4 100 150 700 500 60 3
              0%nat) as (_ & H & _).
  - intro k. split; [discriminate|reflexivity].
  - discriminate.
  - discriminate.
  - exact H.
Defined.


Lemma applyProceduralNoise_bounded_witness :
  (len (fst (applyProceduralNoise (fun _ => 1 # 2) [mkPeg 400 300 2] 7 40
               0%nat))
   <= len [mkPeg 400 300 2])%Z.
Proof.
  destruct (applyProceduralNoise_bounded (fun _ => 1 # 2) [mkPeg 400 300 2] 7
              40 0%nat) as (_ & H & _).
  - intro k. split; [discriminate|reflexivity].
  - discriminate.
  - exact H.
Defined.

Lemma selectPatternsByDifficulty_monotone_witness :
  In "grid"%string (selectPatternsByDifficulty 1) /\
  selectPatternsByDifficulty 9 = map fst patternTable.
Proof.
  destruct (selectPatternsByDifficulty_monotone 1 9) as (_ & G & _); [lia|].
  destruct (selectPatternsByDifficulty_monotone 9 9) as (_ & _ & _ & A & _);
    [lia|].
  split; [apply G; lia|apply A; lia].
Defined.

Lemma selectRandomPatternsForLevel_from_pool_witness :
  ~ In "vortex"%string
      (fst (selectRandomPatternsForLevel (fun _ => 1 # 2)
              ["grid"; "vortex"; "random"]%string 2 4 0%nat)).
Proof.
  destruct (selectRandomPatternsForLevel_from_pool (fun _ => 1 # 2)
              ["grid"; "vortex"; "random"]%string 2 4 0%nat) as (_ & _ & H).
  - intro k. split; [discriminate|reflexivity].
  - apply H. lia.
Defined.

Lemma createChallengeCluster_size_witness :
  len (fst (createChallengeCluster 800 650 (fun _ => 0) (fun _ => 1)
              (fun _ => 1 # 2) 6 32 0%nat)) = 9%Z.
Proof.
  destruct (createChallengeCluster_size 800 650 (fun _ => 0) (fun _ => 1)
              (fun _ => 1 # 2) 6 32 0%nat) as (_ & H).
  - lia.
  - exact H.
Defined.

Lemma purchaseBalls_invariants_witness :
  (totalRunBalls
     (snd (purchaseBalls 1 (mkGame 0 250 8 3 2 false false [] [] []))) <= 10)%Z
  /\ fst (purchaseBalls 1 (mkGame 0 250 8 3 2 false false [] [] [])) = true.
Proof.
  destruct (purchaseBalls_invariants 1
              (mkGame 0 250 8 3 2 false false [] [] []))
    as (_ & H & _ & _ & _ & Hok & _).
  - cbn. lia.
  - cbn. lia.
  - split; [exact H|]. apply Hok. vm_compute. reflexivity.
Defined.

Lemma checkLevelCompletion_all_hit_witness :
  levelCompleted
    (checkLevelCompletion
       (mkGame 120 0 10 4 3 false false
          [12; 10; 9; 11; 8; 7; 0; 0]%Z [12; 10; 9; 11; 8; 7; 0; 0]%Z
          (fst (getColorThresholds (fun _ => 1 # 2) 3 0%nat))))
  = true.
Proof.
  apply (checkLevelCompletion_all_hit (fun _ => 1 # 2)
           (mkGame 120 0 10 4 3 false false
              [12; 10; 9; 11; 8; 7; 0; 0]%Z [12; 10; 9; 11; 8; 7; 0; 0]%Z
              (fst (getColorThresholds (fun _ => 1 # 2) 3 0%nat)))
           3 0%nat); reflexivity.
Defined.

Lemma divideCanvasIntoSections_small_witness :
  exists s,
    fst (divideCanvasIntoSections 800 650 (fun _ => 1 # 2) 1 1 0%nat)
    = Some [s] /\ sx s = horizontalMargin.
Proof.
  destruct (divideCanvasIntoSections_small 800 650 (fun _ => 1 # 2) 1 0%nat)
    as ((s & E & Hx & _) & _).
  - intro k. split; [discriminate|reflexivity].
  - exists s. split; assumption.
Defined.

Lemma createOverlappingSections_inside_witness :
  exists out added,
    fst (createOverlappingSections 800 650 (fun _ => 1 # 2) 8 1 8 0%nat)
    = Some out /\
    len added = 2%Z /\ Forall (inPlayArea 800 650) added.
Proof.
  destruct (fst (createOverlappingSections 800 650 (fun _ => 1 # 2) 8 1 8
                   0%nat)) as [out|] eqn:E; [|vm_compute in E; discriminate].
  destruct (createOverlappingSections_inside 800 650 (fun _ => 1 # 2) 8 1 8
              0%nat out) as (base & added & _ & _ & Hl & Hin).
  - intro k. split; [discriminate|reflexivity].
  - discriminate.
  - discriminate.
  - exact E.
  - exists out, added. split; [reflexivity|]. split; [exact Hl|exact Hin].
Defined.

Lemma removePegOverlaps_greedy_witness :
  removePegOverlaps [mkPeg 0 0 1; mkPeg 100 0 2] 50
  = [mkPeg 0 0 1; mkPeg 100 0 2].
Proof.
  destruct (removePegOverlaps_greedy [mkPeg 0 0 1; mkPeg 100 0 2] 50)
    as (_ & _ & _ & H & _).
  apply H. repeat constructor.
Defined.

Lemma removeEdgePegs_exact_witness :
  In (mkPeg 400 300 0)
     (removeEdgePegs 800 650 [mkPeg 105 300 1; mkPeg 400 300 0] 20).
Proof.
  destruct (removeEdgePegs_exact 800 650 [mkPeg 105 300 1; mkPeg 400 300 0] 20)
    as (H & _).
  apply H. split; [right; left; reflexivity|].
  unfold edgeClearance. cbn. repeat split; discriminate.
Defined.

Lemma createGridPattern_lattice_witness :
  len (fst (createGridPattern (fun _ => 1 # 2) 1 110 180 12 6 48.2 1 0%nat))
  = 72%Z.
Proof.
  destruct (createGridPattern_lattice (fun _ => 1 # 2) 1 110 180 12 6 48.2 1
              0%nat) as (_ & _ & _ & _ & H).
  destruct H as [_ H].
  - intro k. split; [discriminate|reflexivity].
  - apply H. discriminate.
Defined.

Lemma generatePatternInSection_no_pegs_witness :
  generatePatternInSection (fun _ => 0) (fun _ => 0) (patterns "grid")
    (Some (mkSection 100 120 600 450 None)) 40 2 = Some [].
Proof.
  destruct (generatePatternInSection_no_pegs 800 650 (fun _ => 0) (fun _ => 0)
              (fun _ => 1 # 2)) as (_ & H & _).
  apply H.
Defined.

